(** * A shallow embedding of the radix tree of [radix.go]

    The Go program keeps a compressed trie whose nodes carry an optional
    stored entry ([leaf]), the key segment consumed to reach them ([prefix])
    and a table of child edges kept sorted by label.  Nodes are owned by
    exactly one parent, so the in-place pointer updates of the Go code are
    modelled by rebuilding the spine from the modified node up to the root. *)

From Stdlib Require Import List Ascii ZArith Lia Bool Arith.
From Stdlib Require String.
Import String.StringSyntax.
Open Scope string_scope.
From Stdlib Require Import Sorted.
Import ListNotations.

Set Implicit Arguments.

(** ** Go strings and bytes *)

(** A Go [string] is an immutable sequence of bytes. *)
Definition gostring := list ascii.

(** String literals of the examples. *)
Definition str (s : String.string) : gostring := String.list_ascii_of_string s.

(** Equality of strings, [a == b] in Go. *)
Definition gostring_eq_dec : forall a b : gostring, {a = b} + {a <> b} :=
  list_eq_dec ascii_dec.

(** Comparison of two bytes, [a < b] and [a >= b] in Go. *)
Definition byte_lt (a b : ascii) : bool := nat_of_ascii a <? nat_of_ascii b.
Definition byte_ge (a b : ascii) : bool := negb (byte_lt a b).

(** Comparison of two strings, [a < b] in Go: lexicographic, byte by
    byte. *)
Fixpoint gostring_ltb (a b : gostring) : bool :=
  match a, b with
  | _, [] => false
  | [], _ :: _ => true
  | x :: a', y :: b' =>
      byte_lt x y || (Ascii.eqb x y && gostring_ltb a' b')
  end.

(** [strings.HasPrefix(s, pre)]. *)
Fixpoint HasPrefix (s pre : gostring) {struct pre} : bool :=
  match pre, s with
  | [], _ => true
  | p :: pre', c :: s' => Ascii.eqb c p && HasPrefix s' pre'
  | _ :: _, [] => false
  end.

(** [longestPrefix]: the length of the shared prefix of two strings. *)
Fixpoint longestPrefix (k1 k2 : gostring) : nat :=
  match k1, k2 with
  | c1 :: r1, c2 :: r2 => if Ascii.eqb c1 c2 then S (longestPrefix r1 r2) else 0
  | _, _ => 0
  end.

(** ** Go [int]: a 64-bit two's complement counter *)

Definition int_min : Z := - 2 ^ 63.
Definition int_max : Z := 2 ^ 63 - 1.
Definition int_wrap (z : Z) : Z := (z + 2 ^ 63) mod 2 ^ 64 - 2 ^ 63.

(** ** [sort.Search]

    The binary search of Go's standard library: [i, j := 0, n]; while
    [i < j], probe [h = (i+j)/2] and keep the half that preserves
    [f(i-1) == false] and [f(j) == true].  The interval shrinks at every
    iteration, so [n] iterations are always enough. *)
Fixpoint search_loop (fuel : nat) (f : nat -> bool) (i j : nat) : nat :=
  match fuel with
  | O => i
  | S fuel' =>
      if i <? j then
        let h := (i + j) / 2 in
        if negb (f h) then search_loop fuel' f (h + 1) j
        else search_loop fuel' f i h
      else i
  end.

Definition sort_Search (n : nat) (f : nat -> bool) : nat :=
  search_loop n f 0 n.

(** ** Edges *)

(** [type edge struct { label byte; node *node }], parametric in the node
    type so that [node] can nest it. *)
Record edge_of (N : Type) : Type := mkEdge { label : ascii; e_node : N }.

Section EdgeTable.
Variable N : Type.
Local Abbreviation edge := (edge_of N).

(** The index computed by [sort.Search(num, func(i) { return
    n.edges[i].label >= label })].  [sort.Search] only probes indices
    below [num], so the closure never reads out of range. *)
Definition search_idx (es : list edge) (l : ascii) : nat :=
  sort_Search (length es)
    (fun i => match nth_error es i with
              | Some e => byte_ge (label e) l
              | None => true
              end).

(** [getEdge]: the child under [l], or [None] for Go's [nil]. *)
Definition getEdge (es : list edge) (l : ascii) : option N :=
  match nth_error es (search_idx es l) with
  | Some e => if Ascii.eqb (label e) l then Some (e_node e) else None
  | None => None
  end.

(** Writing through the pointer stored at index [i]:
    [n.edges[i].node = nd]. *)
Fixpoint set_node (es : list edge) (i : nat) (nd : N) : list edge :=
  match es, i with
  | [], _ => []
  | e :: es', O => mkEdge (label e) nd :: es'
  | e :: es', S i' => e :: set_node es' i' nd
  end.

(** [updateEdge]; [None] is the [panic("replacing missing edge")]. *)
Definition updateEdge (es : list edge) (l : ascii) (nd : N)
  : option (list edge) :=
  let idx := search_idx es l in
  match nth_error es idx with
  | Some e => if Ascii.eqb (label e) l then Some (set_node es idx nd) else None
  | None => None
  end.

(** Removal of the element at index [i] ([copy], clear the last slot,
    reslice). *)
Fixpoint remove_at (es : list edge) (i : nat) : list edge :=
  match es, i with
  | [], _ => []
  | _ :: es', O => es'
  | e :: es', S i' => e :: remove_at es' i'
  end.

(** [delEdge]: a no-op when the label is absent. *)
Definition delEdge (es : list edge) (l : ascii) : list edge :=
  let idx := search_idx es l in
  match nth_error es idx with
  | Some e => if Ascii.eqb (label e) l then remove_at es idx else es
  | None => es
  end.

(** [edges.Sort()], by [Less(i, j) = e[i].label < e[j].label].  On a
    table of at most 12 edges [sort.Sort] is an insertion sort: each element
    in turn, from the second on, moves left for as long as its label is
    less than that of its left neighbour, so that it comes to stand before
    the first element with a greater label and after those with an equal
    one.  On a table without two equal labels every sorting algorithm
    gives the same result. *)
Fixpoint insert_edge (e : edge) (es : list edge) : list edge :=
  match es with
  | [] => [e]
  | x :: es' => if byte_lt (label e) (label x) then e :: es
                else x :: insert_edge e es'
  end.

Definition sort_edges (es : list edge) : list edge :=
  fold_left (fun sorted e => insert_edge e sorted) es [].

(** [addEdge]: [append] then [Sort]. *)
Definition addEdge (es : list edge) (e : edge) : list edge :=
  sort_edges (es ++ [e]).

(** Invariant 1 of the data model: the labels of a table are sorted and
    unique. *)
Definition edge_lt (a b : edge) : Prop := byte_lt (label a) (label b) = true.
Definition labels_sorted (es : list edge) : Prop := StronglySorted edge_lt es.

(** Continuation-passing form of [getEdge], used by the descents so that
    they recurse structurally on the child found. *)
Section WithEdge.
Variable R : Type.
Variable k : N -> R.
Variable d : R.

Fixpoint at_index (es : list edge) (i : nat) (l : ascii) : R :=
  match es, i with
  | [], _ => d
  | e :: _, O => if Ascii.eqb (label e) l then k (e_node e) else d
  | _ :: es', S i' => at_index es' i' l
  end.
End WithEdge.

Definition with_edge (R : Type) (es : list edge) (l : ascii)
  (d : R) (k : N -> R) : R :=
  at_index k d es (search_idx es l) l.

(** [for _, e := range es { if body(e.node) { return true } }; return
    false], threading the state [S] the callbacks act on. *)
Section RangeUntil.
Variable S : Type.
Variable body : N -> S -> S * bool.

Fixpoint range_until (es : list edge) (s : S) : S * bool :=
  match es with
  | [] => (s, false)
  | e :: es' =>
      let (s', stop) := body (e_node e) s in
      if stop then (s', true) else range_until es' s'
  end.
End RangeUntil.

(** [for _, e := range es { acc = append(acc, body(e.node)...) }]. *)
Section RangeCollect.
Variables (A S : Type).
Variable body : N -> S -> list A * S.

Fixpoint range_collect (es : list edge) (acc : list A) (s : S)
  : list A * S :=
  match es with
  | [] => (acc, s)
  | e :: es' =>
      let (children, s') := body (e_node e) s in
      range_collect es' (acc ++ children) s'
  end.
End RangeCollect.

(** [es[len(es)-1].node] handed to [k], or [d] when the table is empty. *)
Section AtLast.
Variable R : Type.
Variable k : N -> R.
Variable d : R.

Fixpoint at_last (es : list edge) : R :=
  match es with
  | [] => d
  | e :: es' =>
      match es' with
      | [] => k (e_node e)
      | _ :: _ => at_last es'
      end
  end.
End AtLast.

End EdgeTable.

(** ** Nodes and trees *)

Section Radix.
(** The values stored in the tree (Go's [interface{}]). *)
Context {V : Type}.

Record LeafNode : Type := mkLeaf { Key : gostring; Val : V }.

Local Unset Elimination Schemes.
Inductive node : Type :=
  mkNode { leaf : option LeafNode;
           prefix : gostring;
           edges : list (edge_of node) }.
Local Set Elimination Schemes.

Local Abbreviation edge := (edge_of node).

Record Tree : Type := mkTree { root : node; size : Z }.

Definition isLeaf (n : node) : bool :=
  match leaf n with Some _ => true | None => false end.

(** Field assignments [n.leaf = lf], [n.edges = es], [n.prefix = p]. *)
Definition set_leaf (n : node) (lf : option LeafNode) : node :=
  mkNode lf (prefix n) (edges n).
Definition set_edges (n : node) (es : list edge) : node :=
  mkNode (leaf n) (prefix n) es.
Definition set_prefix (n : node) (p : gostring) : node :=
  mkNode (leaf n) p (edges n).

(** [New()] is [NewFromMap(nil)]: a root [&node{}] and size 0. *)
Definition New : Tree := mkTree (mkNode None [] []) 0.

Definition Len (t : Tree) : Z := size t.

(** *** Insert *)

(** The loop of [Insert], one iteration per recursive call; [n] is the
    loop variable of the same name, [s] the whole key, [search] what is
    left of it and [sz] the counter [t.size].  The result is the updated
    node, the updated counter and the two return values; [None] is the
    panic of [updateEdge]. *)
Fixpoint insert (n : node) (s : gostring) (v : V) (search : gostring)
  (sz : Z) {struct n} : option (node * Z * (option V * bool)) :=
  match search with
  | [] =>
      (* Handle key exhaustion *)
      match leaf n with
      | Some lf =>
          Some (set_leaf n (Some (mkLeaf (Key lf) v)), sz, (Some (Val lf), true))
      | None =>
          Some (set_leaf n (Some (mkLeaf s v)), int_wrap (sz + 1), (None, false))
      end
  | c :: _ =>
      with_edge (edges n) c
        (* No edge, create one *)
        (Some (set_edges n
                 (addEdge (edges n)
                    (mkEdge c (mkNode (Some (mkLeaf s v)) search []))),
               int_wrap (sz + 1), (None, false)))
        (fun n' =>
           let commonPrefix := longestPrefix search (prefix n') in
           if commonPrefix =? length (prefix n') then
             match insert n' s v (skipn commonPrefix search) sz with
             | Some (n'', sz', r) =>
                 Some (set_edges n
                         (set_node (edges n) (search_idx (edges n) c) n''),
                       sz', r)
             | None => None
             end
           else
             (* Split the node *)
             let sz' := int_wrap (sz + 1) in
             let child0 := mkNode None (firstn commonPrefix search) [] in
             (* Restore the existing node *)
             let child1 :=
               set_edges child0
                 (addEdge (edges child0)
                    (mkEdge (nth commonPrefix (prefix n') zero)
                       (set_prefix n' (skipn commonPrefix (prefix n'))))) in
             let lf := mkLeaf s v in
             let child2 :=
               match skipn commonPrefix search with
               | [] => set_leaf child1 (Some lf)
               | (c' :: _) as search' =>
                   set_edges child1
                     (addEdge (edges child1)
                        (mkEdge c' (mkNode (Some lf) search' [])))
               end in
             match updateEdge (edges n) c child2 with
             | Some es' => Some (set_edges n es', sz', (None, false))
             | None => None
             end)
  end.

Definition Insert (t : Tree) (s : gostring) (v : V)
  : option (Tree * (option V * bool)) :=
  match insert (root t) s v s (size t) with
  | Some (r, sz, res) => Some (mkTree r sz, res)
  | None => None
  end.

(** *** Get *)

(** [Get]: the loop of the Go code, one iteration per recursive call. *)
Fixpoint get (n : node) (search : gostring) {struct n} : option V * bool :=
  match search with
  | [] => match leaf n with
          | Some lf => (Some (Val lf), true)
          | None => (None, false)
          end
  | c :: _ =>
      with_edge (edges n) c (None, false)
        (fun n' =>
           if HasPrefix search (prefix n')
           then get n' (skipn (length (prefix n')) search)
           else (None, false))
  end.

Definition Get (t : Tree) (s : gostring) : option V * bool :=
  get (root t) s.

(** *** Delete *)

(** [mergeChild]; it reads [n.edges[0]] and is only called under the
    guard [len(n.edges) == 1]. *)
Definition mergeChild (n : node) : node :=
  match edges n with
  | e :: _ =>
      let child := e_node e in
      mkNode (leaf child) (prefix n ++ prefix child) (edges child)
  | [] => n
  end.

(** The descent of [Delete] followed by the code under [DELETE:].
    [None] is the [break] that leads to [return nil, false].  Otherwise the
    result is the updated node, whether the target lost its last edge (the
    test of [parent.delEdge]), whether this node is the target itself (so
    that the caller is [parent]) and the value removed.  [is_root] is
    [n == t.root]. *)
Fixpoint delete (is_root : bool) (n : node) (search : gostring) {struct n}
  : option (node * bool * bool * V) :=
  match search with
  | [] =>
      match leaf n with
      | None => None
      | Some lf =>
          (* Delete the leaf *)
          let n1 := set_leaf n None in
          let gone := length (edges n1) =? 0 in
          (* Check if we should merge this node *)
          let n2 := if negb is_root && (length (edges n1) =? 1)
                    then mergeChild n1 else n1 in
          Some (n2, gone, true, Val lf)
      end
  | c :: _ =>
      with_edge (edges n) c None
        (fun n' =>
           if HasPrefix search (prefix n') then
             match delete false n' (skipn (length (prefix n')) search) with
             | None => None
             | Some (n'', gone, target, v) =>
                 if target then
                   (* [n] is [parent] and [c] is [label] *)
                   let es1 :=
                     if gone then delEdge (edges n) c
                     else set_node (edges n) (search_idx (edges n) c) n'' in
                   let p1 := set_edges n es1 in
                   (* Check if we should merge the parent's other child *)
                   let p2 :=
                     if negb is_root && (length es1 =? 1) && negb (isLeaf p1)
                     then mergeChild p1 else p1 in
                   Some (p2, false, false, v)
                 else
                   Some (set_edges n
                           (set_node (edges n) (search_idx (edges n) c) n''),
                         false, false, v)
             end
           else None)
  end.

Definition Delete (t : Tree) (s : gostring) : Tree * (option V * bool) :=
  match delete true (root t) s with
  | None => (t, (None, false))
  | Some (r, _, _, v) => (mkTree r (int_wrap (size t - 1)), (Some v, true))
  end.

(** *** Walks *)

(** [WalkFn]: the callback acts on a state [S] and returns whether the
    iteration should be terminated. *)
Definition WalkFn (S : Type) : Type := gostring -> V -> S -> S * bool.

(** [recursiveWalk]: pre-order walk; the boolean is the abort flag. *)
Fixpoint recursiveWalk (S : Type) (n : node) (fn : WalkFn S) (s : S)
  {struct n} : S * bool :=
  let (s1, stop) :=
    match leaf n with
    | Some lf => fn (Key lf) (Val lf) s
    | None => (s, false)
    end in
  if stop then (s1, true)
  else range_until (fun m => recursiveWalk m fn) (edges n) s1.

Definition Walk (S : Type) (t : Tree) (fn : WalkFn S) (s : S) : S :=
  fst (recursiveWalk (root t) fn s).

Fixpoint walkPrefix (S : Type) (n : node) (search : gostring)
  (fn : WalkFn S) (s : S) {struct n} : S :=
  match search with
  | [] => fst (recursiveWalk n fn s)
  | c :: _ =>
      with_edge (edges n) c s
        (fun n' =>
           if HasPrefix search (prefix n')
           then walkPrefix n' (skipn (length (prefix n')) search) fn s
           else if HasPrefix (prefix n') search
                then fst (recursiveWalk n' fn s)
                else s)
  end.

Definition WalkPrefix (S : Type) (t : Tree) (p : gostring)
  (fn : WalkFn S) (s : S) : S :=
  walkPrefix (root t) p fn s.

(** [WalkFnPost]: the callback receives a parent and its children. *)
Definition WalkFnPost (S : Type) : Type :=
  LeafNode -> list LeafNode -> S -> S.

Fixpoint recursiveWalk_postOrder (S : Type) (n : node) (fn : WalkFnPost S)
  (s : S) {struct n} : list LeafNode * S :=
  let (all_children, s1) :=
    range_collect (fun m => recursiveWalk_postOrder m fn) (edges n) [] s in
  match leaf n with
  | None => (all_children, s1)
  | Some lf => ([lf], fn lf all_children s1)
  end.

Definition Walk_post (S : Type) (t : Tree) (fn : WalkFnPost S) (s : S) : S :=
  snd (recursiveWalk_postOrder (root t) fn s).

(** *** DeletePrefix *)

(** The closure [func(s, v) bool { subTreeSize++; return false }]. *)
Definition count_fn : WalkFn Z := fun _ _ c => (int_wrap (c + 1), false).

(** [deletePrefix].  [None] is [return 0] without any change; otherwise
    the updated node, whether this node is the one that was cleared (so
    that the caller is [parent]) and the count.  [is_root] is
    [n == t.root]. *)
Fixpoint deletePrefix (is_root : bool) (n : node) (pre : gostring) {struct n}
  : option (node * bool * Z) :=
  match pre with
  | [] =>
      let subTreeSize := fst (recursiveWalk n count_fn 0%Z) in
      Some (mkNode None (prefix n) [], true, subTreeSize)
  | label :: _ =>
      with_edge (edges n) label None
        (fun child =>
           if negb (HasPrefix (prefix child) pre)
              && negb (HasPrefix pre (prefix child))
           then None
           else
             let pre' :=
               if length pre <? length (prefix child)
               then skipn (length pre) pre
               else skipn (length (prefix child)) pre in
             match deletePrefix false child pre' with
             | None => None
             | Some (child', cleared, k) =>
                 let p1 :=
                   set_edges n
                     (set_node (edges n) (search_idx (edges n) label) child') in
                 (* Check if we should merge the parent's other child *)
                 let p2 :=
                   if cleared && negb is_root && (length (edges p1) =? 1)
                      && negb (isLeaf p1)
                   then mergeChild p1 else p1 in
                 Some (p2, false, k)
             end)
  end.

Definition DeletePrefix (t : Tree) (s : gostring) : Tree * Z :=
  match deletePrefix true (root t) s with
  | None => (t, 0%Z)
  | Some (r, _, k) => (mkTree r (int_wrap (size t - k)), k)
  end.

(** *** Longest prefix match and the address-allocation helper *)

(** The loop of the method [longestPrefix]; [last] is the variable of the
    same name. *)
Fixpoint lpm (n : node) (search : gostring) (last : option node) {struct n}
  : option node :=
  let last' := if isLeaf n then Some n else last in
  match search with
  | [] => last'
  | c :: _ =>
      with_edge (edges n) c last'
        (fun n' =>
           if HasPrefix search (prefix n')
           then lpm n' (skipn (length (prefix n')) search) last'
           else last')
  end.

(** The method [(t *Tree) longestPrefix].  [last] is only ever set to a
    node that has a leaf (lemma [lpm_result]), so [last.leaf.Key] never
    dereferences [nil]. *)
Definition Tree_longestPrefix (t : Tree) (s : gostring)
  : gostring * option V * bool * option node :=
  match lpm (root t) s None with
  | Some last =>
      match leaf last with
      | Some lf => (Key lf, Some (Val lf), true, Some last)
      | None => ([], None, false, None)
      end
  | None => ([], None, false, None)
  end.

Definition LongestPrefix (t : Tree) (s : gostring)
  : gostring * option V * bool :=
  fst (Tree_longestPrefix t s).

Definition invert_binary_label (s : ascii) : gostring :=
  if Ascii.eqb s "1"%char then str "0" else str "1".

(** [FirstNonIncludedPrefix]; [n] is the node of the longest prefix
    match, which has a leaf, and the tests [len(n.edges) == 0] and
    [len(n.edges) == 1] are the first two shapes of [edges n]. *)
Definition FirstNonIncludedPrefix (t : Tree) (s : gostring)
  : gostring * bool :=
  match Tree_longestPrefix t s with
  | (_, _, true, Some n) =>
      match leaf n, edges n with
      | Some lf, [] => (Key lf, true)
      | Some lf, [e] => (Key lf ++ invert_binary_label (label e), true)
      | _, _ => ([], false)
      end
  | _ => ([], false)
  end.

(** *** Minimum and Maximum *)

(** The loop of [Minimum]: return the leaf of [n] if it has one, else
    move to [n.edges[0].node], else give up. *)
Fixpoint minimum (n : node) {struct n} : gostring * option V * bool :=
  match leaf n with
  | Some lf => (Key lf, Some (Val lf), true)
  | None =>
      match edges n with
      | e :: _ => minimum (e_node e)
      | [] => ([], None, false)
      end
  end.

Definition Minimum (t : Tree) : gostring * option V * bool :=
  minimum (root t).

(** The loop of [Maximum]: move to [n.edges[num-1].node] while there is
    an edge, then return the leaf of the node reached if it has one. *)
Fixpoint maximum (n : node) {struct n} : gostring * option V * bool :=
  at_last (fun m => maximum m)
    (match leaf n with
     | Some lf => (Key lf, Some (Val lf), true)
     | None => ([], None, false)
     end)
    (edges n).

Definition Maximum (t : Tree) : gostring * option V * bool :=
  maximum (root t).

(** *** WalkPath *)

(** The loop of [WalkPath]: visit the leaf of [n], stop if the visitor
    says so or the path is exhausted, else follow the edge of the next
    symbol as long as the prefix of its node matches. *)
Fixpoint walkPath (S : Type) (n : node) (search : gostring) (fn : WalkFn S)
  (s : S) {struct n} : S :=
  let (s1, stop) :=
    match leaf n with
    | Some lf => fn (Key lf) (Val lf) s
    | None => (s, false)
    end in
  if stop then s1
  else
    match search with
    | [] => s1
    | c :: _ =>
        with_edge (edges n) c s1
          (fun n' =>
             if HasPrefix search (prefix n')
             then walkPath n' (skipn (length (prefix n')) search) fn s1
             else s1)
    end.

Definition WalkPath (S : Type) (t : Tree) (path : gostring)
  (fn : WalkFn S) (s : S) : S :=
  walkPath (root t) path fn s.

(** *** ToMap and NewFromMap *)

(** A Go [map[string]interface{}], by what a lookup [m[k]] finds. *)
Definition gomap : Type := gostring -> option V.

(** [make(map[string]interface{}, n)]: the empty map. *)
Definition map_empty : gomap := fun _ => None.

(** The assignment [m[k] = v]. *)
Definition map_set (m : gomap) (k : gostring) (v : V) : gomap :=
  fun k' => if gostring_eq_dec k' k then Some v else m k'.

(** [ToMap]: walk the tree with the closure [out[a(k)] = v; return
    false]. *)
Definition ToMap (t : Tree) (a : gostring -> gostring) : gomap :=
  Walk t (fun k v out => (map_set out (a k) v, false)) map_empty.

End Radix.

Arguments LeafNode : clear implicits.
Arguments node : clear implicits.
Arguments Tree : clear implicits.
Arguments New : clear implicits.

(** ** Vocabulary of the specification *)

Section Vocabulary.
Context {V : Type}.
Local Abbreviation node := (node V).
Local Abbreviation Tree := (Tree V).

(** [In_tree m n]: [m] is [n] or one of its descendants. *)
Inductive In_tree : node -> node -> Prop :=
| In_tree_here : forall n, In_tree n n
| In_tree_child : forall m n e,
    In e (edges n) -> In_tree m (e_node e) -> In_tree m n.

(** A sequence of [Insert] calls; [None] if one of them panics. *)
Fixpoint insert_all (l : list (gostring * V)) (t : Tree) : option Tree :=
  match l with
  | [] => Some t
  | (k, v) :: l' =>
      match Insert t k v with
      | Some (t', _) => insert_all l' t'
      | None => None
      end
  end.

(** [NewFromMap(m)]: [for k, v := range m { t.Insert(k, v) }] on a tree
    with an empty root.  Go leaves the order of [range] over a map open;
    [l] is the sequence of entries that the loop happens to yield. *)
Definition NewFromMap (l : list (gostring * V)) : option Tree :=
  insert_all l (New V).

(** A tree over the binary alphabet: every edge is labelled [0] or [1]. *)
Fixpoint binary_node (n : node) : bool :=
  forallb (fun e => (Ascii.eqb (label e) "0"%char || Ascii.eqb (label e) "1"%char)
                    && binary_node (e_node e))
          (edges n).

Definition binary_alphabet (t : Tree) : bool := binary_node (root t).

(** The other symbol of the binary alphabet. *)
Definition complement (c : ascii) : ascii :=
  if Ascii.eqb c "0"%char then "1"%char else "0"%char.

(** Invariant 3 of the data model, on the nodes other than the root: a
    stored entry or at least two children. *)
Fixpoint compressed (n : node) : bool :=
  (isLeaf n || (2 <=? length (edges n)))
  && forallb (fun e => compressed (e_node e)) (edges n).

Definition invariant3 (t : Tree) : bool :=
  forallb (fun e => compressed (e_node e)) (edges (root t)).

(** The number of nodes of a subtree whose stored entry is present. *)
Fixpoint count_stored (n : node) : nat :=
  (if isLeaf n then 1 else 0)
  + list_sum (map (fun e => count_stored (e_node e)) (edges n)).

(** Where the descent along a prefix ends: on a node boundary, strictly
    inside the prefix of the edge that leads to a node, or nowhere. *)
Inductive place : Type :=
| Miss : place
| Exact : node -> place
| Inside : node -> place.

Fixpoint locate (n : node) (p : gostring) {struct n} : place :=
  match p with
  | [] => Exact n
  | c :: _ =>
      with_edge (edges n) c Miss
        (fun child =>
           if HasPrefix p (prefix child)
           then locate child (skipn (length (prefix child)) p)
           else if HasPrefix (prefix child) p then Inside child else Miss)
  end.

(** The stored entries of a subtree, in pre-order, and those strictly
    below its root. *)
Fixpoint stored (n : node) : list (LeafNode V) :=
  match leaf n with Some lf => [lf] | None => [] end
  ++ flat_map (fun e => stored (e_node e)) (edges n).

Definition stored_below (n : node) : list (LeafNode V) :=
  flat_map (fun e => stored (e_node e)) (edges n).

(** The stored entries nearest to a node: its own if it has one, and
    otherwise those nearest to its children, in edge order. *)
Fixpoint nearest (n : node) : list (LeafNode V) :=
  match leaf n with
  | Some lf => [lf]
  | None => flat_map (fun e => nearest (e_node e)) (edges n)
  end.

Definition nearest_below (n : node) : list (LeafNode V) :=
  flat_map (fun e => nearest (e_node e)) (edges n).

(** The nodes of a subtree that carry a stored entry, children before
    parents. *)
Fixpoint stored_nodes_post (n : node) : list node :=
  flat_map (fun e => stored_nodes_post (e_node e)) (edges n)
  ++ (if isLeaf n then [n] else []).

(** A visitor of the post-order walk that records its calls. *)
Definition record_post : WalkFnPost (list (LeafNode V * list (LeafNode V))) :=
  fun parent children log => log ++ [(parent, children)].

(** The calls of the post-order walk as the specification words them: one
    call per node with a stored entry, with every stored entry of its
    subtree as children. *)
Definition claimed_post_calls (n : node)
  : list (option (LeafNode V) * list (LeafNode V)) :=
  map (fun m => (leaf m, stored_below m)) (stored_nodes_post n).

(** The calls the walk makes: the children are the nearest stored entries
    below the node. *)
Definition post_calls (n : node)
  : list (option (LeafNode V) * list (LeafNode V)) :=
  map (fun m => (leaf m, nearest_below m)) (stored_nodes_post n).

(** The effect of the visitor on the nodes with a stored entry, in the
    order of the list. *)
Definition visit_post (S : Type) (fn : WalkFnPost S) (ms : list node) (s : S)
  : S :=
  fold_left (fun s m => match leaf m with
                        | Some lf => fn lf (nearest_below m) s
                        | None => s
                        end) ms s.

(** The node that [Insert] puts in the place of the child [n'] when it
    splits it at [cp]. *)
Definition split_node (n' : node) (s : gostring) (v : V) (search : gostring)
  (cp : nat) : node :=
  let child1 :=
    mkNode None (firstn cp search)
      (addEdge [] (mkEdge (nth cp (prefix n') zero)
                     (set_prefix n' (skipn cp (prefix n'))))) in
  match skipn cp search with
  | [] => set_leaf child1 (Some (mkLeaf s v))
  | (c' :: _) as search' =>
      set_edges child1
        (addEdge (edges child1)
           (mkEdge c' (mkNode (Some (mkLeaf s v)) search' [])))
  end.

(** The invariants of the data model at a node reached by consuming
    [path]: sorted and unique labels (1), every label the first symbol of
    its child's prefix (2), and every stored key the string consumed to
    reach its node. *)
Inductive wf_at : gostring -> node -> Prop :=
| wf_node : forall path lf p es,
    labels_sorted es ->
    (forall l, lf = Some l -> Key l = path) ->
    (forall e, In e es -> exists rest, prefix (e_node e) = label e :: rest) ->
    (forall e, In e es -> wf_at (path ++ prefix (e_node e)) (e_node e)) ->
    wf_at path (mkNode lf p es).

Definition wf_tree (t : Tree) : Prop := wf_at [] (root t).

(** The stored entries of a subtree as pairs of key and value, in
    pre-order. *)
Fixpoint entries (n : node) : list (gostring * V) :=
  match leaf n with Some lf => [(Key lf, Val lf)] | None => [] end
  ++ flat_map (fun e => entries (e_node e)) (edges n).

(** The entries at or under the place where a prefix ends. *)
Definition entries_under (n : node) (p : gostring) : list (gostring * V) :=
  match locate n p with
  | Miss => []
  | Exact m => entries m
  | Inside m => entries m
  end.

(** The calls of a visitor over a list of entries, up to and including
    the first one that asks to stop. *)
Fixpoint run_visits (S : Type) (fn : WalkFn S) (l : list (gostring * V))
  (s : S) : S * bool :=
  match l with
  | [] => (s, false)
  | (k, v) :: l' =>
      let (s', stop) := fn k v s in
      if stop then (s', true) else run_visits fn l' s'
  end.

(** A visitor that records its calls and never stops the walk. *)
Definition record : WalkFn (list (gostring * V)) :=
  fun k v log => (log ++ [(k, v)], false).

(** Ascending order of the keys of two entries. *)
Definition key_lt (a b : gostring * V) : Prop :=
  gostring_ltb (fst a) (fst b) = true.

(** The trees a program can hold: a new tree and what the three public
    mutations make of it. *)
Inductive reachable : Tree -> Prop :=
| reach_New : reachable (New V)
| reach_Insert : forall t k v t' r,
    reachable t -> Insert t k v = Some (t', r) -> reachable t'
| reach_Delete : forall t k,
    reachable t -> reachable (fst (Delete t k))
| reach_DeletePrefix : forall t p,
    reachable t -> reachable (fst (DeletePrefix t p)).

(** The trees built without [DeletePrefix]. *)
Inductive reachable_Insert_Delete : Tree -> Prop :=
| reach_ID_New : reachable_Insert_Delete (New V)
| reach_ID_Insert : forall t k v t' r,
    reachable_Insert_Delete t -> Insert t k v = Some (t', r) ->
    reachable_Insert_Delete t'
| reach_ID_Delete : forall t k,
    reachable_Insert_Delete t -> reachable_Insert_Delete (fst (Delete t k)).

(** What [Get] finds below the edge to [n] for the string [x] that is
    left when the edge is taken: the prefix of [n] has to match. *)
Definition look (n : node) (x : gostring) : option V * bool :=
  if HasPrefix x (prefix n) then get n (skipn (length (prefix n)) x)
  else (None, false).

(** The stored entries that the descent along a path meets, root first:
    that of [n], then those on the way down the edge of the next symbol
    for as long as the prefix of the node below matches. *)
Fixpoint path_entries (n : node) (search : gostring) {struct n}
  : list (gostring * V) :=
  match leaf n with Some lf => [(Key lf, Val lf)] | None => [] end
  ++ match search with
     | [] => []
     | c :: _ =>
         with_edge (edges n) c []
           (fun n' =>
              if HasPrefix search (prefix n')
              then path_entries n' (skipn (length (prefix n')) search)
              else [])
     end.

(** Two entries of which the first has the shorter key. *)
Definition shorter (a b : gostring * V) : Prop :=
  length (fst a) < length (fst b).

(** The number of distinct keys of a sequence of insertions. *)
Definition distinct_keys (l : list (gostring * V)) : nat :=
  length (nodup gostring_eq_dec (map fst l)).

End Vocabulary.

(** * Properties *)

(** ** The counter *)

Lemma int_wrap_small (z : Z) :
  (int_min <= z <= int_max)%Z -> int_wrap z = z.
Proof.
  unfold int_min, int_max, int_wrap. intros H.
  rewrite Z.mod_small; lia.
Qed.

Lemma int_wrap_add (a b : Z) : int_wrap (int_wrap a + b) = int_wrap (a + b).
Proof.
  unfold int_wrap.
  replace ((a + 2 ^ 63) mod 2 ^ 64 - 2 ^ 63 + b + 2 ^ 63)%Z
    with ((a + 2 ^ 63) mod 2 ^ 64 + b)%Z by lia.
  rewrite Zplus_mod_idemp_l. f_equal. f_equal. lia.
Qed.

Lemma int_wrap_sub (a b : Z) : int_wrap (int_wrap a - b) = int_wrap (a - b).
Proof. unfold Z.sub. apply int_wrap_add. Qed.

Lemma int_wrap_sub_r (a b : Z) : int_wrap (a - int_wrap b) = int_wrap (a - b).
Proof.
  unfold int_wrap.
  assert (H64 : (2 ^ 64 = 2 * 2 ^ 63)%Z) by reflexivity.
  remember (2 ^ 63)%Z as h eqn:Hh. remember (2 ^ 64)%Z as m eqn:Hm.
  replace (a - ((b + h) mod m - h) + h)%Z
    with (a + m - (b + h) mod m)%Z by lia.
  rewrite Zminus_mod_idemp_r. f_equal. f_equal. lia.
Qed.

(** ** Strings *)

Lemma HasPrefix_true (s pre : gostring) :
  HasPrefix s pre = true <-> exists r, s = pre ++ r.
Proof.
  revert s; induction pre as [|p pre IH]; intros s; simpl.
  - split; eauto.
  - destruct s as [|c s].
    + split; [discriminate|]. intros [r H]; discriminate.
    + rewrite andb_true_iff, IH. split.
      * intros [Hc [r ->]]. apply Ascii.eqb_eq in Hc; subst. eauto.
      * intros [r H]. inversion H; subst. split; eauto. apply Ascii.eqb_refl.
Qed.

Lemma HasPrefix_app (pre r : gostring) : HasPrefix (pre ++ r) pre = true.
Proof. apply HasPrefix_true; eauto. Qed.

Lemma HasPrefix_refl (s : gostring) : HasPrefix s s = true.
Proof. apply HasPrefix_true. exists []. symmetry; apply app_nil_r. Qed.

Lemma HasPrefix_skipn (s pre : gostring) :
  HasPrefix s pre = true -> s = pre ++ skipn (length pre) s.
Proof.
  intros H. apply HasPrefix_true in H. destruct H as [r ->].
  rewrite skipn_app, skipn_all, Nat.sub_diag. reflexivity.
Qed.

Lemma skipn_length_app (A : Type) (l r : list A) : skipn (length l) (l ++ r) = r.
Proof. rewrite skipn_app, skipn_all, Nat.sub_diag. reflexivity. Qed.

Lemma HasPrefix_length (s pre : gostring) :
  HasPrefix s pre = true -> length pre <= length s.
Proof.
  intros H. apply HasPrefix_true in H. destruct H as [r ->].
  rewrite length_app. lia.
Qed.

(** Two strings that are prefixes of one another are equal. *)
Lemma HasPrefix_antisym (s pre : gostring) :
  HasPrefix s pre = true -> HasPrefix pre s = true -> s = pre.
Proof.
  intros H1 H2. pose proof (HasPrefix_length _ _ H1).
  pose proof (HasPrefix_length _ _ H2).
  apply HasPrefix_true in H1. destruct H1 as [r ->].
  rewrite length_app in *. destruct r; [apply app_nil_r|simpl in *; lia].
Qed.

Lemma longestPrefix_le (s p : gostring) :
  longestPrefix s p <= length s /\ longestPrefix s p <= length p.
Proof.
  revert p; induction s as [|c s IH]; intros [|d p]; simpl; try lia.
  destruct (Ascii.eqb c d); simpl; [|lia]. specialize (IH p). lia.
Qed.

(** The test [commonPrefix == len(n.prefix)] of [Insert] is
    [strings.HasPrefix(search, n.prefix)]. *)
Lemma longestPrefix_full (s p : gostring) :
  (longestPrefix s p =? length p) = HasPrefix s p.
Proof.
  revert s; induction p as [|d p IH]; intros [|c s]; simpl; try reflexivity.
  destruct (Ascii.eqb c d); simpl; [apply IH|reflexivity].
Qed.

(** The two strings agree up to [longestPrefix] and differ right after
    it. *)
Lemma longestPrefix_firstn (s p : gostring) :
  firstn (longestPrefix s p) s = firstn (longestPrefix s p) p.
Proof.
  revert p; induction s as [|c s IH]; intros [|d p]; simpl; try reflexivity.
  destruct (Ascii.eqb_spec c d); simpl; [|reflexivity].
  subst. rewrite IH. reflexivity.
Qed.

Lemma longestPrefix_differ (s p : gostring) (c d : ascii) (s' p' : gostring) :
  skipn (longestPrefix s p) s = c :: s' ->
  skipn (longestPrefix s p) p = d :: p' ->
  c <> d.
Proof.
  revert p; induction s as [|a s IH]; intros [|b p]; simpl;
    try discriminate.
  destruct (Ascii.eqb_spec a b); simpl.
  - apply IH.
  - intros H1 H2. inversion H1; inversion H2; subst. assumption.
Qed.

Lemma skipn_nth (A : Type) (d : A) (l : list A) (i : nat) :
  i < length l -> skipn i l = nth i l d :: skipn (S i) l.
Proof.
  revert i; induction l as [|x l IH]; intros [|i] H; simpl in *; try lia; auto.
  apply IH. lia.
Qed.

Lemma HasPrefix_app_app (q x y : gostring) :
  HasPrefix (q ++ x) (q ++ y) = HasPrefix x y.
Proof.
  induction q as [|c q IH]; simpl; [reflexivity|].
  rewrite Ascii.eqb_refl. exact IH.
Qed.

Lemma HasPrefix_trans (s p q : gostring) :
  HasPrefix s p = true -> HasPrefix p q = true -> HasPrefix s q = true.
Proof.
  rewrite !HasPrefix_true. intros [r ->] [r' ->].
  exists (r' ++ r). rewrite app_assoc. reflexivity.
Qed.

Lemma HasPrefix_cons_neq (c d : ascii) (x y : gostring) :
  c <> d -> HasPrefix (c :: x) (d :: y) = false.
Proof.
  intros H. simpl. destruct (Ascii.eqb_spec c d); [contradiction|reflexivity].
Qed.

(** Two prefixes of one string are prefixes of one another. *)
Lemma HasPrefix_comparable (x a b : gostring) :
  HasPrefix x a = true -> HasPrefix x b = true ->
  HasPrefix a b = true \/ HasPrefix b a = true.
Proof.
  revert a b; induction x as [|c x IH]; intros [|d a] [|e b]; simpl; auto;
    try discriminate.
  intros H1 H3. apply andb_true_iff in H1, H3.
  destruct H1 as [H1 H2], H3 as [H3 H4].
  apply Ascii.eqb_eq in H1, H3. subst.
  rewrite Ascii.eqb_refl. simpl. apply IH; assumption.
Qed.

Lemma gostring_ltb_app (q a b : gostring) :
  gostring_ltb (q ++ a) (q ++ b) = gostring_ltb a b.
Proof.
  induction q as [|c q IH]; simpl; [reflexivity|].
  unfold byte_lt at 1. rewrite Nat.ltb_irrefl, Ascii.eqb_refl. exact IH.
Qed.

Lemma gostring_ltb_cons_lt (c d : ascii) (x y : gostring) :
  byte_lt c d = true -> gostring_ltb (c :: x) (d :: y) = true.
Proof. intros H. simpl. rewrite H. reflexivity. Qed.

Lemma gostring_ltb_irrefl (a : gostring) : gostring_ltb a a = false.
Proof.
  induction a as [|c a IH]; simpl; [reflexivity|].
  unfold byte_lt. rewrite Nat.ltb_irrefl, Ascii.eqb_refl. exact IH.
Qed.

(** ** The edge table *)

Section EdgeTableFacts.
Variable N : Type.
Local Abbreviation edge := (edge_of N).

Lemma at_index_nth_error (R : Type) (k : N -> R) (d : R) (l : ascii) :
  forall (es : list edge) (i : nat),
    at_index k d es i l =
    match nth_error es i with
    | Some e => if Ascii.eqb (label e) l then k (e_node e) else d
    | None => d
    end.
Proof.
  induction es as [|e es IH]; intros [|i]; simpl; auto.
Qed.

(** The continuation-passing lookup is [getEdge] followed by a test
    against [nil]. *)
Lemma with_edge_getEdge (R : Type) (es : list edge) (l : ascii) (d : R)
  (k : N -> R) :
  with_edge es l d k =
  match getEdge es l with Some n => k n | None => d end.
Proof.
  unfold with_edge, getEdge. rewrite at_index_nth_error.
  destruct (nth_error es (search_idx es l)) as [e|]; auto.
  destruct (Ascii.eqb (label e) l); auto.
Qed.

(** What [getEdge] returns sits in the table, at the searched index and
    under the searched label. *)
Lemma getEdge_Some (es : list edge) (l : ascii) (n : N) :
  getEdge es l = Some n ->
  nth_error es (search_idx es l) = Some (mkEdge l n).
Proof.
  unfold getEdge. destruct (nth_error es (search_idx es l)) as [[l' n']|]; try discriminate.
  simpl. destruct (Ascii.eqb_spec l' l); try discriminate.
  intros H; inversion H; subst; reflexivity.
Qed.

Lemma getEdge_In (es : list edge) (l : ascii) (n : N) :
  getEdge es l = Some n -> In (mkEdge l n) es.
Proof.
  intros H. apply getEdge_Some in H. eapply nth_error_In; eauto.
Qed.

(** *** Bytes *)

Lemma byte_lt_irrefl (a : ascii) : byte_lt a a = false.
Proof. unfold byte_lt. apply Nat.ltb_irrefl. Qed.

Lemma byte_lt_trans (a b c : ascii) :
  byte_lt a b = true -> byte_lt b c = true -> byte_lt a c = true.
Proof. unfold byte_lt. rewrite !Nat.ltb_lt. lia. Qed.

Lemma byte_lt_asym (a b : ascii) : byte_lt a b = true -> byte_lt b a = false.
Proof. unfold byte_lt. rewrite Nat.ltb_lt, Nat.ltb_ge. lia. Qed.

Lemma byte_lt_total (a b : ascii) :
  byte_lt a b = false -> byte_lt b a = false -> a = b.
Proof.
  unfold byte_lt. rewrite !Nat.ltb_ge. intros H1 H2.
  rewrite <- (ascii_nat_embedding a), <- (ascii_nat_embedding b).
  f_equal. lia.
Qed.

Lemma byte_lt_neq (a b : ascii) : byte_lt a b = true -> a <> b.
Proof. intros H ->. rewrite byte_lt_irrefl in H. discriminate. Qed.

(** *** Binary search *)

(** The loop of [sort.Search] ends within [j - i] iterations: more fuel
    does not change its result. *)
Lemma search_loop_fuel (f : nat -> bool) :
  forall fuel fuel' i j,
    j - i <= fuel -> j - i <= fuel' ->
    search_loop fuel f i j = search_loop fuel' f i j.
Proof.
  induction fuel as [|fuel IH]; intros [|fuel'] i j H H'; cbn [search_loop];
    try reflexivity.
  - destruct (Nat.ltb_spec i j); [lia|reflexivity].
  - destruct (Nat.ltb_spec i j); [lia|reflexivity].
  - destruct (Nat.ltb_spec i j) as [Hlt|Hge]; [|reflexivity].
    cbv zeta.
    assert (Hh : i <= (i + j) / 2 < j).
    { split.
      - apply Nat.div_le_lower_bound; lia.
      - apply Nat.Div0.div_lt_upper_bound; lia. }
    destruct (negb (f ((i + j) / 2))); apply IH; lia.
Qed.

(** [sort.Search] finds the boundary [k] of a predicate that is false
    below [k] and true from [k] on. *)
Lemma search_loop_spec (f : nat -> bool) (n k : nat) :
  k <= n ->
  (forall i, i < k -> f i = false) ->
  (forall i, k <= i < n -> f i = true) ->
  forall fuel i j, i <= k <= j -> j <= n -> j - i <= fuel ->
                   search_loop fuel f i j = k.
Proof.
  intros Hk Hlo Hhi.
  induction fuel as [|fuel IH]; intros i j Hij Hj Hf; cbn [search_loop].
  - lia.
  - destruct (Nat.ltb_spec i j) as [Hlt|Hge]; [|lia].
    cbv zeta.
    assert (Hh : i <= (i + j) / 2 < j).
    { split.
      - apply Nat.div_le_lower_bound; lia.
      - apply Nat.Div0.div_lt_upper_bound; lia. }
    set (h := (i + j) / 2) in *.
    destruct (f h) eqn:Fh; cbn [negb].
    + apply IH; try lia.
      destruct (Nat.le_gt_cases k h) as [|Hc]; [lia|].
      rewrite (Hlo _ Hc) in Fh. discriminate.
    + apply IH; try lia.
      destruct (Nat.le_gt_cases k h) as [Hc|]; [|lia].
      rewrite Hhi in Fh by lia. discriminate.
Qed.

Lemma search_idx_split (l1 l2 : list edge) (c : ascii) :
  Forall (fun e => byte_lt (label e) c = true) l1 ->
  Forall (fun e => byte_lt (label e) c = false) l2 ->
  search_idx (l1 ++ l2) c = length l1.
Proof.
  intros H1 H2. unfold search_idx, sort_Search.
  apply search_loop_spec with (n := length (l1 ++ l2));
    try (rewrite length_app; lia).
  - intros i Hi. rewrite nth_error_app1 by assumption.
    destruct (nth_error l1 i) as [e|] eqn:E.
    + apply nth_error_In in E. rewrite Forall_forall in H1.
      unfold byte_ge. rewrite (H1 _ E). reflexivity.
    + apply nth_error_None in E. lia.
  - intros i Hi. rewrite nth_error_app2 by lia.
    destruct (nth_error l2 (i - length l1)) as [e|] eqn:E; auto.
    apply nth_error_In in E. rewrite Forall_forall in H2.
    unfold byte_ge. rewrite (H2 _ E). reflexivity.
Qed.

(** *** Sorted tables *)

Lemma StronglySorted_app_iff (A : Type) (R : A -> A -> Prop) (l1 l2 : list A) :
  StronglySorted R (l1 ++ l2) <->
  StronglySorted R l1 /\ StronglySorted R l2 /\
  (forall a b, In a l1 -> In b l2 -> R a b).
Proof.
  induction l1 as [|x l1 IH]; simpl.
  - split.
    + intros H. repeat split; auto. constructor. intros a b [].
    + intros [_ [H _]]; exact H.
  - split.
    + intros H. inversion H as [|? ? Hs Hx]; subst.
      apply IH in Hs. destruct Hs as [S1 [S2 S3]].
      rewrite Forall_app in Hx. destruct Hx as [Hx1 Hx2].
      repeat split; auto.
      * constructor; auto.
      * intros a b [<-|Ha] Hb; auto.
        rewrite Forall_forall in Hx2; auto.
    + intros [S1 [S2 S3]]. inversion S1 as [|? ? Hs Hx]; subst.
      constructor.
      * apply IH. repeat split; auto.
      * apply Forall_app. split; auto.
        apply Forall_forall. intros b Hb. apply S3; auto.
Qed.

(** A sorted table splits at any label into the labels below it and the
    labels not below it. *)
Lemma labels_sorted_split (es : list edge) (c : ascii) :
  labels_sorted es ->
  exists l1 l2,
    es = l1 ++ l2 /\
    Forall (fun e => byte_lt (label e) c = true) l1 /\
    Forall (fun e => byte_lt (label e) c = false) l2.
Proof.
  induction 1 as [|e es Hs IH He].
  - exists [], []. repeat split; constructor.
  - destruct (byte_lt (label e) c) eqn:L.
    + destruct IH as [l1 [l2 [-> [H1 H2]]]].
      exists (e :: l1), l2. repeat split; auto.
    + exists [], (e :: es). repeat split; auto.
      constructor; auto.
      eapply Forall_impl; [|exact He]. intros x Hx. unfold edge_lt in Hx.
      destruct (byte_lt (label x) c) eqn:Lx; auto.
      rewrite (byte_lt_trans _ _ _ Hx Lx) in L. discriminate.
Qed.

(** On a sorted table [getEdge] finds every edge by its label. *)
Lemma getEdge_sorted (es : list edge) (c : ascii) (n : N) :
  labels_sorted es ->
  (getEdge es c = Some n <-> In (mkEdge c n) es).
Proof.
  intros Hs. split; [apply getEdge_In|].
  intros Hin. destruct (labels_sorted_split c Hs) as [l1 [l2 [-> [H1 H2]]]].
  unfold getEdge. rewrite (search_idx_split _ H1 H2).
  rewrite nth_error_app2, Nat.sub_diag by lia.
  apply in_app_or in Hin. destruct Hin as [Hin|Hin].
  - rewrite Forall_forall in H1. apply H1 in Hin. simpl in Hin.
    rewrite byte_lt_irrefl in Hin. discriminate.
  - destruct l2 as [|x l2]; [contradiction|]. simpl.
    destruct Hin as [->|Hin].
    + simpl. rewrite Ascii.eqb_refl. reflexivity.
    + apply StronglySorted_app_iff in Hs. destruct Hs as [_ [Hs _]].
      inversion Hs as [|? ? _ Hx]; subst.
      rewrite Forall_forall in Hx. apply Hx in Hin. unfold edge_lt in Hin.
      simpl in Hin. inversion H2 as [|? ? Hc _]; subst.
      rewrite Hin in Hc. discriminate.
Qed.

Lemma getEdge_sorted_None (es : list edge) (c : ascii) :
  labels_sorted es ->
  (getEdge es c = None <-> forall e, In e es -> label e <> c).
Proof.
  intros Hs. split.
  - intros H [l n] Hin Hl. simpl in Hl; subst l.
    apply (getEdge_sorted c n Hs) in Hin. congruence.
  - intros H. destruct (getEdge es c) as [n|] eqn:E; auto.
    apply getEdge_In in E. apply H in E. simpl in E. congruence.
Qed.

(** The table around the edge that [getEdge] returns. *)
Lemma getEdge_split (es : list edge) (c : ascii) (n : N) :
  getEdge es c = Some n ->
  exists l1 l2, es = l1 ++ mkEdge c n :: l2 /\ search_idx es c = length l1.
Proof.
  intros H. apply getEdge_Some in H.
  apply nth_error_split in H. destruct H as [l1 [l2 [H1 H2]]].
  exists l1, l2. split; auto.
Qed.

Lemma set_node_app (l1 l2 : list edge) (e : edge) (nd : N) :
  set_node (l1 ++ e :: l2) (length l1) nd = l1 ++ mkEdge (label e) nd :: l2.
Proof. induction l1 as [|x l1 IH]; simpl; [reflexivity|]. rewrite IH. reflexivity. Qed.

Lemma remove_at_app (l1 l2 : list edge) (e : edge) :
  remove_at (l1 ++ e :: l2) (length l1) = l1 ++ l2.
Proof. induction l1 as [|x l1 IH]; simpl; [reflexivity|]. rewrite IH. reflexivity. Qed.

(** The table around the edge that [getEdge] returns, and the effect of
    overwriting or removing that edge. *)
Lemma getEdge_found (es : list edge) (c : ascii) (n : N) :
  getEdge es c = Some n ->
  exists l1 l2,
    es = l1 ++ mkEdge c n :: l2 /\
    (forall nd, set_node es (search_idx es c) nd = l1 ++ mkEdge c nd :: l2) /\
    remove_at es (search_idx es c) = l1 ++ l2.
Proof.
  intros H. destruct (getEdge_split _ _ H) as [l1 [l2 [Hes Hidx]]].
  exists l1, l2. rewrite Hidx. split; [exact Hes|]. subst es. split.
  - intros nd. apply set_node_app.
  - apply remove_at_app.
Qed.




Lemma updateEdge_found (es : list edge) (c : ascii) (n nd : N) :
  getEdge es c = Some n ->
  updateEdge es c nd = Some (set_node es (search_idx es c) nd).
Proof.
  intros H. apply getEdge_Some in H. unfold updateEdge. rewrite H. simpl.
  rewrite Ascii.eqb_refl. reflexivity.
Qed.

Lemma delEdge_found (es : list edge) (c : ascii) (n : N) :
  getEdge es c = Some n ->
  delEdge es c = remove_at es (search_idx es c).
Proof.
  intros H. apply getEdge_Some in H. unfold delEdge. rewrite H. simpl.
  rewrite Ascii.eqb_refl. reflexivity.
Qed.

Lemma labels_sorted_replace (l1 l2 : list edge) (e e' : edge) :
  label e' = label e ->
  labels_sorted (l1 ++ e :: l2) -> labels_sorted (l1 ++ e' :: l2).
Proof.
  unfold labels_sorted. intros Hl. rewrite !StronglySorted_app_iff.
  intros [S1 [S2 S3]]. inversion S2 as [|? ? Hs Hx]; subst.
  repeat split; auto.
  - constructor; auto. eapply Forall_impl; [|exact Hx].
    unfold edge_lt. intros x. rewrite Hl. auto.
  - intros a b Ha [<-|Hb].
    + specialize (S3 a e Ha (or_introl eq_refl)). unfold edge_lt in *.
      rewrite Hl. exact S3.
    + apply S3; simpl; auto.
Qed.

Lemma labels_sorted_remove (l1 l2 : list edge) (e : edge) :
  labels_sorted (l1 ++ e :: l2) -> labels_sorted (l1 ++ l2).
Proof.
  unfold labels_sorted. rewrite !StronglySorted_app_iff.
  intros [S1 [S2 S3]]. inversion S2; subst.
  repeat split; auto. intros a b Ha Hb. apply S3; simpl; auto.
Qed.

(** The labels on the two sides of an edge of a sorted table differ from
    its own. *)
Lemma labels_sorted_others (l1 l2 : list edge) (e x : edge) :
  labels_sorted (l1 ++ e :: l2) -> In x (l1 ++ l2) -> label x <> label e.
Proof.
  unfold labels_sorted. rewrite StronglySorted_app_iff.
  intros [S1 [S2 S3]] Hin. inversion S2 as [|? ? _ Hx]; subst.
  apply in_app_or in Hin. destruct Hin as [Hin|Hin].
  - apply byte_lt_neq. apply (S3 x e); simpl; auto.
  - rewrite Forall_forall in Hx. apply Hx in Hin.
    intros Heq. apply byte_lt_neq in Hin. congruence.
Qed.

(** Two sorted tables that hold the same edges under a label answer
    [getEdge] alike. *)
Lemma getEdge_ext (es es' : list edge) (c : ascii) :
  labels_sorted es -> labels_sorted es' ->
  (forall n, In (mkEdge c n) es <-> In (mkEdge c n) es') ->
  getEdge es c = getEdge es' c.
Proof.
  intros Hs Hs' H.
  destruct (getEdge es c) as [n|] eqn:E.
  - symmetry. apply (getEdge_sorted c n Hs'). apply H.
    apply (getEdge_sorted c n Hs). exact E.
  - destruct (getEdge es' c) as [n'|] eqn:E'; auto.
    apply (getEdge_sorted c n' Hs') in E'. apply H in E'.
    apply (getEdge_sorted c n' Hs) in E'. congruence.
Qed.

Lemma getEdge_replace_same (l1 l2 : list edge) (c : ascii) (n0 nd : N) :
  labels_sorted (l1 ++ mkEdge c n0 :: l2) ->
  getEdge (l1 ++ mkEdge c nd :: l2) c = Some nd.
Proof.
  intros Hs. apply getEdge_sorted.
  - eapply labels_sorted_replace; [|exact Hs]. reflexivity.
  - apply in_app_iff. right; left; reflexivity.
Qed.

Lemma getEdge_replace_other (l1 l2 : list edge) (c c' : ascii) (n0 nd : N) :
  labels_sorted (l1 ++ mkEdge c n0 :: l2) -> c' <> c ->
  getEdge (l1 ++ mkEdge c nd :: l2) c' = getEdge (l1 ++ mkEdge c n0 :: l2) c'.
Proof.
  intros Hs Hc. apply getEdge_ext; auto.
  - eapply labels_sorted_replace; [|exact Hs]. reflexivity.
  - intros n. rewrite !in_app_iff. simpl.
    split; (intros [H|[H|H]]; auto; inversion H; congruence).
Qed.

Lemma getEdge_remove_same (l1 l2 : list edge) (c : ascii) (n0 : N) :
  labels_sorted (l1 ++ mkEdge c n0 :: l2) ->
  getEdge (l1 ++ l2) c = None.
Proof.
  intros Hs. apply getEdge_sorted_None.
  - eapply labels_sorted_remove; exact Hs.
  - intros e He. apply (labels_sorted_others _ _ _ _ Hs He).
Qed.

Lemma getEdge_remove_other (l1 l2 : list edge) (c c' : ascii) (n0 : N) :
  labels_sorted (l1 ++ mkEdge c n0 :: l2) -> c' <> c ->
  getEdge (l1 ++ l2) c' = getEdge (l1 ++ mkEdge c n0 :: l2) c'.
Proof.
  intros Hs Hc. apply getEdge_ext; auto.
  - eapply labels_sorted_remove; exact Hs.
  - intros n. rewrite !in_app_iff. simpl.
    split; [intros [H|H]; auto|intros [H|[H|H]]; auto].
    inversion H; congruence.
Qed.

(** *** [addEdge] under a fresh label *)

Lemma insert_edge_In (e x : edge) (es : list edge) :
  In x (insert_edge e es) <-> x = e \/ In x es.
Proof.
  induction es as [|y es IH]; simpl.
  - intuition auto.
  - destruct (byte_lt (label e) (label y)); simpl; rewrite ?IH; intuition auto.
Qed.

Lemma insert_edge_sorted (e : edge) (es : list edge) :
  labels_sorted es ->
  (forall x, In x es -> label x <> label e) ->
  labels_sorted (insert_edge e es).
Proof.
  unfold labels_sorted. induction 1 as [|y es Hs IH Hy]; intros Hfresh; simpl.
  - repeat constructor.
  - destruct (byte_lt (label e) (label y)) eqn:L.
    + constructor; [constructor; auto|].
      constructor; [exact L|].
      eapply Forall_impl; [|exact Hy]. unfold edge_lt. intros x Hx.
      eapply byte_lt_trans; eauto.
    + constructor.
      * apply IH. intros x Hx. apply Hfresh; simpl; auto.
      * apply Forall_forall. intros x Hx. apply insert_edge_In in Hx.
        destruct Hx as [->|Hx].
        -- unfold edge_lt. destruct (byte_lt (label y) (label e)) eqn:L'; auto.
           exfalso. apply (Hfresh y); simpl; auto.
           apply byte_lt_total; assumption.
        -- rewrite Forall_forall in Hy. auto.
Qed.

Lemma sort_edges_snoc (es : list edge) (e : edge) :
  sort_edges (es ++ [e]) = insert_edge e (sort_edges es).
Proof. unfold sort_edges. rewrite fold_left_app. reflexivity. Qed.

Lemma addEdge_fold (es : list edge) (e : edge) :
  addEdge es e = insert_edge e (sort_edges es).
Proof. apply sort_edges_snoc. Qed.

Lemma sort_edges_In (es : list edge) (x : edge) :
  In x (sort_edges es) <-> In x es.
Proof.
  induction es as [|y es IH] using rev_ind.
  - reflexivity.
  - rewrite sort_edges_snoc, insert_edge_In, in_app_iff, IH. simpl.
    intuition auto.
Qed.

Lemma insert_edge_last (e : edge) (es : list edge) :
  Forall (fun y => edge_lt y e) es -> insert_edge e es = es ++ [e].
Proof.
  induction 1 as [|y es Hy _ IH]; simpl; [reflexivity|].
  rewrite (byte_lt_asym _ _ Hy), IH. reflexivity.
Qed.

(** A sorted table is left as it is. *)
Lemma sort_edges_sorted (es : list edge) :
  labels_sorted es -> sort_edges es = es.
Proof.
  induction es as [|y es IH] using rev_ind; intros Hs; [reflexivity|].
  apply StronglySorted_app_iff in Hs. destruct Hs as [Hs [_ Hall]].
  rewrite sort_edges_snoc, (IH Hs). apply insert_edge_last.
  apply Forall_forall. intros x Hx. apply Hall; [exact Hx|left; reflexivity].
Qed.

Lemma addEdge_In (es : list edge) (e x : edge) :
  In x (addEdge es e) <-> x = e \/ In x es.
Proof. rewrite addEdge_fold, insert_edge_In, sort_edges_In. reflexivity. Qed.

Lemma addEdge_sorted (es : list edge) (e : edge) :
  labels_sorted es ->
  (forall x, In x es -> label x <> label e) ->
  labels_sorted (addEdge es e).
Proof.
  intros Hs Hfresh. rewrite addEdge_fold, (sort_edges_sorted Hs).
  apply insert_edge_sorted; assumption.
Qed.

Lemma addEdge_sum (f : edge -> nat) (es : list edge) (e : edge) :
  list_sum (map f (addEdge es e)) = list_sum (map f es) + f e.
Proof.
  assert (H : forall x l, list_sum (map f (insert_edge x l))
                          = f x + list_sum (map f l)).
  { intros x l. induction l as [|y l IH]; simpl; [reflexivity|].
    destruct (byte_lt (label x) (label y)); simpl; [reflexivity|].
    rewrite IH. lia. }
  assert (Hsort : forall l, list_sum (map f (sort_edges l))
                            = list_sum (map f l)).
  { intros l. induction l as [|y l IH] using rev_ind; [reflexivity|].
    rewrite sort_edges_snoc, H, IH, map_app, list_sum_app. simpl. lia. }
  rewrite addEdge_fold, H, Hsort. lia.
Qed.

Lemma getEdge_addEdge_same (es : list edge) (c : ascii) (nd : N) :
  labels_sorted es -> getEdge es c = None ->
  getEdge (addEdge es (mkEdge c nd)) c = Some nd.
Proof.
  intros Hs E. apply getEdge_sorted.
  - apply addEdge_sorted; auto. apply (getEdge_sorted_None c Hs). exact E.
  - apply addEdge_In. left; reflexivity.
Qed.

Lemma getEdge_addEdge_other (es : list edge) (c c' : ascii) (nd : N) :
  labels_sorted es -> getEdge es c = None -> c' <> c ->
  getEdge (addEdge es (mkEdge c nd)) c' = getEdge es c'.
Proof.
  intros Hs E Hc. apply getEdge_ext; auto.
  - apply addEdge_sorted; auto. apply (getEdge_sorted_None c Hs). exact E.
  - intros n. rewrite addEdge_In. split; [intros [H|H]; auto|auto].
    inversion H; congruence.
Qed.

Lemma addEdge_length (es : list edge) (e : edge) :
  length (addEdge es e) = S (length es).
Proof.
  assert (H : forall (x : edge) l, length (insert_edge x l) = S (length l)).
  { intros x l. induction l as [|y l IH]; simpl; [reflexivity|].
    destruct (byte_lt (label x) (label y)); simpl; [reflexivity|].
    rewrite IH. reflexivity. }
  assert (Hsort : forall l : list edge, length (sort_edges l) = length l).
  { intros l. induction l as [|y l IH] using rev_ind; [reflexivity|].
    rewrite sort_edges_snoc, H, IH, length_app. simpl. lia. }
  rewrite addEdge_fold, H, Hsort. reflexivity.
Qed.

Lemma addEdge_forallb (P : edge -> bool) (es : list edge) (e : edge) :
  forallb P (addEdge es e) = forallb P es && P e.
Proof.
  destruct (forallb P es && P e) eqn:H.
  - apply andb_true_iff in H. destruct H as [H1 H2].
    rewrite forallb_forall in *. intros x Hx. apply addEdge_In in Hx.
    destruct Hx as [->|Hx]; auto.
  - destruct (forallb P (addEdge es e)) eqn:H'; auto.
    rewrite forallb_forall in H'.
    assert (forallb P es && P e = true); [|congruence].
    apply andb_true_iff. split.
    + apply forallb_forall. intros x Hx. apply H'. apply addEdge_In. auto.
    + apply H'. apply addEdge_In. auto.
Qed.

Lemma getEdge_nil (c : ascii) : getEdge (@nil edge) c = None.
Proof. reflexivity. Qed.

End EdgeTableFacts.

(** ** Induction on nodes *)

Section NodeInduction.
Context {V : Type}.
Variable P : node V -> Prop.
Hypothesis step : forall lf p es,
  Forall (fun e => P (e_node e)) es -> P (mkNode lf p es).

Fixpoint node_ind' (n : node V) : P n :=
  match n with
  | mkNode lf p es =>
      step lf p
        ((fix all (es : list (edge_of (node V)))
            : Forall (fun e => P (e_node e)) es :=
            match es with
            | [] => Forall_nil _
            | e :: es' => Forall_cons e (node_ind' (e_node e)) (all es')
            end) es)
  end.
End NodeInduction.

Section Facts.
Context {V : Type}.
Local Abbreviation node := (node V).
Local Abbreviation Tree := (Tree V).
Local Abbreviation edge := (edge_of node).

(** The induction hypothesis of [node_ind'] at the child [getEdge]
    returns. *)
Lemma Forall_getEdge (Q : edge -> Prop) (es : list edge) (l : ascii)
  (n : node) :
  Forall Q es -> getEdge es l = Some n -> Q (mkEdge l n).
Proof.
  intros HF H. apply getEdge_In in H.
  rewrite Forall_forall in HF. apply (HF _ H).
Qed.
Arguments Forall_getEdge [Q es l n] _ _.

(** Specialises the induction hypothesis on the children to the child
    found by [getEdge]. *)
Ltac child_IH IH E IHn :=
  pose proof (Forall_getEdge IH E) as IHn; cbn beta iota delta [e_node label] in IHn.

(** *** One iteration of each loop *)

Lemma get_nil (n : node) :
  get n [] = match leaf n with
             | Some lf => (Some (Val lf), true)
             | None => (None, false)
             end.
Proof. destruct n; reflexivity. Qed.

Lemma get_cons (n : node) (c : ascii) (r : gostring) :
  get n (c :: r) =
  match getEdge (edges n) c with
  | Some n' =>
      if HasPrefix (c :: r) (prefix n')
      then get n' (skipn (length (prefix n')) (c :: r))
      else (None, false)
  | None => (None, false)
  end.
Proof. destruct n; simpl. apply with_edge_getEdge. Qed.

Lemma delete_nil (b : bool) (n : node) :
  delete b n [] =
  match leaf n with
  | None => None
  | Some lf =>
      Some (if negb b && (length (edges n) =? 1)
            then mergeChild (set_leaf n None) else set_leaf n None,
            length (edges n) =? 0, true, Val lf)
  end.
Proof. destruct n; reflexivity. Qed.

Lemma delete_cons (b : bool) (n : node) (c : ascii) (r : gostring) :
  delete b n (c :: r) =
  match getEdge (edges n) c with
  | None => None
  | Some n' =>
      if HasPrefix (c :: r) (prefix n') then
        match delete false n' (skipn (length (prefix n')) (c :: r)) with
        | None => None
        | Some (n'', gone, target, v) =>
            if target then
              let es1 :=
                if gone then delEdge (edges n) c
                else set_node (edges n) (search_idx (edges n) c) n'' in
              let p1 := set_edges n es1 in
              let p2 :=
                if negb b && (length es1 =? 1) && negb (isLeaf p1)
                then mergeChild p1 else p1 in
              Some (p2, false, false, v)
            else
              Some (set_edges n
                      (set_node (edges n) (search_idx (edges n) c) n''),
                    false, false, v)
        end
      else None
  end.
Proof. destruct n; simpl. apply with_edge_getEdge. Qed.

(** [Get] answers either a value with [true] or [nil] with [false]. *)
Lemma get_shape (n : node) :
  forall s, (exists v, get n s = (Some v, true)) \/ get n s = (None, false).
Proof.
  induction n as [lf p es IH] using node_ind'; intros [|c r].
  - rewrite get_nil; simpl. destruct lf; eauto.
  - rewrite get_cons; cbn [edges].
    destruct (getEdge es c) as [n'|] eqn:E; auto.
    destruct (HasPrefix (c :: r) (prefix n')); auto.
    child_IH IH E IHn. apply IHn.
Qed.

(** *** Insert: result, counter and number of stored entries *)

Lemma insert_nil (n : node) (s : gostring) (v : V) (sz : Z) :
  insert n s v [] sz =
  match leaf n with
  | Some lf =>
      Some (set_leaf n (Some (mkLeaf (Key lf) v)), sz, (Some (Val lf), true))
  | None =>
      Some (set_leaf n (Some (mkLeaf s v)), int_wrap (sz + 1), (None, false))
  end.
Proof. destruct n; reflexivity. Qed.

Lemma insert_cons (n : node) (s : gostring) (v : V) (c : ascii)
  (r : gostring) (sz : Z) :
  insert n s v (c :: r) sz =
  match getEdge (edges n) c with
  | None =>
      Some (set_edges n
              (addEdge (edges n)
                 (mkEdge c (mkNode (Some (mkLeaf s v)) (c :: r) []))),
            int_wrap (sz + 1), (None, false))
  | Some n' =>
      if HasPrefix (c :: r) (prefix n') then
        match insert n' s v (skipn (length (prefix n')) (c :: r)) sz with
        | Some (n'', sz', res) =>
            Some (set_edges n
                    (set_node (edges n) (search_idx (edges n) c) n''),
                  sz', res)
        | None => None
        end
      else
        Some (set_edges n
                (set_node (edges n) (search_idx (edges n) c)
                   (split_node n' s v (c :: r)
                      (longestPrefix (c :: r) (prefix n')))),
              int_wrap (sz + 1), (None, false))
  end.
Proof.
  destruct n as [lf p es]. cbn [insert edges]. rewrite with_edge_getEdge.
  destruct (getEdge es c) as [n'|] eqn:E; [|reflexivity].
  cbv zeta. rewrite longestPrefix_full.
  destruct (HasPrefix (c :: r) (prefix n')) eqn:H.
  - rewrite <- longestPrefix_full in H. apply Nat.eqb_eq in H. rewrite H.
    reflexivity.
  - erewrite updateEdge_found by eassumption. reflexivity.
Qed.

Lemma count_stored_eq (lf : option (LeafNode V)) (p : gostring)
  (es : list edge) :
  count_stored (mkNode lf p es) =
  (match lf with Some _ => 1 | None => 0 end)
  + list_sum (map (fun e => count_stored (e_node e)) es).
Proof. cbn [count_stored isLeaf leaf edges]. destruct lf; reflexivity. Qed.

Lemma count_stored_set_prefix (n : node) (p : gostring) :
  count_stored (set_prefix n p) = count_stored n.
Proof. destruct n as [lf q es]. unfold set_prefix. rewrite !count_stored_eq. reflexivity. Qed.

Lemma count_sum_replace (l1 l2 : list edge) (e e' : edge) :
  list_sum (map (fun e => count_stored (e_node e)) (l1 ++ e' :: l2)) +
  count_stored (e_node e)
  = list_sum (map (fun e => count_stored (e_node e)) (l1 ++ e :: l2)) +
    count_stored (e_node e').
Proof. rewrite !map_app, !list_sum_app. simpl. lia. Qed.

Lemma list_sum_middle (A : Type) (f : A -> nat) (l1 l2 : list A) (x : A) :
  list_sum (map f (l1 ++ x :: l2))
  = list_sum (map f (l1 ++ l2)) + f x.
Proof. rewrite !map_app, !list_sum_app. simpl. lia. Qed.

Lemma count_stored_split_node (n' : node) (s : gostring) (v : V)
  (search : gostring) (cp : nat) :
  count_stored (split_node n' s v search cp) = count_stored n' + 1.
Proof.
  unfold split_node. destruct (skipn cp search) as [|c' r'].
  - unfold set_leaf; cbn [leaf prefix edges]. rewrite count_stored_eq.
    rewrite addEdge_sum. cbn [map list_sum fold_right e_node].
    rewrite count_stored_set_prefix. lia.
  - unfold set_edges; cbn [leaf prefix edges]. rewrite count_stored_eq.
    rewrite !addEdge_sum. cbn [e_node map list_sum fold_right].
    rewrite count_stored_set_prefix, count_stored_eq.
    cbn [map list_sum fold_right]. lia.
Qed.

(** [Insert] never panics; it returns what [Get] returned before it,
    increments the counter exactly when the key was absent, and the number
    of stored entries moves with it. *)
Lemma insert_result (n : node) :
  forall s v search sz,
  exists n',
    insert n s v search sz =
      Some (n', if snd (get n search) then sz else int_wrap (sz + 1),
            get n search) /\
    prefix n' = prefix n /\
    count_stored n' =
      count_stored n + (if snd (get n search) then 0 else 1).
Proof.
  induction n as [lf p es IH] using node_ind'; intros s v [|c r] sz.
  - rewrite insert_nil, get_nil; cbn [leaf].
    destruct lf as [lf|]; cbn [snd]; eexists; (split; [reflexivity|]);
      unfold set_leaf; cbn [prefix edges leaf]; rewrite !count_stored_eq;
      split; auto; lia.
  - rewrite insert_cons, get_cons; cbn [edges].
    destruct (getEdge es c) as [n'|] eqn:E.
    + child_IH IH E IHn.
      destruct (getEdge_split _ _ E) as [l1 [l2 [Hes Hidx]]].
      destruct (HasPrefix (c :: r) (prefix n')) eqn:H.
      * destruct (IHn s v (skipn (length (prefix n')) (c :: r)) sz)
          as [n'' [-> [Hp Hc]]].
        eexists; split; [reflexivity|]. split; [reflexivity|].
        unfold set_edges; cbn [leaf prefix]. rewrite !count_stored_eq.
        rewrite Hidx. rewrite Hes at 1. rewrite set_node_app. cbn [label].
        pose proof (count_sum_replace l1 l2 (mkEdge c n') (mkEdge c n'')) as Hs.
        cbn [e_node] in Hs. rewrite <- Hes in Hs. lia.
      * cbn [snd]. eexists; split; [reflexivity|]. split; [reflexivity|].
        unfold set_edges; cbn [leaf prefix]. rewrite !count_stored_eq.
        rewrite Hidx. rewrite Hes at 1. rewrite set_node_app. cbn [label].
        pose proof (count_sum_replace l1 l2 (mkEdge c n')
                      (mkEdge c (split_node n' s v (c :: r)
                         (longestPrefix (c :: r) (prefix n'))))) as Hs.
        cbn [e_node] in Hs. rewrite <- Hes in Hs.
        rewrite count_stored_split_node in Hs. lia.
    + cbn [snd]. eexists; split; [reflexivity|]. split; [reflexivity|].
      unfold set_edges; cbn [leaf prefix]. rewrite !count_stored_eq.
      rewrite addEdge_sum. cbn [e_node]. rewrite count_stored_eq. simpl. lia.
Qed.

(** *** Insert preserves the invariants *)

Lemma wf_at_inv (path : gostring) (n : node) :
  wf_at path n ->
  labels_sorted (edges n) /\
  (forall l, leaf n = Some l -> Key l = path) /\
  (forall e, In e (edges n) ->
     exists rest, prefix (e_node e) = label e :: rest) /\
  (forall e, In e (edges n) -> wf_at (path ++ prefix (e_node e)) (e_node e)).
Proof. intros H. inversion H; subst. cbn [edges leaf]. auto. Qed.

Lemma wf_at_set_prefix (path : gostring) (n : node) (p : gostring) :
  wf_at path n -> wf_at path (set_prefix n p).
Proof. intros H. inversion H; subst. constructor; auto. Qed.

Lemma In_middle (A : Type) (l1 l2 : list A) (x y : A) :
  In y (l1 ++ x :: l2) <-> y = x \/ In y (l1 ++ l2).
Proof. rewrite !in_app_iff. simpl. intuition auto. Qed.

(** Replacing the child of an edge of a well-formed node by a well-formed
    node under the same prefix head. *)
Lemma wf_at_replace (path : gostring) (lf : option (LeafNode V))
  (p : gostring) (l1 l2 : list edge) (c : ascii) (n' n'' : node) :
  wf_at path (mkNode lf p (l1 ++ mkEdge c n' :: l2)) ->
  (exists rest, prefix n'' = c :: rest) ->
  wf_at (path ++ prefix n'') n'' ->
  wf_at path (mkNode lf p (l1 ++ mkEdge c n'' :: l2)).
Proof.
  intros H Hp Hw. apply wf_at_inv in H. cbn [edges leaf] in H.
  destruct H as [Hs [Hk [Hl Hc]]].
  constructor; auto.
  - eapply labels_sorted_replace; [|exact Hs]. reflexivity.
  - intros e He. apply In_middle in He. destruct He as [->|He]; auto.
    apply Hl. apply In_middle; auto.
  - intros e He. apply In_middle in He. destruct He as [->|He]; auto.
    apply Hc. apply In_middle; auto.
Qed.

Lemma wf_at_split_node (path : gostring) (n' : node) (v : V) (c : ascii)
  (r rest : gostring) :
  prefix n' = c :: rest ->
  wf_at (path ++ prefix n') n' ->
  HasPrefix (c :: r) (prefix n') = false ->
  let nd := split_node n' (path ++ c :: r) v (c :: r)
              (longestPrefix (c :: r) (prefix n')) in
  (exists rest', prefix nd = c :: rest') /\ wf_at (path ++ prefix nd) nd.
Proof.
  intros Hp Hw Hhp. set (search := c :: r) in *.
  set (cp := longestPrefix search (prefix n')).
  assert (Hcp : cp < length (prefix n')).
  { destruct (longestPrefix_le search (prefix n')) as [_ H].
    rewrite <- longestPrefix_full in Hhp. apply Nat.eqb_neq in Hhp.
    unfold cp. lia. }
  assert (Hcp1 : 1 <= cp).
  { unfold cp, search. rewrite Hp. simpl. rewrite Ascii.eqb_refl. lia. }
  assert (Hq : firstn cp search = firstn cp (prefix n'))
    by apply longestPrefix_firstn.
  assert (Hfs : exists rest', firstn cp search = c :: rest').
  { unfold search. destruct cp; [lia|]. simpl. eauto. }
  assert (Hy : skipn cp (prefix n')
               = nth cp (prefix n') zero :: skipn (S cp) (prefix n'))
    by (apply skipn_nth; exact Hcp).
  assert (Hw1 : wf_at ((path ++ firstn cp search) ++ skipn cp (prefix n'))
                  (set_prefix n' (skipn cp (prefix n')))).
  { apply wf_at_set_prefix. rewrite <- app_assoc, Hq, firstn_skipn. exact Hw. }
  set (e1 := mkEdge (nth cp (prefix n') zero)
               (set_prefix n' (skipn cp (prefix n')))).
  assert (He1 : addEdge [] e1 = [e1]) by reflexivity.
  cbv zeta. unfold split_node. fold search cp e1. rewrite He1.
  destruct (skipn cp search) as [|c' r'] eqn:Hsk.
  - unfold set_leaf; cbn [leaf prefix edges]. split; [exact Hfs|].
    constructor.
    + repeat constructor.
    + intros l Hl. inversion Hl; subst. cbn [Key]. f_equal.
      rewrite <- (firstn_skipn cp search) at 1. rewrite Hsk, app_nil_r.
      reflexivity.
    + intros e [<-|[]]. cbn [e_node label prefix set_prefix]. eauto.
    + intros e [<-|[]]. exact Hw1.
  - unfold set_edges; cbn [leaf prefix edges].
    split; [exact Hfs|].
    assert (Hne : nth cp (prefix n') zero <> c').
    { pose proof (longestPrefix_differ _ _ Hsk Hy) as Hd. congruence. }
    constructor.
    + apply addEdge_sorted; [repeat constructor|].
      intros x [<-|[]]. exact Hne.
    + discriminate.
    + intros e He. apply addEdge_In in He.
      destruct He as [->|[<-|[]]]; cbn [e_node label prefix set_prefix]; eauto.
    + intros e He. apply addEdge_In in He.
      destruct He as [->|[<-|[]]]; cbn [e_node prefix]; [|exact Hw1].
      constructor.
      * constructor.
      * intros l Hl. inversion Hl; subst. cbn [Key].
        rewrite <- app_assoc. f_equal.
        rewrite <- Hsk. symmetry. apply firstn_skipn.
      * intros e [].
      * intros e [].
Qed.

(** Inserting the key [path ++ search] below a well-formed node reached
    by consuming [path] leaves it well formed. *)
Lemma insert_wf (n : node) :
  forall path v search sz n' sz' res,
    wf_at path n ->
    insert n (path ++ search) v search sz = Some (n', sz', res) ->
    wf_at path n'.
Proof.
  induction n as [lf p es IH] using node_ind';
    intros path v [|c r] sz n' sz' res Hw.
  - rewrite insert_nil; cbn [leaf]. apply wf_at_inv in Hw. cbn [edges leaf] in Hw.
    destruct Hw as [Hs [Hk [Hl Hc]]].
    destruct lf as [lf|]; intros H; inversion H; subst;
      unfold set_leaf; cbn [prefix edges]; constructor; auto;
      intros l Hl'; inversion Hl'; subst; cbn [Key].
    + apply Hk; reflexivity.
    + apply app_nil_r.
  - rewrite insert_cons; cbn [edges].
    pose proof (wf_at_inv Hw) as [Hs [Hk [Hl Hc]]]. cbn [edges leaf] in *.
    destruct (getEdge es c) as [n0|] eqn:E.
    + child_IH IH E IHn.
      destruct (getEdge_found _ _ E) as [l1 [l2 [Hes [Hset _]]]].
      assert (Hin : In (mkEdge c n0) es) by (eapply getEdge_In; eauto).
      destruct (Hl _ Hin) as [rest Hp0]. cbn [e_node label] in Hp0.
      specialize (Hc _ Hin). cbn [e_node] in Hc.
      destruct (HasPrefix (c :: r) (prefix n0)) eqn:H.
      * destruct (insert_result n0 (path ++ c :: r) v
                    (skipn (length (prefix n0)) (c :: r)) sz)
          as [n'' [Hins [Hp'' _]]].
        rewrite Hins. intros Heq; inversion Heq; subst n' sz' res.
        unfold set_edges; cbn [leaf prefix]. rewrite Hset.
        subst es. eapply wf_at_replace; [exact Hw| |].
        -- rewrite Hp''. eauto.
        -- rewrite Hp''. eapply IHn; [exact Hc|].
           rewrite <- app_assoc, <- (HasPrefix_skipn _ _ H). exact Hins.
      * intros Heq; inversion Heq; subst n' sz' res.
        unfold set_edges; cbn [leaf prefix]. rewrite Hset.
        destruct (@wf_at_split_node path n0 v c r rest Hp0 Hc H) as [Hq Hwq].
        subst es. eapply wf_at_replace; [exact Hw|exact Hq|exact Hwq].
    + intros Heq; inversion Heq; subst n' sz' res.
      unfold set_edges; cbn [leaf prefix].
      pose proof (proj1 (getEdge_sorted_None c Hs) E) as Hfresh.
      constructor; auto.
      * apply addEdge_sorted; auto.
      * intros e He. apply addEdge_In in He. destruct He as [->|He]; auto.
        cbn [e_node label prefix]. eauto.
      * intros e He. apply addEdge_In in He. destruct He as [->|He]; auto.
        cbn [e_node prefix]. constructor.
        -- constructor.
        -- intros l Hl'. inversion Hl'; subst. reflexivity.
        -- intros e [].
        -- intros e [].
Qed.

(** *** Get after Insert *)

Lemma get_set_prefix (n : node) (p s : gostring) :
  get (set_prefix n p) s = get n s.
Proof.
  destruct n as [lf q es]. unfold set_prefix; cbn [leaf edges].
  destruct s; [rewrite !get_nil|rewrite !get_cons]; reflexivity.
Qed.

Lemma get_new_leaf (lf : LeafNode V) (p x : gostring) :
  get (mkNode (Some lf) p []) x =
  if gostring_eq_dec x [] then (Some (Val lf), true) else (None, false).
Proof.
  destruct x as [|d x]; [rewrite get_nil|rewrite get_cons]; cbn [leaf edges].
  - destruct (gostring_eq_dec [] []); [reflexivity|contradiction].
  - rewrite getEdge_nil. destruct (gostring_eq_dec (d :: x) []); [discriminate|reflexivity].
Qed.

(** Lookups below the node that a split creates. *)
Lemma get_split_node (n' : node) (s : gostring) (v : V) (search : gostring) :
  HasPrefix search (prefix n') = false ->
  let cp := longestPrefix search (prefix n') in
  forall x,
    get (split_node n' s v search cp) x =
    if gostring_eq_dec x (skipn cp search) then (Some v, true)
    else if HasPrefix x (skipn cp (prefix n'))
         then get n' (skipn (length (skipn cp (prefix n'))) x)
         else (None, false).
Proof.
  intros Hhp cp.
  assert (Hcp : cp < length (prefix n')).
  { destruct (longestPrefix_le search (prefix n')) as [_ H].
    rewrite <- longestPrefix_full in Hhp. apply Nat.eqb_neq in Hhp.
    unfold cp. lia. }
  pose proof (skipn_nth zero (prefix n') Hcp) as Hy.
  set (a := nth cp (prefix n') zero) in *.
  set (y := skipn cp (prefix n')) in *.
  set (e1 := mkEdge a (set_prefix n' y)).
  assert (Hvia : forall x', get (set_prefix n' y) x' = get n' x')
    by (intros; apply get_set_prefix).
  assert (He1 : forall d x',
             (if HasPrefix (d :: x') (prefix (set_prefix n' y))
              then get (set_prefix n' y)
                     (skipn (length (prefix (set_prefix n' y))) (d :: x'))
              else (None, false)) =
             (if HasPrefix (d :: x') y
              then get n' (skipn (length y) (d :: x')) else (None, false))).
  { intros d x'. cbn [set_prefix prefix]. rewrite Hvia. reflexivity. }
  unfold split_node. fold a y e1. change (addEdge [] e1) with [e1].
  intros x. destruct (skipn cp search) as [|c' r'] eqn:Hsk.
  - unfold set_leaf; cbn [prefix edges leaf].
    destruct x as [|d x']; [rewrite get_nil|rewrite get_cons]; cbn [leaf edges].
    + destruct (gostring_eq_dec [] []); [reflexivity|contradiction].
    + destruct (gostring_eq_dec (d :: x') []); [discriminate|].
      destruct (Ascii.eqb_spec d a) as [->|Hd].
      * replace (getEdge [e1] a) with (Some (set_prefix n' y)).
        -- apply He1.
        -- symmetry. apply getEdge_sorted; [repeat constructor|].
           left; reflexivity.
      * replace (getEdge [e1] d) with (@None node).
        -- rewrite Hy, HasPrefix_cons_neq by assumption. reflexivity.
        -- symmetry. apply getEdge_sorted_None; [repeat constructor|].
           intros z [<-|[]]; unfold e1; cbn [label]; congruence.
  - assert (Hne : a <> c').
    { pose proof (longestPrefix_differ _ _ Hsk Hy) as Hd. congruence. }
    set (e2 := mkEdge c' (mkNode (Some (mkLeaf s v)) (c' :: r') [])).
    unfold set_edges; cbn [prefix edges leaf].
    assert (Hs1 : labels_sorted [e1]) by repeat constructor.
    assert (Hs2 : labels_sorted (addEdge [e1] e2)).
    { apply addEdge_sorted; auto. intros z [<-|[]]. exact Hne. }
    assert (Hin1 : In (mkEdge a (set_prefix n' y)) (addEdge [e1] e2))
      by (apply addEdge_In; right; left; reflexivity).
    assert (Hin2 : In (mkEdge c' (mkNode (Some (mkLeaf s v)) (c' :: r') []))
                     (addEdge [e1] e2))
      by (apply addEdge_In; left; reflexivity).
    destruct x as [|d x']; [rewrite get_nil|rewrite get_cons]; cbn [leaf edges].
    + destruct (gostring_eq_dec [] (c' :: r')); [discriminate|].
      rewrite Hy. reflexivity.
    + destruct (Ascii.eqb_spec d a) as [->|Hd].
      * replace (getEdge (addEdge [e1] e2) a) with (Some (set_prefix n' y)).
        -- destruct (gostring_eq_dec (a :: x') (c' :: r')); [congruence|].
           apply He1.
        -- symmetry. apply getEdge_sorted; auto.
      * destruct (Ascii.eqb_spec d c') as [->|Hd'].
        -- replace (getEdge (addEdge [e1] e2) c')
             with (Some (mkNode (Some (mkLeaf s v)) (c' :: r') [])).
           ++ cbn [prefix]. rewrite get_new_leaf. cbn [Val].
              rewrite (Hy), (HasPrefix_cons_neq x' (skipn (S cp) (prefix n')) Hd).
              destruct (HasPrefix (c' :: x') (c' :: r')) eqn:Hp.
              ** apply HasPrefix_true in Hp. destruct Hp as [z Hz].
                 rewrite Hz, skipn_length_app.
                 destruct (gostring_eq_dec z []) as [->|Hz'].
                 --- rewrite app_nil_r.
                     destruct (gostring_eq_dec (c' :: r') (c' :: r'));
                       [reflexivity|contradiction].
                 --- destruct (gostring_eq_dec ((c' :: r') ++ z) (c' :: r'))
                       as [Heq|]; [|reflexivity].
                     exfalso. apply Hz'.
                     rewrite <- (app_nil_r (c' :: r')) in Heq at 2.
                     apply app_inv_head in Heq. exact Heq.
              ** destruct (gostring_eq_dec (c' :: x') (c' :: r')) as [Heq|];
                   [|reflexivity].
                 rewrite Heq, HasPrefix_refl in Hp. discriminate.
           ++ symmetry. apply getEdge_sorted; auto.
        -- replace (getEdge (addEdge [e1] e2) d) with (@None node).
           ++ destruct (gostring_eq_dec (d :: x') (c' :: r')); [congruence|].
              rewrite Hy, HasPrefix_cons_neq by assumption. reflexivity.
           ++ symmetry. apply getEdge_sorted_None; auto.
              intros z Hz. apply addEdge_In in Hz.
              destruct Hz as [->|[<-|[]]]; unfold e1, e2; cbn [label];
                congruence.
Qed.

(** After [Insert], [Get] finds the new value under the inserted key and
    answers as before on every other key. *)
Lemma insert_get (n : node) :
  forall path s v search sz n' sz' res,
    wf_at path n ->
    insert n s v search sz = Some (n', sz', res) ->
    forall s',
      get n' s' =
      if gostring_eq_dec s' search then (Some v, true) else get n s'.
Proof.
  induction n as [lf p es IH] using node_ind';
    intros path s v [|c r] sz n' sz' res Hw.
  - rewrite insert_nil; cbn [leaf]. intros H s'.
    assert (Hn' : exists l, n' = mkNode (Some (mkLeaf l v)) p es).
    { destruct lf; inversion H; subst; unfold set_leaf; cbn [prefix edges];
        eauto. }
    destruct Hn' as [l ->].
    destruct s' as [|d x]; [rewrite !get_nil|rewrite !get_cons];
      cbn [leaf edges Val].
    + destruct (gostring_eq_dec [] []); [reflexivity|contradiction].
    + destruct (gostring_eq_dec (d :: x) []); [discriminate|reflexivity].
  - rewrite insert_cons; cbn [edges].
    pose proof (wf_at_inv Hw) as [Hs [Hk [Hl Hc]]]. cbn [edges leaf] in *.
    destruct (getEdge es c) as [n0|] eqn:E.
    + child_IH IH E IHn.
      destruct (getEdge_found _ _ E) as [l1 [l2 [Hes [Hset _]]]].
      assert (Hin : In (mkEdge c n0) es) by (eapply getEdge_In; eauto).
      specialize (Hc _ Hin). cbn [e_node] in Hc.
      destruct (HasPrefix (c :: r) (prefix n0)) eqn:H.
      * destruct (insert_result n0 s v
                    (skipn (length (prefix n0)) (c :: r)) sz)
          as [n'' [Hins [Hp'' _]]].
        rewrite Hins. intros Heq; inversion Heq; subst n' sz' res.
        specialize (IHn _ _ _ _ _ _ _ _ Hc Hins).
        unfold set_edges; cbn [leaf prefix]. rewrite Hset.
        intros [|d x]; [rewrite !get_nil|rewrite !get_cons]; cbn [leaf edges].
        -- destruct (gostring_eq_dec [] (c :: r)); [discriminate|reflexivity].
        -- destruct (Ascii.eqb_spec d c) as [->|Hd].
           ++ rewrite E. rewrite Hes in Hs.
              rewrite (@getEdge_replace_same _ l1 l2 c n0 n'' Hs), Hp''.
              destruct (HasPrefix (c :: x) (prefix n0)) eqn:H'.
              ** rewrite IHn.
                 pose proof (HasPrefix_skipn _ _ H) as E1.
                 pose proof (HasPrefix_skipn _ _ H') as E2.
                 destruct (gostring_eq_dec
                             (skipn (length (prefix n0)) (c :: x))
                             (skipn (length (prefix n0)) (c :: r)))
                   as [Heq'|Hne];
                   destruct (gostring_eq_dec (c :: x) (c :: r)) as [Heq2|Hne2];
                   auto; exfalso.
                 --- apply Hne2. rewrite E1, E2, Heq'. reflexivity.
                 --- apply Hne. rewrite Heq2. reflexivity.
              ** destruct (gostring_eq_dec (c :: x) (c :: r)) as [Heq2|];
                   [|reflexivity].
                 rewrite Heq2, H in H'. discriminate.
           ++ rewrite Hes in Hs. rewrite (@getEdge_replace_other _ l1 l2 c d n0 n'' Hs Hd).
              rewrite <- Hes.
              destruct (gostring_eq_dec (d :: x) (c :: r)); [congruence|].
              reflexivity.
      * pose proof (get_split_node n0 s v (c :: r) H) as Hg. cbv zeta in Hg.
        assert (Hq : firstn (longestPrefix (c :: r) (prefix n0)) (c :: r)
                     = firstn (longestPrefix (c :: r) (prefix n0)) (prefix n0))
          by apply longestPrefix_firstn.
        remember (longestPrefix (c :: r) (prefix n0)) as cp eqn:Hcp.
        intros Heq; injection Heq as <- <- <-.
        unfold set_edges; cbn [leaf prefix]. rewrite Hset.
        assert (Hpq : prefix (split_node n0 s v (c :: r) cp)
                      = firstn cp (c :: r)).
        { unfold split_node. destruct (skipn cp (c :: r)); reflexivity. }
        intros [|d x]; [rewrite !get_nil|rewrite !get_cons]; cbn [leaf edges].
        -- destruct (gostring_eq_dec [] (c :: r)); [discriminate|reflexivity].
        -- destruct (Ascii.eqb_spec d c) as [->|Hd].
           ++ rewrite E. rewrite Hes in Hs.
              rewrite (@getEdge_replace_same _ l1 l2 c n0
                         (split_node n0 s v (c :: r) cp) Hs), Hpq.
              set (q := firstn cp (c :: r)) in *.
              assert (Hsearch : c :: r = q ++ skipn cp (c :: r))
                by (symmetry; apply firstn_skipn).
              assert (Hp0 : prefix n0 = q ++ skipn cp (prefix n0))
                by (rewrite Hq; symmetry; apply firstn_skipn).
              destruct (HasPrefix (c :: x) q) eqn:H'.
              ** pose proof (HasPrefix_skipn _ _ H') as E2.
                 rewrite Hg.
                 set (z := skipn (length q) (c :: x)) in *.
                 set (y := skipn cp (prefix n0)) in *.
                 rewrite E2, Hp0.
                 rewrite HasPrefix_app_app, length_app.
                 replace (skipn (length q + length y) (q ++ z))
                   with (skipn (length y) z).
                 2:{ rewrite skipn_app.
                     replace (length q + length y - length q)
                       with (length y) by lia.
                     rewrite (@skipn_all2 _ (length q + length y) q) by lia.
                     reflexivity. }
                 destruct (gostring_eq_dec z (skipn cp (c :: r))) as [Hz|Hz];
                   destruct (gostring_eq_dec (q ++ z) (c :: r)) as [Hz2|Hz2];
                   auto; exfalso.
                 --- apply Hz2. rewrite Hz. symmetry. exact Hsearch.
                 --- apply Hz. rewrite Hsearch in Hz2.
                     apply app_inv_head in Hz2. exact Hz2.
              ** destruct (gostring_eq_dec (c :: x) (c :: r)) as [Heq2|].
                 --- rewrite Heq2, Hsearch, HasPrefix_app in H'. discriminate.
                 --- destruct (HasPrefix (c :: x) (prefix n0)) eqn:H''; auto.
                     rewrite (HasPrefix_trans (c :: x) (prefix n0) q) in H';
                       [discriminate|exact H''|].
                     rewrite Hp0. apply HasPrefix_app.
           ++ rewrite Hes in Hs.
              rewrite (@getEdge_replace_other _ l1 l2 c d n0
                         (split_node n0 s v (c :: r) cp) Hs Hd).
              rewrite <- Hes.
              destruct (gostring_eq_dec (d :: x) (c :: r)); [congruence|].
              reflexivity.
    + intros Heq; inversion Heq; subst n' sz' res.
      unfold set_edges; cbn [leaf prefix].
      intros [|d x]; [rewrite !get_nil|rewrite !get_cons]; cbn [leaf edges].
      * destruct (gostring_eq_dec [] (c :: r)); [discriminate|reflexivity].
      * destruct (Ascii.eqb_spec d c) as [->|Hd].
        -- rewrite E, (@getEdge_addEdge_same _ es c _ Hs E). cbn [prefix].
           rewrite get_new_leaf. cbn [Val].
           destruct (HasPrefix (c :: x) (c :: r)) eqn:H'.
           ++ apply HasPrefix_true in H'. destruct H' as [z Hz].
              rewrite Hz, skipn_length_app.
              destruct (gostring_eq_dec z []) as [->|Hz'].
              ** rewrite app_nil_r.
                 destruct (gostring_eq_dec (c :: r) (c :: r));
                   [reflexivity|contradiction].
              ** destruct (gostring_eq_dec ((c :: r) ++ z) (c :: r))
                   as [Heq2|]; [|reflexivity].
                 exfalso. apply Hz'.
                 rewrite <- (app_nil_r (c :: r)) in Heq2 at 2.
                 apply app_inv_head in Heq2. exact Heq2.
           ++ destruct (gostring_eq_dec (c :: x) (c :: r)) as [Heq2|];
                [|reflexivity].
              rewrite Heq2, HasPrefix_refl in H'. discriminate.
        -- rewrite (@getEdge_addEdge_other _ es c d _ Hs E Hd).
           destruct (gostring_eq_dec (d :: x) (c :: r)); [congruence|].
           reflexivity.
Qed.

(** What one [Insert] does to a well-formed tree. *)
Lemma Insert_spec (t : Tree) (k : gostring) (v : V) :
  wf_tree t ->
  exists t',
    Insert t k v = Some (t', Get t k) /\
    wf_tree t' /\
    size t' = (if snd (Get t k) then size t else int_wrap (size t + 1)) /\
    count_stored (root t') =
      count_stored (root t) + (if snd (Get t k) then 0 else 1) /\
    forall k', Get t' k' =
               if gostring_eq_dec k' k then (Some v, true) else Get t k'.
Proof.
  intros Hw. unfold Insert, Get, wf_tree in *.
  destruct (insert_result (root t) k v k (size t)) as [n' [Hins [_ Hc]]].
  rewrite Hins. eexists; split; [reflexivity|]. cbn [root size].
  split; [|split; [|split]]; auto.
  - eapply insert_wf; [exact Hw|]. cbn [app]. exact Hins.
  - eapply insert_get; eauto.
Qed.

(** *** Sequences of insertions *)

Lemma insert_all_app (l1 l2 : list (gostring * V)) (t : Tree) :
  insert_all (l1 ++ l2) t =
  match insert_all l1 t with
  | Some t' => insert_all l2 t'
  | None => None
  end.
Proof.
  revert t; induction l1 as [|[k v] l1 IH]; intros t; simpl; auto.
  destruct (Insert t k v) as [[t' r]|]; auto.
Qed.

Lemma nodup_snoc_cases (ks : list gostring) (k : gostring) :
  (In k ks ->
   length (nodup gostring_eq_dec (ks ++ [k]))
   = length (nodup gostring_eq_dec ks)) /\
  (~ In k ks ->
   length (nodup gostring_eq_dec (ks ++ [k]))
   = S (length (nodup gostring_eq_dec ks))).
Proof.
  induction ks as [|x ks [IH1 IH2]].
  - split; [intros []|reflexivity].
  - cbn [app nodup].
    destruct (in_dec gostring_eq_dec x (ks ++ [k])) as [Hin|Hin];
      destruct (in_dec gostring_eq_dec x ks) as [Hin'|Hin'].
    + split.
      * intros [->|Hk]; auto.
      * intros Hk. apply IH2. intros H. apply Hk. right; exact H.
    + assert (x = k) as ->.
      { apply in_app_or in Hin. destruct Hin as [|[|[]]]; congruence. }
      split.
      * intros _. cbn [length]. apply IH2. exact Hin'.
      * intros Hk. exfalso. apply Hk. left; reflexivity.
    + exfalso. apply Hin. apply in_or_app. left; exact Hin'.
    + cbn [length]. split.
      * intros [->|Hk].
        -- exfalso. apply Hin. apply in_or_app. right; left; reflexivity.
        -- rewrite IH1 by assumption. reflexivity.
      * intros Hk. rewrite IH2; [reflexivity|].
        intros H. apply Hk. right; exact H.
Qed.

Lemma nodup_snoc_length (ks : list gostring) (k : gostring) :
  length (nodup gostring_eq_dec (ks ++ [k])) =
  length (nodup gostring_eq_dec ks)
  + (if in_dec gostring_eq_dec k ks then 0 else 1).
Proof.
  destruct (nodup_snoc_cases ks k) as [H1 H2].
  destruct (in_dec gostring_eq_dec k ks) as [Hin|Hin].
  - rewrite H1 by assumption. lia.
  - rewrite H2 by assumption. lia.
Qed.

(** After a sequence of insertions into a new tree the stored keys are
    the inserted ones, and the counter is their number. *)
Lemma insert_all_New (l : list (gostring * V)) :
  exists t,
    insert_all l (New V) = Some t /\
    wf_tree t /\
    (forall k, snd (Get t k) = true <-> In k (map fst l)) /\
    size t = int_wrap (Z.of_nat (distinct_keys l)) /\
    count_stored (root t) = distinct_keys l.
Proof.
  induction l as [|[k v] l IH] using rev_ind.
  - exists (New V). split; [reflexivity|]. split.
    + constructor; try constructor; try discriminate; intros e [].
    + split; [|split; reflexivity].
      intros k. unfold Get, New; cbn [root].
      destruct k; [rewrite get_nil|rewrite get_cons]; cbn [leaf edges snd];
        rewrite ?getEdge_nil; cbn [snd map]; (split; [discriminate|intros []]).
  - destruct IH as [t [Hall [Hw [Hkeys [Hsz Hcnt]]]]].
    destruct (Insert_spec k v Hw) as [t' [Hins [Hw' [Hsz' [Hcnt' Hget]]]]].
    exists t'. rewrite insert_all_app, Hall. cbn [insert_all]. rewrite Hins.
    split; [reflexivity|]. split; [exact Hw'|].
    assert (Hd : distinct_keys (l ++ [(k, v)]) =
                 distinct_keys l + (if snd (Get t k) then 0 else 1)).
    { unfold distinct_keys. rewrite map_app. cbn [map fst].
      rewrite nodup_snoc_length.
      destruct (in_dec gostring_eq_dec k (map fst l)) as [Hin|Hin].
      - apply Hkeys in Hin. rewrite Hin. reflexivity.
      - destruct (snd (Get t k)) eqn:G; auto.
        exfalso. apply Hin. apply Hkeys. exact G. }
    split; [|split].
    + intros k'. rewrite Hget, map_app, in_app_iff. cbn [map fst In].
      destruct (gostring_eq_dec k' k) as [->|Hne]; cbn [snd].
      * split; auto.
      * rewrite Hkeys. split; [auto|]. intros [H|[H|[]]]; auto. congruence.
    + rewrite Hsz', Hd, Hsz.
      destruct (snd (Get t k)).
      * rewrite Nat.add_0_r. reflexivity.
      * rewrite int_wrap_add. f_equal. lia.
    + rewrite Hcnt', Hd, Hcnt. reflexivity.
Qed.

(** *** Delete on an absent key *)

(** The descent of [Delete] is the descent of [Get]: where [Get] does not
    find the key, [Delete] leaves its loop through a [break]. *)
Lemma delete_absent (n : node) :
  forall b s, snd (get n s) = false -> delete b n s = None.
Proof.
  induction n as [lf p es IH] using node_ind'; intros b [|c r].
  - rewrite get_nil, delete_nil; simpl. destruct lf; simpl; congruence.
  - rewrite get_cons, delete_cons; cbn [edges].
    destruct (getEdge es c) as [n'|] eqn:E; auto.
    destruct (HasPrefix (c :: r) (prefix n')); auto.
    intros H. child_IH IH E IHn. rewrite (IHn false _ H). reflexivity.
Qed.

(** C8.  For every tree [t] and every key [k] that is not stored in [t]
    (the descent of [Get] does not exhaust [k], or exhausts it on a node
    without a stored entry), [Delete(k)] returns [(nil, false)] and the
    tree it leaves — every node, every edge and the size counter — is the
    tree it was given. *)
Theorem Delete_absent_unchanged (t : Tree) (k : gostring) :
  snd (Get t k) = false ->
  Delete t k = (t, (None, false)).
Proof.
  unfold Get, Delete. intros H.
  rewrite (delete_absent (root t) true k H). reflexivity.
Qed.

(** C10.  The empty string is a valid key, stored at the root: on a tree
    that does not contain [""], [Insert("", v)] returns [(nil, false)],
    stores the entry in the root, increments [Len()] by one (the counter
    being an [int] below the largest one) and a subsequent [Get("")]
    returns [(v, true)]. *)
Theorem Insert_empty_key (t : Tree) (v : V) :
  snd (Get t []) = false ->
  (int_min <= Len t < int_max)%Z ->
  exists t',
    Insert t [] v = Some (t', (None, false)) /\
    leaf (root t') = Some (mkLeaf [] v) /\
    Len t' = (Len t + 1)%Z /\
    Get t' [] = (Some v, true).
Proof.
  destruct t as [[lf p es] sz]. unfold Get, Insert, Len; simpl.
  destruct lf as [lf|]; simpl; [discriminate|].
  intros _ Hsz. eexists; split; [reflexivity|]. simpl.
  repeat split. apply int_wrap_small. lia.
Qed.

(** *** Longest prefix match *)

Lemma lpm_nil (n : node) (last : option node) :
  lpm n [] last = if isLeaf n then Some n else last.
Proof. destruct n; reflexivity. Qed.

Lemma lpm_cons (n : node) (c : ascii) (r : gostring) (last : option node) :
  lpm n (c :: r) last =
  let last' := if isLeaf n then Some n else last in
  match getEdge (edges n) c with
  | Some n' =>
      if HasPrefix (c :: r) (prefix n')
      then lpm n' (skipn (length (prefix n')) (c :: r)) last'
      else last'
  | None => last'
  end.
Proof. destruct n; simpl. apply with_edge_getEdge. Qed.

(** The node remembered by the descent is a node of the tree that carries
    a stored entry, unless it is the one the descent started with. *)
Lemma lpm_result (n : node) :
  forall s last m,
    lpm n s last = Some m ->
    (In_tree m n /\ isLeaf m = true) \/ last = Some m.
Proof.
  induction n as [lf p es IH] using node_ind'; intros s last m.
  assert (Hlast : forall l', (if isLeaf (mkNode lf p es) then Some (mkNode lf p es) else last) = l' ->
            l' = Some m ->
            (In_tree m (mkNode lf p es) /\ isLeaf m = true) \/ last = Some m).
  { intros l' <- H. destruct (isLeaf (mkNode lf p es)) eqn:L; auto.
    inversion H; subst. left; split; [constructor|assumption]. }
  destruct s as [|c r].
  - rewrite lpm_nil. apply Hlast; reflexivity.
  - rewrite lpm_cons; cbn [edges] in *; cbv zeta.
    destruct (getEdge es c) as [n'|] eqn:E; [|apply Hlast; reflexivity].
    destruct (HasPrefix (c :: r) (prefix n')); [|apply Hlast; reflexivity].
    intros H. child_IH IH E IHn.
    destruct (IHn _ _ _ H) as [[Hin Hl]|Hl].
    + left; split; auto. eapply In_tree_child; [eapply getEdge_In; eauto|exact Hin].
    + apply Hlast with (l' := if isLeaf (mkNode lf p es) then Some (mkNode lf p es) else last); auto.
Qed.

Lemma Tree_longestPrefix_found (t : Tree) (s key : gostring) (val : option V)
  (n : node) :
  Tree_longestPrefix t s = (key, val, true, Some n) ->
  In_tree n (root t) /\
  exists lf, leaf n = Some lf /\ key = Key lf /\ val = Some (Val lf).
Proof.
  unfold Tree_longestPrefix.
  destruct (lpm (root t) s None) as [m|] eqn:E; [|discriminate].
  destruct (leaf m) as [lf|] eqn:L; [|discriminate].
  intros H; inversion H; subst.
  apply lpm_result in E. destruct E as [[Hin _]|]; [|discriminate].
  split; auto. exists lf; auto.
Qed.

Lemma binary_node_In_tree (m n : node) :
  In_tree m n -> binary_node n = true -> binary_node m = true.
Proof.
  induction 1 as [|m n e He Hin IH]; auto.
  intros H. apply IH. destruct n as [lf p es]; simpl in *.
  rewrite forallb_forall in H. apply H in He.
  apply andb_true_iff in He. apply He.
Qed.

Lemma binary_node_label (n : node) (e : edge) :
  binary_node n = true -> In e (edges n) ->
  label e = "0"%char \/ label e = "1"%char.
Proof.
  destruct n as [lf p es]; simpl. rewrite forallb_forall. intros H He.
  apply H in He. apply andb_true_iff in He. destruct He as [He _].
  apply orb_true_iff in He.
  destruct He as [He|He]; apply Ascii.eqb_eq in He; auto.
Qed.

(** *** The post-order walk *)

Lemma recursiveWalk_postOrder_eq (S : Type) (n : node) (fn : WalkFnPost S)
  (s : S) :
  recursiveWalk_postOrder n fn s =
  let (all_children, s1) :=
    range_collect (fun m => recursiveWalk_postOrder m fn) (edges n) [] s in
  match leaf n with
  | None => (all_children, s1)
  | Some lf => ([lf], fn lf all_children s1)
  end.
Proof. destruct n; reflexivity. Qed.

Lemma range_collect_spec (S : Type) (fn : WalkFnPost S) (es : list edge) :
  Forall (fun e => forall s,
            recursiveWalk_postOrder (e_node e) fn s =
            (nearest (e_node e),
             visit_post fn (stored_nodes_post (e_node e)) s)) es ->
  forall acc s,
    range_collect (fun m => recursiveWalk_postOrder m fn) es acc s =
    (acc ++ flat_map (fun e => nearest (e_node e)) es,
     visit_post fn (flat_map (fun e => stored_nodes_post (e_node e)) es) s).
Proof.
  induction 1 as [|e es He _ IH]; intros acc s; simpl.
  - rewrite app_nil_r. reflexivity.
  - rewrite He, IH. unfold visit_post. rewrite fold_left_app, app_assoc.
    reflexivity.
Qed.

Lemma recursiveWalk_postOrder_spec (S : Type) (fn : WalkFnPost S) (n : node) :
  forall s,
    recursiveWalk_postOrder n fn s =
    (nearest n, visit_post fn (stored_nodes_post n) s).
Proof.
  induction n as [lf p es IH] using node_ind'; intros s.
  rewrite recursiveWalk_postOrder_eq; cbn [edges leaf].
  rewrite range_collect_spec by exact IH. simpl.
  unfold visit_post, isLeaf; cbn [leaf].
  destruct lf as [lf|]; simpl; rewrite fold_left_app; simpl.
  - reflexivity.
  - reflexivity.
Qed.

Lemma stored_nodes_post_spec (n : node) :
  Forall (fun m => In_tree m n /\ isLeaf m = true) (stored_nodes_post n) /\
  length (stored_nodes_post n) = count_stored n.
Proof.
  induction n as [lf p es IH] using node_ind'.
  assert (H : Forall (fun m => In_tree m (mkNode lf p es) /\ isLeaf m = true)
                (flat_map (fun e => stored_nodes_post (e_node e)) es) /\
              length (flat_map (fun e => stored_nodes_post (e_node e)) es) =
              list_sum (map (fun e => count_stored (e_node e)) es)).
  { assert (Hsub : forall e, In e es -> In e (edges (mkNode lf p es))) by auto.
    revert Hsub. generalize (mkNode lf p es) as n.
    induction IH as [|e es [He1 He2] _ IHes]; intros n Hsub; simpl.
    - split; constructor.
    - destruct (IHes n) as [H1 H2]; [intros; apply Hsub; right; assumption|].
      split.
      + apply Forall_app; split; auto.
        eapply Forall_impl; [|exact He1]. intros m [Hm Hl]; split; auto.
        eapply In_tree_child; [apply Hsub; left; reflexivity|exact Hm].
      + rewrite length_app, He2, H2. reflexivity. }
  destruct H as [H1 H2]. cbn [stored_nodes_post count_stored edges].
  split.
  - apply Forall_app; split; auto.
    destruct (isLeaf (mkNode lf p es)) eqn:L; constructor; [|constructor].
    split; [constructor|exact L].
  - rewrite length_app, H2. destruct (isLeaf (mkNode lf p es)); simpl; lia.
Qed.

(** C3 (amended).  The post-order walk invokes the visitor exactly once
    for each node that carries a stored entry, children before parents,
    with that node's entry as parent and, as children, the stored entries
    nearest below it: for each child in edge order its own entry if it has
    one, and otherwise the nearest entries below that child.  Nodes
    without a stored entry trigger no call and hand the lists of their
    children upward. *)
Theorem Walk_post_nearest (t : Tree) :
  (forall (S : Type) (fn : WalkFnPost S) (s : S),
     Walk_post t fn s = visit_post fn (stored_nodes_post (root t)) s) /\
  Forall (fun m => In_tree m (root t) /\ isLeaf m = true)
         (stored_nodes_post (root t)) /\
  length (stored_nodes_post (root t)) = count_stored (root t) /\
  map (fun c => (Some (fst c), snd c)) (Walk_post t record_post [])
  = post_calls (root t).
Proof.
  split; [|split; [|split]].
  - intros S fn s. unfold Walk_post.
    rewrite recursiveWalk_postOrder_spec. reflexivity.
  - apply stored_nodes_post_spec.
  - apply stored_nodes_post_spec.
  - unfold Walk_post. rewrite recursiveWalk_postOrder_spec. cbn [snd].
    unfold post_calls.
    destruct (stored_nodes_post_spec (root t)) as [HF _].
    assert (G : forall (ms : list node) log,
               Forall (fun m => isLeaf m = true) ms ->
               map (fun c => (Some (fst c), snd c))
                   (visit_post record_post ms log)
               = map (fun c => (Some (fst c), snd c)) log
                 ++ map (fun m => (leaf m, nearest_below m)) ms).
    { induction ms as [|m ms IHms]; intros log Hms.
      - simpl. rewrite app_nil_r. reflexivity.
      - inversion Hms as [|? ? Hm Hms']; subst.
        unfold isLeaf in Hm. destruct (leaf m) as [lf|] eqn:L; [|discriminate].
        change (visit_post record_post (m :: ms) log)
          with (visit_post record_post ms
                  (match leaf m with
                   | Some lf => record_post lf (nearest_below m) log
                   | None => log
                   end)).
        rewrite L, IHms by assumption. unfold record_post.
        rewrite map_app, <- app_assoc. simpl. rewrite L. reflexivity. }
    rewrite G; [reflexivity|].
    eapply Forall_impl; [|exact HF]. intros m [_ H]; exact H.
Qed.

(** *** The pre-order walk and [DeletePrefix] *)

Lemma recursiveWalk_eq (S : Type) (n : node) (fn : WalkFn S) (s : S) :
  recursiveWalk n fn s =
  let (s1, stop) :=
    match leaf n with
    | Some lf => fn (Key lf) (Val lf) s
    | None => (s, false)
    end in
  if stop then (s1, true)
  else range_until (fun m => recursiveWalk m fn) (edges n) s1.
Proof. destruct n; reflexivity. Qed.

(** The counting closure of [deletePrefix] never stops the walk and
    counts the stored entries of the subtree. *)
Lemma recursiveWalk_count (n : node) :
  forall z, recursiveWalk n count_fn (int_wrap z) =
            (int_wrap (z + Z.of_nat (count_stored n)), false).
Proof.
  induction n as [lf p es IH] using node_ind'; intros z.
  rewrite recursiveWalk_eq; cbn [leaf edges count_stored isLeaf].
  assert (H : forall z,
             range_until (fun m => recursiveWalk m count_fn) es (int_wrap z) =
             (int_wrap (z + Z.of_nat
                (list_sum (map (fun e => count_stored (e_node e)) es))), false)).
  { clear z. induction IH as [|e es He _ IHes]; intros z; simpl.
    - rewrite Z.add_0_r. reflexivity.
    - rewrite He, IHes. f_equal. f_equal. lia. }
  destruct lf as [lf|]; unfold count_fn at 1; cbv iota beta.
  - rewrite int_wrap_add, H. unfold isLeaf; cbn [leaf]. f_equal. f_equal. lia.
  - rewrite H. unfold isLeaf; cbn [leaf]. reflexivity.
Qed.

Lemma subTreeSize_count (n : node) :
  fst (recursiveWalk n count_fn 0%Z) = int_wrap (Z.of_nat (count_stored n)).
Proof.
  change 0%Z with (int_wrap 0) at 1. rewrite recursiveWalk_count. reflexivity.
Qed.

Lemma locate_cons (n : node) (c : ascii) (r : gostring) :
  locate n (c :: r) =
  match getEdge (edges n) c with
  | None => Miss
  | Some child =>
      if HasPrefix (c :: r) (prefix child)
      then locate child (skipn (length (prefix child)) (c :: r))
      else if HasPrefix (prefix child) (c :: r) then Inside child else Miss
  end.
Proof. destruct n; simpl. apply with_edge_getEdge. Qed.

Lemma deletePrefix_nil (b : bool) (n : node) :
  deletePrefix b n [] =
  Some (mkNode None (prefix n) [], true, fst (recursiveWalk n count_fn 0%Z)).
Proof. destruct n; reflexivity. Qed.

Lemma deletePrefix_cons (b : bool) (n : node) (c : ascii) (r : gostring) :
  deletePrefix b n (c :: r) =
  match getEdge (edges n) c with
  | None => None
  | Some child =>
      if negb (HasPrefix (prefix child) (c :: r))
         && negb (HasPrefix (c :: r) (prefix child))
      then None
      else
        let pre' :=
          if length (c :: r) <? length (prefix child)
          then skipn (length (c :: r)) (c :: r)
          else skipn (length (prefix child)) (c :: r) in
        match deletePrefix false child pre' with
        | None => None
        | Some (child', cleared, k) =>
            let p1 :=
              set_edges n
                (set_node (edges n) (search_idx (edges n) c) child') in
            let p2 :=
              if cleared && negb b && (length (edges p1) =? 1)
                 && negb (isLeaf p1)
              then mergeChild p1 else p1 in
            Some (p2, false, k)
        end
  end.
Proof. destruct n; simpl. apply with_edge_getEdge. Qed.

(** The prefix that [deletePrefix] passes down, by the outcome of the two
    [HasPrefix] tests. *)
Lemma deletePrefix_rest_consume (p cp : gostring) :
  HasPrefix p cp = true ->
  (if length p <? length cp then skipn (length p) p else skipn (length cp) p)
  = skipn (length cp) p.
Proof.
  intros H. apply HasPrefix_length in H.
  destruct (Nat.ltb_spec (length p) (length cp)); [lia|reflexivity].
Qed.

Lemma deletePrefix_rest_inside (p cp : gostring) :
  HasPrefix p cp = false -> HasPrefix cp p = true ->
  (if length p <? length cp then skipn (length p) p else skipn (length cp) p)
  = [].
Proof.
  intros H1 H2. pose proof (HasPrefix_length _ _ H2) as Hl.
  destruct (Nat.ltb_spec (length p) (length cp)); [apply skipn_all|].
  apply HasPrefix_true in H2. destruct H2 as [r ->].
  rewrite length_app in *. destruct r; [|simpl in *; lia].
  rewrite app_nil_r in H1. rewrite HasPrefix_refl in H1. discriminate.
Qed.

Lemma deletePrefix_miss (n : node) :
  forall b p, locate n p = Miss -> deletePrefix b n p = None.
Proof.
  induction n as [lf q es IH] using node_ind'; intros b [|c r].
  - discriminate.
  - rewrite locate_cons, deletePrefix_cons; cbn [edges].
    destruct (getEdge es c) as [child|] eqn:E; auto.
    child_IH IH E IHn.
    destruct (HasPrefix (c :: r) (prefix child)) eqn:H1.
    + intros H. rewrite andb_false_r. cbv zeta.
      rewrite deletePrefix_rest_consume by assumption.
      rewrite (IHn false _ H). reflexivity.
    + destruct (HasPrefix (prefix child) (c :: r)) eqn:H2; [discriminate|].
      reflexivity.
Qed.


(** Where the prefix ends on or inside the edge of a node, that node's
    stored entries are what [deletePrefix] counts. *)
Lemma deletePrefix_count (n : node) :
  forall b p m,
    locate n p = Exact m \/ locate n p = Inside m ->
    exists n' cleared,
      deletePrefix b n p =
      Some (n', cleared, int_wrap (Z.of_nat (count_stored m))).
Proof.
  induction n as [lf q es IH] using node_ind'; intros b [|c r] m.
  - intros [H|H]; [|discriminate]. inversion H; subst.
    rewrite deletePrefix_nil, subTreeSize_count. eauto.
  - rewrite locate_cons, deletePrefix_cons; cbn [edges].
    destruct (getEdge es c) as [child|] eqn:E; [|intros [H|H]; discriminate].
    child_IH IH E IHn.
    destruct (HasPrefix (c :: r) (prefix child)) eqn:H1.
    + intros H. rewrite andb_false_r. cbv zeta.
      rewrite deletePrefix_rest_consume by assumption.
      destruct (IHn false _ _ H) as [n' [cl ->]]. eauto.
    + destruct (HasPrefix (prefix child) (c :: r)) eqn:H2;
        [|intros [H|H]; discriminate].
      intros [H|H]; [discriminate|]. inversion H; subst m.
      cbn [negb andb]. cbv zeta.
      rewrite deletePrefix_rest_inside by assumption.
      rewrite deletePrefix_nil, subTreeSize_count. eauto.
Qed.

(** *** The walks visit the entries in pre-order *)

Lemma run_visits_app (S : Type) (fn : WalkFn S) (l1 l2 : list (gostring * V))
  (s : S) :
  run_visits fn (l1 ++ l2) s =
  let (s', stop) := run_visits fn l1 s in
  if stop then (s', true) else run_visits fn l2 s'.
Proof.
  revert s; induction l1 as [|[k v] l1 IH]; intros s; simpl; auto.
  destruct (fn k v s) as [s' [|]]; auto.
Qed.

Lemma recursiveWalk_entries (S : Type) (fn : WalkFn S) (n : node) :
  forall s, recursiveWalk n fn s = run_visits fn (entries n) s.
Proof.
  induction n as [lf p es IH] using node_ind'; intros s.
  rewrite recursiveWalk_eq; cbn [leaf edges entries].
  assert (H : forall s,
             range_until (fun m => recursiveWalk m fn) es s =
             run_visits fn (flat_map (fun e => entries (e_node e)) es) s).
  { clear s. induction IH as [|e es He _ IHes]; intros s; simpl; auto.
    rewrite run_visits_app, He.
    destruct (run_visits fn (entries (e_node e)) s) as [s' [|]]; auto. }
  destruct lf as [lf|]; simpl.
  - destruct (fn (Key lf) (Val lf) s) as [s' [|]]; auto.
  - apply H.
Qed.

Lemma run_visits_record (l : list (gostring * V)) :
  forall log, run_visits record l log = (log ++ l, false).
Proof.
  induction l as [|[k v] l IH]; intros log; simpl.
  - rewrite app_nil_r. reflexivity.
  - rewrite IH, <- app_assoc. reflexivity.
Qed.

Lemma walkPrefix_cons (S : Type) (n : node) (c : ascii) (r : gostring)
  (fn : WalkFn S) (s : S) :
  walkPrefix n (c :: r) fn s =
  match getEdge (edges n) c with
  | None => s
  | Some n' =>
      if HasPrefix (c :: r) (prefix n')
      then walkPrefix n' (skipn (length (prefix n')) (c :: r)) fn s
      else if HasPrefix (prefix n') (c :: r)
           then fst (recursiveWalk n' fn s)
           else s
  end.
Proof. destruct n; simpl. apply with_edge_getEdge. Qed.

(** [WalkPrefix] visits the entries at or under the place where the
    descent along the prefix ends. *)
Lemma walkPrefix_entries (S : Type) (fn : WalkFn S) (n : node) :
  forall search s,
    walkPrefix n search fn s =
    fst (run_visits fn (entries_under n search) s).
Proof.
  induction n as [lf p es IH] using node_ind'; intros [|c r] s.
  - unfold entries_under. cbn [locate walkPrefix].
    rewrite recursiveWalk_entries. reflexivity.
  - unfold entries_under. rewrite walkPrefix_cons, locate_cons; cbn [edges].
    destruct (getEdge es c) as [n0|] eqn:E; [|reflexivity].
    child_IH IH E IHn.
    destruct (HasPrefix (c :: r) (prefix n0)).
    + rewrite IHn. reflexivity.
    + destruct (HasPrefix (prefix n0) (c :: r)); [|reflexivity].
      rewrite recursiveWalk_entries. reflexivity.
Qed.

(** *** The entries of a well-formed tree *)

Lemma edge_eta (e : edge) : e = mkEdge (label e) (e_node e).
Proof. destruct e; reflexivity. Qed.

Lemma get_child (n : node) (e : edge) (x : gostring) (path : gostring) :
  wf_at path n -> In e (edges n) ->
  get n (prefix (e_node e) ++ x) = get (e_node e) x.
Proof.
  intros Hw He. apply wf_at_inv in Hw. destruct Hw as [Hs [_ [Hl _]]].
  destruct (Hl _ He) as [rest Hp].
  assert (Hx : prefix (e_node e) ++ x = label e :: (rest ++ x))
    by (rewrite Hp; reflexivity).
  rewrite (edge_eta e) in He. apply (getEdge_sorted _ _ Hs) in He.
  rewrite Hx, get_cons, He, <- Hx.
  rewrite HasPrefix_app, skipn_length_app. reflexivity.
Qed.

(** The entries of a well-formed subtree are the keys that [Get] finds
    below it, prefixed by the path to it. *)
Lemma entries_get (n : node) :
  forall path k v,
    wf_at path n ->
    (In (k, v) (entries n) <->
     exists x, k = path ++ x /\ get n x = (Some v, true)).
Proof.
  induction n as [lf p es IH] using node_ind'; intros path k v Hw.
  pose proof (wf_at_inv Hw) as [Hs [Hk [Hl Hc]]]. cbn [edges leaf] in *.
  cbn [entries leaf edges]. rewrite in_app_iff, in_flat_map. split.
  - intros [Hin|[e [He Hin]]].
    + destruct lf as [lf|]; [|destruct Hin].
      destruct Hin as [Heq|[]]. inversion Heq; subst.
      exists []. rewrite app_nil_r, get_nil. cbn [leaf].
      split; [apply Hk; reflexivity|reflexivity].
    + rewrite Forall_forall in IH.
      apply (IH e He (path ++ prefix (e_node e)) k v (Hc e He)) in Hin.
      destruct Hin as [x [-> Hg]].
      exists (prefix (e_node e) ++ x). rewrite app_assoc. split; auto.
      rewrite (get_child e x Hw He). exact Hg.
  - intros [[|c r] [-> Hg]].
    + left. rewrite get_nil in Hg. cbn [leaf] in Hg.
      destruct lf as [lf|]; [|discriminate]. inversion Hg; subst.
      rewrite app_nil_r, <- (Hk lf eq_refl). destruct lf; left; reflexivity.
    + right. rewrite get_cons in Hg. cbn [edges] in Hg.
      destruct (getEdge es c) as [n0|] eqn:E; [|discriminate].
      destruct (HasPrefix (c :: r) (prefix n0)) eqn:H; [|discriminate].
      assert (Hin : In (mkEdge c n0) es) by (eapply getEdge_In; eauto).
      exists (mkEdge c n0). split; [exact Hin|]. cbn [e_node].
      rewrite Forall_forall in IH.
      apply (IH _ Hin (path ++ prefix n0) _ v (Hc _ Hin)).
      exists (skipn (length (prefix n0)) (c :: r)). split; auto.
      rewrite <- app_assoc, <- (HasPrefix_skipn _ _ H). reflexivity.
Qed.

Lemma entries_keys (n : node) (path : gostring) (kv : gostring * V) :
  wf_at path n -> In kv (entries n) -> exists x, fst kv = path ++ x.
Proof.
  intros Hw Hin. destruct kv as [k v].
  apply (entries_get k v Hw) in Hin. destruct Hin as [x [-> _]].
  exists x. reflexivity.
Qed.

(** The pre-order of a well-formed subtree is the ascending order of its
    keys. *)
Lemma entries_sorted (n : node) :
  forall path, wf_at path n -> StronglySorted key_lt (entries n).
Proof.
  induction n as [lf p es IH] using node_ind'; intros path Hw.
  pose proof (wf_at_inv Hw) as [Hs [Hk [Hl Hc]]]. cbn [edges leaf] in *.
  cbn [entries leaf edges].
  assert (Hkeys : forall e kv, In e es -> In kv (entries (e_node e)) ->
                  exists rest x, fst kv = path ++ (label e :: rest) ++ x).
  { intros e kv He Hin. destruct (Hl _ He) as [rest Hp].
    destruct (entries_keys _ (Hc _ He) Hin) as [x Hx].
    exists rest, x. rewrite Hx, Hp, <- app_assoc. reflexivity. }
  apply StronglySorted_app_iff. split; [|split].
  - destruct lf; repeat constructor.
  - clear Hk Hw. induction Hs as [|e es Hs' IHs He]; cbn [flat_map].
    + constructor.
    + inversion IH as [|? ? IHe IHes]; subst.
      apply StronglySorted_app_iff. split; [|split].
      * apply (IHe (path ++ prefix (e_node e))). apply Hc. left; reflexivity.
      * apply IHs; auto.
        -- intros x Hx. apply Hl. right; exact Hx.
        -- intros x Hx. apply Hc. right; exact Hx.
        -- intros x kv Hx. apply Hkeys. right; exact Hx.
      * intros a b Ha Hb. apply in_flat_map in Hb. destruct Hb as [e' [He' Hb]].
        destruct (Hkeys e a (or_introl eq_refl) Ha) as [ra [xa Hka]].
        destruct (Hkeys e' b (or_intror He') Hb) as [rb [xb Hkb]].
        unfold key_lt. rewrite Hka, Hkb, gostring_ltb_app.
        apply gostring_ltb_cons_lt.
        rewrite Forall_forall in He. apply (He e' He').
  - intros a b Ha Hb. apply in_flat_map in Hb. destruct Hb as [e [He Hb]].
    destruct (Hkeys e b He Hb) as [rb [xb Hkb]].
    destruct lf as [lf|]; [|destruct Ha]. destruct Ha as [<-|[]].
    unfold key_lt. cbn [fst]. rewrite Hkb, (Hk lf eq_refl).
    rewrite <- (app_nil_r path) at 1. rewrite gostring_ltb_app. reflexivity.
Qed.

(** The node at or below which a prefix ends is a well-formed subtree. *)
Lemma locate_wf (n : node) :
  forall path search m,
    wf_at path n ->
    locate n search = Exact m \/ locate n search = Inside m ->
    exists path', wf_at path' m.
Proof.
  induction n as [lf p es IH] using node_ind'; intros path [|c r] m Hw.
  - intros [H|H]; inversion H; subst. eauto.
  - rewrite locate_cons; cbn [edges].
    pose proof (wf_at_inv Hw) as [_ [_ [_ Hc]]]. cbn [edges] in Hc.
    destruct (getEdge es c) as [n0|] eqn:E; [|intros [H|H]; discriminate].
    child_IH IH E IHn.
    assert (Hin : In (mkEdge c n0) es) by (eapply getEdge_In; eauto).
    specialize (Hc _ Hin). cbn [e_node] in Hc.
    destruct (HasPrefix (c :: r) (prefix n0)).
    + apply (IHn _ _ _ Hc).
    + destruct (HasPrefix (prefix n0) (c :: r));
        intros [H|H]; inversion H; subst. eauto.
Qed.

(** The entries under a prefix are the stored keys that extend it. *)
Lemma entries_under_get (n : node) :
  forall path search k v,
    wf_at path n ->
    (In (k, v) (entries_under n search) <->
     exists x, k = path ++ x /\ get n x = (Some v, true)
               /\ HasPrefix x search = true).
Proof.
  induction n as [lf p es IH] using node_ind'; intros path [|c r] k v Hw.
  - unfold entries_under. cbn [locate]. rewrite (entries_get k v Hw).
    split; intros [x H]; exists x; intuition auto.
  - unfold entries_under. rewrite locate_cons; cbn [edges].
    pose proof (wf_at_inv Hw) as [Hs [Hk [Hl Hc]]]. cbn [edges leaf] in *.
    destruct (getEdge es c) as [n0|] eqn:E.
    + child_IH IH E IHn.
      assert (Hin : In (mkEdge c n0) es) by (eapply getEdge_In; eauto).
      specialize (Hc _ Hin). cbn [e_node] in Hc.
      assert (Hdown : forall x, HasPrefix x (c :: r) = true ->
                get (mkNode lf p es) x =
                if HasPrefix x (prefix n0)
                then get n0 (skipn (length (prefix n0)) x)
                else (None, false)).
      { intros x Hx. apply HasPrefix_true in Hx. destruct Hx as [z ->].
        cbn [app]. rewrite get_cons. cbn [edges]. rewrite E. reflexivity. }
      destruct (HasPrefix (c :: r) (prefix n0)) eqn:H1.
      * fold (entries_under n0 (skipn (length (prefix n0)) (c :: r))).
        rewrite (IHn (path ++ prefix n0) _ k v Hc).
        pose proof (HasPrefix_skipn _ _ H1) as Hsearch.
        split.
        -- intros [x [-> [Hg Hx]]]. exists (prefix n0 ++ x).
           rewrite app_assoc. split; [reflexivity|].
           assert (Hx' : HasPrefix (prefix n0 ++ x) (c :: r) = true).
           { rewrite Hsearch. rewrite HasPrefix_app_app. exact Hx. }
           split; [|exact Hx'].
           rewrite (Hdown _ Hx'), HasPrefix_app, skipn_length_app. exact Hg.
        -- intros [x [-> [Hg Hx]]]. rewrite (Hdown _ Hx) in Hg.
           assert (Hx0 : HasPrefix x (prefix n0) = true)
             by (eapply HasPrefix_trans; eauto).
           rewrite Hx0 in Hg. exists (skipn (length (prefix n0)) x).
           rewrite <- app_assoc, <- (HasPrefix_skipn _ _ Hx0).
           split; [reflexivity|]. split; [exact Hg|].
           rewrite (HasPrefix_skipn _ _ Hx0), Hsearch in Hx.
           rewrite HasPrefix_app_app in Hx. exact Hx.
      * destruct (HasPrefix (prefix n0) (c :: r)) eqn:H2.
        -- rewrite (entries_get k v Hc). split.
           ++ intros [x [-> Hg]]. exists (prefix n0 ++ x).
              rewrite app_assoc. split; [reflexivity|].
              assert (Hx' : HasPrefix (prefix n0 ++ x) (c :: r) = true).
              { eapply HasPrefix_trans; [apply HasPrefix_app|exact H2]. }
              split; [|exact Hx'].
              rewrite (Hdown _ Hx'), HasPrefix_app, skipn_length_app. exact Hg.
           ++ intros [x [-> [Hg Hx]]]. rewrite (Hdown _ Hx) in Hg.
              destruct (HasPrefix x (prefix n0)) eqn:Hx0; [|discriminate].
              exists (skipn (length (prefix n0)) x).
              rewrite <- app_assoc, <- (HasPrefix_skipn _ _ Hx0). auto.
        -- split; [intros []|].
           intros [x [-> [Hg Hx]]]. rewrite (Hdown _ Hx) in Hg.
           destruct (HasPrefix x (prefix n0)) eqn:Hx0; [|discriminate].
           destruct (HasPrefix_comparable _ _ _ Hx Hx0); congruence.
    + split; [intros []|].
      intros [x [-> [Hg Hx]]]. apply HasPrefix_true in Hx.
      destruct Hx as [z ->]. cbn [app] in Hg. rewrite get_cons in Hg.
      cbn [edges] in Hg. rewrite E in Hg. discriminate.
Qed.

Lemma sorted_keys_NoDup (l : list (gostring * V)) :
  StronglySorted key_lt l -> NoDup (map fst l).
Proof.
  induction 1 as [|a l Hs IH Ha]; simpl; constructor; auto.
  intros Hin. apply in_map_iff in Hin. destruct Hin as [b [Hb Hin]].
  rewrite Forall_forall in Ha. apply Ha in Hin. unfold key_lt in Hin.
  rewrite Hb, gostring_ltb_irrefl in Hin. discriminate.
Qed.

(** *** The counter under Delete and DeletePrefix *)

Lemma count_stored_mergeChild (n : node) :
  isLeaf n = false -> (length (edges n) =? 1) = true ->
  count_stored (mergeChild n) = count_stored n.
Proof.
  destruct n as [lf p es]. unfold isLeaf, mergeChild; cbn [leaf edges prefix].
  destruct lf; [discriminate|]. intros _ H.
  destruct es as [|e [|e' es]]; try discriminate.
  destruct (e_node e) as [lf' p' es'] eqn:He. cbn [leaf edges prefix].
  rewrite !count_stored_eq. cbn [map list_sum fold_right].
  rewrite He, count_stored_eq. lia.
Qed.

Lemma isLeaf_set_leaf_None (n : node) : isLeaf (set_leaf n None) = false.
Proof. reflexivity. Qed.

Lemma delete_count (n : node) :
  forall b s n' gone target v,
    delete b n s = Some (n', gone, target, v) ->
    count_stored n = count_stored n' + 1 /\
    (gone = true -> count_stored n' = 0).
Proof.
  induction n as [lf p es IH] using node_ind';
    intros b [|c r] n' gone target v.
  - rewrite delete_nil; cbn [leaf edges].
    destruct lf as [lf|]; [|discriminate].
    intros H; injection H as <- <- _ _.
    assert (Hc : count_stored (set_leaf (mkNode (Some lf) p es) None) + 1
                 = count_stored (mkNode (Some lf) p es)).
    { unfold set_leaf; cbn [prefix edges]. rewrite !count_stored_eq. lia. }
    split.
    + destruct (negb b && (length es =? 1)) eqn:Hm; [|lia].
      apply andb_true_iff in Hm. destruct Hm as [_ Hm].
      rewrite count_stored_mergeChild by auto. lia.
    + intros Hg. apply Nat.eqb_eq in Hg.
      destruct es; [|discriminate]. rewrite andb_false_r. reflexivity.
  - rewrite delete_cons; cbn [edges].
    destruct (getEdge es c) as [n0|] eqn:E; [|discriminate].
    child_IH IH E IHn.
    destruct (getEdge_found _ _ E) as [l1 [l2 [Hes [Hset Hrem]]]].
    destruct (HasPrefix (c :: r) (prefix n0)); [|discriminate].
    destruct (delete false n0 (skipn (length (prefix n0)) (c :: r)))
      as [[[[n'' g] tg] v']|] eqn:D; [|discriminate].
    destruct (IHn _ _ _ _ _ _ D) as [Hc Hg].
    assert (Hsum : forall es1,
               es1 = (if (g && tg)%bool then l1 ++ l2
                      else l1 ++ mkEdge c n'' :: l2) ->
               count_stored (mkNode lf p es)
               = count_stored (mkNode lf p es1) + 1).
    { intros es1 ->. rewrite !count_stored_eq. rewrite Hes.
      destruct (g && tg)%bool eqn:Hgt.
      - apply andb_true_iff in Hgt. destruct Hgt as [-> _].
        rewrite Hg in Hc by reflexivity.
        rewrite list_sum_middle. cbn [e_node]. lia.
      - rewrite !list_sum_middle. cbn [e_node]. lia. }
    destruct tg.
    + cbv zeta. intros H; injection H as <- <- _ _.
      split; [|discriminate].
      erewrite delEdge_found by eassumption. rewrite Hrem, Hset.
      set (es1 := if g then l1 ++ l2 else l1 ++ mkEdge c n'' :: l2).
      specialize (Hsum es1). rewrite andb_true_r in Hsum.
      specialize (Hsum eq_refl).
      destruct (negb b && (length es1 =? 1)
                && negb (isLeaf (set_edges (mkNode lf p es) es1))) eqn:Hm.
      * apply andb_true_iff in Hm. destruct Hm as [Hm Hl].
        apply andb_true_iff in Hm. destruct Hm as [_ Hm].
        apply negb_true_iff in Hl.
        rewrite count_stored_mergeChild by auto. exact Hsum.
      * exact Hsum.
    + intros H; injection H as <- <- _ _. split; [|discriminate].
      rewrite Hset. apply Hsum. rewrite andb_false_r. reflexivity.
Qed.

Lemma deletePrefix_stored (n : node) :
  forall b p n' cleared k,
    deletePrefix b n p = Some (n', cleared, k) ->
    exists c, k = int_wrap (Z.of_nat c) /\
              count_stored n = count_stored n' + c.
Proof.
  induction n as [lf q es IH] using node_ind'; intros b [|c r] n' cleared k.
  - rewrite deletePrefix_nil, subTreeSize_count. intros H.
    injection H as <- _ <-. eexists; split; [reflexivity|].
    rewrite (count_stored_eq None). simpl. reflexivity.
  - rewrite deletePrefix_cons; cbn [edges].
    destruct (getEdge es c) as [n0|] eqn:E; [|discriminate].
    child_IH IH E IHn.
    destruct (getEdge_found _ _ E) as [l1 [l2 [Hes [Hset _]]]].
    destruct (negb (HasPrefix (prefix n0) (c :: r))
              && negb (HasPrefix (c :: r) (prefix n0))); [discriminate|].
    cbv zeta.
    match goal with
    | |- context [deletePrefix false n0 ?x] =>
        destruct (deletePrefix false n0 x) as [[[n'' cl] k']|] eqn:D;
          [|discriminate]
    end.
    destruct (IHn _ _ _ _ _ D) as [cnt [Hk Hc]].
    intros H; injection H as <- _ <-. exists cnt. split; [exact Hk|].
    rewrite Hset. unfold set_edges; cbn [leaf prefix edges].
    assert (Hsum : count_stored (mkNode lf q es)
                   = count_stored (mkNode lf q (l1 ++ mkEdge c n'' :: l2))
                     + cnt).
    { rewrite !count_stored_eq, Hes, !list_sum_middle. cbn [e_node]. lia. }
    match goal with
    | |- context [if ?cond then _ else _] => destruct cond eqn:Hm
    end; [|exact Hsum].
    apply andb_true_iff in Hm. destruct Hm as [Hm Hl].
    apply andb_true_iff in Hm. destruct Hm as [_ Hm].
    apply negb_true_iff in Hl.
    rewrite count_stored_mergeChild by auto. exact Hsum.
Qed.

(** The counter of every reachable tree is the number of its stored
    entries, as a Go [int]. *)
Lemma reachable_size (t : Tree) :
  reachable t -> size t = int_wrap (Z.of_nat (count_stored (root t))).
Proof.
  induction 1 as [|t k v t' r _ IH Hins|t k _ IH|t p _ IH].
  - reflexivity.
  - unfold Insert in Hins.
    destruct (insert_result (root t) k v k (size t)) as [n' [Hn' [_ Hc]]].
    rewrite Hn' in Hins. injection Hins as <- _. cbn [size root].
    rewrite Hc, IH. destruct (snd (get (root t) k)).
    + rewrite Nat.add_0_r. reflexivity.
    + rewrite int_wrap_add. f_equal. lia.
  - unfold Delete.
    destruct (delete true (root t) k) as [[[[n' g] tg] v]|] eqn:D;
      cbn [fst size root]; [|exact IH].
    apply delete_count in D. destruct D as [Hc _].
    rewrite IH, int_wrap_sub. f_equal. lia.
  - unfold DeletePrefix.
    destruct (deletePrefix true (root t) p) as [[[n' cl] k]|] eqn:D;
      cbn [fst size root]; [|exact IH].
    apply deletePrefix_stored in D. destruct D as [c [-> Hc]].
    rewrite IH, int_wrap_sub_r, int_wrap_sub. f_equal. lia.
Qed.

(** C9.  After any sequence of [Insert] calls on a new tree, [Len()] is
    the number of distinct keys inserted; and after every public mutation
    the size counter is the number of nodes whose stored entry is present
    (these numbers being representable as a Go [int]). *)
Theorem Len_counts_stored_entries :
  (forall l : list (gostring * V),
     (Z.of_nat (distinct_keys l) <= int_max)%Z ->
     exists t, insert_all l (New V) = Some t /\
               Len t = Z.of_nat (distinct_keys l) /\
               count_stored (root t) = distinct_keys l) /\
  (forall t : Tree,
     reachable t ->
     (Z.of_nat (count_stored (root t)) <= int_max)%Z ->
     size t = Z.of_nat (count_stored (root t))).
Proof.
  split.
  - intros l Hl. destruct (insert_all_New l) as [t [Hall [_ [_ [Hsz Hc]]]]].
    exists t. split; [exact Hall|]. split; [|exact Hc].
    unfold Len. rewrite Hsz. apply int_wrap_small.
    unfold int_min, int_max in *. lia.
  - intros t Hr Hl. rewrite (reachable_size Hr). apply int_wrap_small.
    unfold int_min, int_max in *. lia.
Qed.

(** *** Delete and DeletePrefix preserve the invariants *)

Lemma wf_at_remove (path : gostring) (lf : option (LeafNode V))
  (p : gostring) (l1 l2 : list edge) (e : edge) :
  wf_at path (mkNode lf p (l1 ++ e :: l2)) ->
  wf_at path (mkNode lf p (l1 ++ l2)).
Proof.
  intros H. apply wf_at_inv in H. cbn [edges leaf] in H.
  destruct H as [Hs [Hk [Hl Hc]]].
  constructor; auto.
  - eapply labels_sorted_remove; exact Hs.
  - intros x Hx. apply Hl. apply In_middle; auto.
  - intros x Hx. apply Hc. apply In_middle; auto.
Qed.

(** Merging a node into its only child gives the child, reached by the
    concatenation of the two prefixes. *)
Lemma wf_at_mergeChild (path : gostring) (n : node) :
  wf_at path n -> (length (edges n) =? 1) = true ->
  exists q, prefix (mergeChild n) = prefix n ++ q /\
            wf_at (path ++ q) (mergeChild n).
Proof.
  intros Hw Hlen. apply wf_at_inv in Hw. destruct Hw as [_ [_ [_ Hc]]].
  destruct n as [lf p es]. cbn [edges] in *.
  destruct es as [|e [|e' es]]; try discriminate.
  specialize (Hc e (or_introl eq_refl)).
  unfold mergeChild; cbn [edges prefix].
  exists (prefix (e_node e)). split; [reflexivity|].
  apply wf_at_inv in Hc. destruct Hc as [Hs [Hk [Hl Hc]]].
  constructor; auto.
Qed.

Lemma delete_wf (n : node) :
  forall path b s n' gone target v,
    wf_at path n ->
    delete b n s = Some (n', gone, target, v) ->
    exists q, prefix n' = prefix n ++ q /\ wf_at (path ++ q) n' /\
              (b = true -> q = []).
Proof.
  induction n as [lf p es IH] using node_ind';
    intros path b [|c r] n' gone target v Hw.
  - rewrite delete_nil; cbn [leaf edges].
    destruct lf as [lf|]; [|discriminate].
    intros H; injection H as <- _ _ _.
    assert (Hw1 : wf_at path (set_leaf (mkNode (Some lf) p es) None)).
    { apply wf_at_inv in Hw. destruct Hw as [Hs [Hk [Hl Hc]]].
      constructor; auto. discriminate. }
    destruct (negb b && (length es =? 1)) eqn:Hm.
    + apply andb_true_iff in Hm. destruct Hm as [Hb Hm].
      destruct (wf_at_mergeChild Hw1 Hm) as [q [Hq Hwq]].
      exists q. split; [exact Hq|]. split; [exact Hwq|].
      intros ->. discriminate.
    + exists []. rewrite !app_nil_r. auto.
  - rewrite delete_cons; cbn [edges].
    pose proof (wf_at_inv Hw) as [Hs [Hk [Hl Hc]]]. cbn [edges leaf] in *.
    destruct (getEdge es c) as [n0|] eqn:E; [|discriminate].
    child_IH IH E IHn.
    destruct (getEdge_found _ _ E) as [l1 [l2 [Hes [Hset Hrem]]]].
    assert (Hin : In (mkEdge c n0) es) by (eapply getEdge_In; eauto).
    destruct (Hl _ Hin) as [rest Hp0]. cbn [e_node label] in Hp0.
    specialize (Hc _ Hin). cbn [e_node] in Hc.
    destruct (HasPrefix (c :: r) (prefix n0)); [|discriminate].
    destruct (delete false n0 (skipn (length (prefix n0)) (c :: r)))
      as [[[[n'' g] tg] v']|] eqn:D; [|discriminate].
    destruct (IHn _ _ _ _ _ _ _ Hc D) as [q0 [Hq0 [Hw0 _]]].
    assert (Hrep : wf_at path (mkNode lf p (l1 ++ mkEdge c n'' :: l2))).
    { subst es. eapply wf_at_replace; [exact Hw| |].
      - rewrite Hq0, Hp0. cbn [app]. eauto.
      - rewrite Hq0, app_assoc. exact Hw0. }
    assert (Hdel : wf_at path (mkNode lf p (l1 ++ l2))).
    { subst es. eapply wf_at_remove; exact Hw. }
    destruct tg.
    + cbv zeta. intros H; injection H as <- _ _ _.
      erewrite delEdge_found by eassumption. rewrite Hrem, Hset.
      set (es1 := if g then l1 ++ l2 else l1 ++ mkEdge c n'' :: l2).
      assert (Hw1 : wf_at path (set_edges (mkNode lf p es) es1)).
      { unfold set_edges, es1; cbn [leaf prefix]. destruct g; assumption. }
      destruct (negb b && (length es1 =? 1)
                && negb (isLeaf (set_edges (mkNode lf p es) es1))) eqn:Hm.
      * apply andb_true_iff in Hm. destruct Hm as [Hm _].
        apply andb_true_iff in Hm. destruct Hm as [Hb Hm].
        destruct (wf_at_mergeChild Hw1 Hm) as [q [Hq Hwq]].
        exists q. split; [exact Hq|]. split; [exact Hwq|].
        intros ->. discriminate.
      * exists []. rewrite !app_nil_r. auto.
    + intros H; injection H as <- _ _ _. rewrite Hset.
      exists []. rewrite !app_nil_r. auto.
Qed.

Lemma deletePrefix_wf (n : node) :
  forall path b p n' cleared k,
    wf_at path n ->
    deletePrefix b n p = Some (n', cleared, k) ->
    exists q, prefix n' = prefix n ++ q /\ wf_at (path ++ q) n' /\
              (b = true -> q = []).
Proof.
  induction n as [lf q0 es IH] using node_ind';
    intros path b [|c r] n' cleared k Hw.
  - rewrite deletePrefix_nil. intros H; injection H as <- _ _.
    exists []. cbn [prefix]. rewrite !app_nil_r. split; [reflexivity|].
    split; [|reflexivity].
    constructor; try constructor; try discriminate; intros e [].
  - rewrite deletePrefix_cons; cbn [edges].
    pose proof (wf_at_inv Hw) as [Hs [Hk [Hl Hc]]]. cbn [edges leaf] in *.
    destruct (getEdge es c) as [n0|] eqn:E; [|discriminate].
    child_IH IH E IHn.
    destruct (getEdge_found _ _ E) as [l1 [l2 [Hes [Hset _]]]].
    assert (Hin : In (mkEdge c n0) es) by (eapply getEdge_In; eauto).
    destruct (Hl _ Hin) as [rest Hp0]. cbn [e_node label] in Hp0.
    specialize (Hc _ Hin). cbn [e_node] in Hc.
    destruct (negb (HasPrefix (prefix n0) (c :: r))
              && negb (HasPrefix (c :: r) (prefix n0))); [discriminate|].
    cbv zeta.
    match goal with
    | |- context [deletePrefix false n0 ?x] =>
        destruct (deletePrefix false n0 x) as [[[n'' cl] k']|] eqn:D;
          [|discriminate]
    end.
    destruct (IHn _ _ _ _ _ _ Hc D) as [q1 [Hq1 [Hw1 _]]].
    rewrite Hset. unfold set_edges; cbn [leaf prefix edges].
    assert (Hrep : wf_at path (mkNode lf q0 (l1 ++ mkEdge c n'' :: l2))).
    { subst es. eapply wf_at_replace; [exact Hw| |].
      - rewrite Hq1, Hp0. cbn [app]. eauto.
      - rewrite Hq1, app_assoc. exact Hw1. }
    match goal with
    | |- context [if ?cond then _ else _] => destruct cond eqn:Hm
    end.
    + apply andb_true_iff in Hm. destruct Hm as [Hm _].
      apply andb_true_iff in Hm. destruct Hm as [Hm Hlen].
      apply andb_true_iff in Hm. destruct Hm as [_ Hb].
      intros H; injection H as <- _ _.
      destruct (wf_at_mergeChild Hrep Hlen) as [q [Hq Hwq]].
      exists q. split; [exact Hq|]. split; [exact Hwq|].
      intros ->. discriminate.
    + intros H; injection H as <- _ _.
      exists []. cbn [prefix]. rewrite !app_nil_r. auto.
Qed.

(** Every reachable tree satisfies the invariants [wf_tree]. *)
Lemma reachable_wf (t : Tree) : reachable t -> wf_tree t.
Proof.
  induction 1 as [|t k v t' r _ IH Hins|t k _ IH|t p _ IH].
  - constructor; try constructor; try discriminate; intros e [].
  - destruct (Insert_spec k v IH) as [t'' [Hins' [Hw _]]].
    rewrite Hins in Hins'. injection Hins' as <- _. exact Hw.
  - unfold Delete, wf_tree in *.
    destruct (delete true (root t) k) as [[[[n' g] tg] v]|] eqn:D;
      cbn [fst root]; [|exact IH].
    destruct (delete_wf _ _ IH D) as [q [_ [Hw Hq]]].
    rewrite (Hq eq_refl) in Hw. exact Hw.
  - unfold DeletePrefix, wf_tree in *.
    destruct (deletePrefix true (root t) p) as [[[n' cl] k]|] eqn:D;
      cbn [fst root]; [|exact IH].
    destruct (deletePrefix_wf _ _ IH D) as [q [_ [Hw Hq]]].
    rewrite (Hq eq_refl) in Hw. exact Hw.
Qed.

Lemma insert_all_reachable (l : list (gostring * V)) :
  forall t t', reachable t -> insert_all l t = Some t' -> reachable t'.
Proof.
  induction l as [|[k v] l IH]; intros t t' Hr; simpl.
  - intros H; injection H as <-. exact Hr.
  - destruct (Insert t k v) as [[t1 r]|] eqn:E; [|discriminate].
    apply IH. eapply reach_Insert; eauto.
Qed.

(** C4.  For every tree [t] that the public operations can build, every
    key [k] and every value [v], [Insert(k, v)] returns and a following
    [Get(k)] yields [(v, true)]. *)
Theorem Insert_then_Get (t : Tree) (k : gostring) (v : V) :
  reachable t ->
  exists t' r, Insert t k v = Some (t', r) /\ Get t' k = (Some v, true).
Proof.
  intros Hr. apply reachable_wf in Hr.
  destruct (Insert_spec k v Hr) as [t' [Hins [_ [_ [_ Hget]]]]].
  exists t', (Get t k). split; [exact Hins|].
  rewrite Hget. destruct (gostring_eq_dec k k); [reflexivity|contradiction].
Qed.

(** C5.  For every tree that the public operations can build and every
    prefix [p], the calls that [WalkPrefix(p, visit)] makes to a visitor
    that lets the walk run are: one call for each stored key that has [p]
    as a prefix, with its value, and for no other key, each key once, in
    ascending lexicographic order of the keys.  Any visitor sees these
    calls in this order, up to the first one at which it stops the walk.
    If the descent along [p] fails, no key is visited. *)
Theorem WalkPrefix_visits (t : Tree) (p : gostring) :
  reachable t ->
  let L := WalkPrefix t p record [] in
  (forall k v, In (k, v) L <->
               Get t k = (Some v, true) /\ HasPrefix k p = true) /\
  NoDup (map fst L) /\
  StronglySorted key_lt L /\
  (forall (S : Type) (fn : WalkFn S) (s : S),
     WalkPrefix t p fn s = fst (run_visits fn L s)) /\
  (locate (root t) p = Miss ->
   L = [] /\
   forall (S : Type) (fn : WalkFn S) (s : S), WalkPrefix t p fn s = s).
Proof.
  intros Hr. apply reachable_wf in Hr. revert Hr.
  intros Hw. unfold WalkPrefix, wf_tree, Get in *.
  assert (HL : walkPrefix (root t) p record [] = entries_under (root t) p).
  { rewrite walkPrefix_entries, run_visits_record. reflexivity. }
  cbv zeta. rewrite HL.
  assert (Hsorted : StronglySorted key_lt (entries_under (root t) p)).
  { unfold entries_under. destruct (locate (root t) p) as [|m|m] eqn:E.
    - constructor.
    - destruct (locate_wf _ Hw (or_introl E)) as [path' Hm].
      eapply entries_sorted; eauto.
    - destruct (locate_wf _ Hw (or_intror E)) as [path' Hm].
      eapply entries_sorted; eauto. }
  split; [|split; [|split; [|split]]].
  - intros k v. rewrite (entries_under_get p k v Hw). cbn [app]. split.
    + intros [x [-> H]]. exact H.
    + intros H. exists k. split; [reflexivity|exact H].
  - apply sorted_keys_NoDup. exact Hsorted.
  - exact Hsorted.
  - intros S fn s. apply walkPrefix_entries.
  - intros Hmiss. unfold entries_under. rewrite Hmiss.
    split; [reflexivity|]. intros S fn s.
    rewrite walkPrefix_entries. unfold entries_under. rewrite Hmiss.
    reflexivity.
Qed.

(** *** Invariant 3 under Insert and Delete *)

Lemma compressed_eq (lf : option (LeafNode V)) (p : gostring)
  (es : list edge) :
  compressed (mkNode lf p es) =
  (isLeaf (mkNode lf p es) || (2 <=? length es))
  && forallb (fun e => compressed (e_node e)) es.
Proof. reflexivity. Qed.

Lemma compressed_inv (n : node) :
  compressed n = true ->
  (isLeaf n || (2 <=? length (edges n))) = true /\
  forallb (fun e => compressed (e_node e)) (edges n) = true.
Proof.
  destruct n as [lf p es]. rewrite compressed_eq. cbn [edges].
  apply andb_true_iff.
Qed.

Lemma compressed_intro (n : node) :
  (isLeaf n || (2 <=? length (edges n))) = true ->
  forallb (fun e => compressed (e_node e)) (edges n) = true ->
  compressed n = true.
Proof.
  destruct n as [lf p es]. rewrite compressed_eq. cbn [edges].
  intros H1 H2. rewrite H1, H2. reflexivity.
Qed.

Lemma forallb_middle (A : Type) (P : A -> bool) (l1 l2 : list A) (x : A) :
  forallb P (l1 ++ x :: l2) = P x && forallb P (l1 ++ l2).
Proof.
  rewrite !forallb_app. cbn [forallb].
  destruct (P x), (forallb P l1), (forallb P l2); reflexivity.
Qed.

Lemma length_middle (A : Type) (l1 l2 : list A) (x : A) :
  length (l1 ++ x :: l2) = S (length (l1 ++ l2)).
Proof. rewrite !length_app. simpl. lia. Qed.

Lemma compressed_split_node (n' : node) (s : gostring) (v : V)
  (search : gostring) (cp : nat) :
  compressed n' = true -> compressed (split_node n' s v search cp) = true.
Proof.
  intros H.
  assert (H1 : compressed (set_prefix n' (skipn cp (prefix n'))) = true).
  { destruct n'. exact H. }
  unfold split_node. destruct (skipn cp search) as [|c' r'].
  - unfold set_leaf; cbn [prefix edges]. rewrite compressed_eq.
    rewrite addEdge_forallb. cbn [forallb e_node andb isLeaf leaf orb].
    exact H1.
  - unfold set_edges; cbn [prefix edges leaf]. rewrite compressed_eq.
    rewrite !addEdge_length, !addEdge_forallb.
    cbn [forallb e_node andb isLeaf leaf orb length Nat.leb].
    rewrite H1. reflexivity.
Qed.

(** [Insert] keeps invariant 3 below the node it is applied to, and at
    that node if it held there. *)
Lemma insert_compressed (n : node) :
  forall s v search sz n' sz' r,
    insert n s v search sz = Some (n', sz', r) ->
    forallb (fun e => compressed (e_node e)) (edges n) = true ->
    forallb (fun e => compressed (e_node e)) (edges n') = true /\
    ((isLeaf n || (2 <=? length (edges n))) = true ->
     (isLeaf n' || (2 <=? length (edges n'))) = true).
Proof.
  induction n as [lf p es IH] using node_ind';
    intros s v [|c r] sz n' sz' res.
  - rewrite insert_nil; cbn [leaf edges]. intros H Hall.
    destruct lf; injection H as <- _ _; unfold set_leaf; cbn [edges prefix];
      auto.
  - rewrite insert_cons; cbn [edges].
    destruct (getEdge es c) as [n0|] eqn:E.
    + child_IH IH E IHn.
      destruct (getEdge_found _ _ E) as [l1 [l2 [Hes [Hset _]]]].
      intros H Hall. rewrite Hes, forallb_middle in Hall. cbn [e_node] in Hall.
      apply andb_true_iff in Hall. destruct Hall as [Hn0 Hrest].
      assert (Hgoal : forall nd, compressed nd = true ->
                forallb (fun e => compressed (e_node e))
                  (edges (set_edges (mkNode lf p es)
                            (set_node es (search_idx es c) nd))) = true /\
                ((isLeaf (mkNode lf p es) || (2 <=? length es)) = true ->
                 (isLeaf (set_edges (mkNode lf p es)
                            (set_node es (search_idx es c) nd))
                  || (2 <=? length (edges (set_edges (mkNode lf p es)
                            (set_node es (search_idx es c) nd))))) = true)).
      { intros nd Hnd. rewrite Hset. unfold set_edges; cbn [edges leaf prefix].
        rewrite forallb_middle. cbn [e_node]. rewrite Hnd, Hrest.
        split; [reflexivity|].
        rewrite Hes, !length_middle. unfold isLeaf; cbn [leaf]. auto. }
      destruct (HasPrefix (c :: r) (prefix n0)).
      * destruct (insert n0 s v (skipn (length (prefix n0)) (c :: r)) sz)
          as [[[n'' sz''] res'']|] eqn:D; [|discriminate].
        injection H as <- _ _.
        apply compressed_inv in Hn0. destruct Hn0 as [Hn1 Hn2].
        destruct (IHn _ _ _ _ _ _ _ D Hn2) as [G1 G2].
        apply Hgoal. apply compressed_intro; auto.
      * injection H as <- _ _. apply Hgoal.
        apply compressed_split_node. exact Hn0.
    + intros H Hall. injection H as <- _ _.
      unfold set_edges; cbn [edges leaf prefix].
      rewrite addEdge_forallb, addEdge_length, Hall. cbn [e_node].
      split; [reflexivity|].
      unfold isLeaf; cbn [leaf]. destruct lf; [reflexivity|].
      cbn [orb]. destruct es as [|? [|? ?]]; simpl; auto.
Qed.

Lemma compressed_mergeChild (n : node) :
  forallb (fun e => compressed (e_node e)) (edges n) = true ->
  (length (edges n) =? 1) = true ->
  compressed (mergeChild n) = true.
Proof.
  destruct n as [lf p es]. cbn [edges]. intros Hall Hlen.
  destruct es as [|e [|e' es]]; try discriminate.
  cbn [forallb] in Hall. rewrite andb_true_r in Hall.
  unfold mergeChild; cbn [edges prefix].
  destruct (e_node e) as [lf' p' es']. exact Hall.
Qed.

(** Only the target of [Delete] is reported as having lost its last
    edge. *)
Lemma delete_gone_target (n : node) (b : bool) (s : gostring) (n' : node)
  (target : bool) (v : V) :
  delete b n s = Some (n', true, target, v) -> target = true.
Proof.
  destruct s as [|c r].
  - rewrite delete_nil. destruct (leaf n); [|discriminate].
    intros H; injection H as _ _ <- _. reflexivity.
  - rewrite delete_cons. destruct (getEdge (edges n) c) as [n0|]; [|discriminate].
    destruct (HasPrefix (c :: r) (prefix n0)); [|discriminate].
    destruct (delete false n0 (skipn (length (prefix n0)) (c :: r)))
      as [[[[n'' g] tg] v']|]; [|discriminate].
    destruct tg; cbv zeta; discriminate.
Qed.

(** [Delete] keeps invariant 3: below the node it is applied to, and at
    that node if it held there and the node stays in the tree. *)
Lemma delete_compressed (n : node) :
  forall b s n' gone target v,
    delete b n s = Some (n', gone, target, v) ->
    forallb (fun e => compressed (e_node e)) (edges n) = true ->
    (b = false -> (isLeaf n || (2 <=? length (edges n))) = true) ->
    forallb (fun e => compressed (e_node e)) (edges n') = true /\
    (b = false -> gone = false -> compressed n' = true).
Proof.
  induction n as [lf p es IH] using node_ind';
    intros b [|c r] n' gone target v.
  - rewrite delete_nil; cbn [leaf edges].
    destruct lf as [lf|]; [|discriminate].
    intros H Hall _. injection H as <- <- _ _.
    destruct (negb b && (length es =? 1)) eqn:Hm.
    + apply andb_true_iff in Hm. destruct Hm as [_ Hm].
      assert (Hc : compressed (mergeChild (set_leaf (mkNode (Some lf) p es) None))
                   = true) by (apply compressed_mergeChild; assumption).
      split; [apply compressed_inv in Hc; apply Hc|auto].
    + unfold set_leaf; cbn [edges prefix]. split; [exact Hall|].
      intros -> Hg. cbn [negb andb] in Hm.
      apply compressed_intro; cbn [edges]; [|exact Hall].
      unfold isLeaf; cbn [leaf orb].
      destruct es as [|? [|? ?]]; simpl in *; auto; discriminate.
  - rewrite delete_cons; cbn [edges].
    destruct (getEdge es c) as [n0|] eqn:E; [|discriminate].
    child_IH IH E IHn.
    destruct (getEdge_found _ _ E) as [l1 [l2 [Hes [Hset Hrem]]]].
    destruct (HasPrefix (c :: r) (prefix n0)); [|discriminate].
    destruct (delete false n0 (skipn (length (prefix n0)) (c :: r)))
      as [[[[n'' g] tg] v']|] eqn:D; [|discriminate].
    intros H Hall Hroot.
    pose proof Hall as Hall'. rewrite Hes, forallb_middle in Hall'.
    cbn [e_node] in Hall'. apply andb_true_iff in Hall'.
    destruct Hall' as [Hn0 Hrest].
    apply compressed_inv in Hn0. destruct Hn0 as [Hn1 Hn2].
    destruct (IHn _ _ _ _ _ _ D Hn2 (fun _ => Hn1)) as [G1 G2].
    specialize (G2 eq_refl).
    set (es1 := if (g && tg)%bool then l1 ++ l2 else l1 ++ mkEdge c n'' :: l2).
    assert (Hes1 : forallb (fun e => compressed (e_node e)) es1 = true).
    { unfold es1. destruct (g && tg)%bool eqn:Hg; [exact Hrest|].
      rewrite forallb_middle. cbn [e_node]. rewrite Hrest, andb_true_r.
      apply G2. destruct g; [|reflexivity].
      rewrite (@delete_gone_target n0 false _ n'' tg v' D) in Hg.
      discriminate. }
    assert (Hlen : length es <= S (length es1)).
    { unfold es1. rewrite Hes, length_middle.
      destruct (g && tg)%bool; [|rewrite length_middle]; lia. }
    assert (Hfin : forall p1,
               p1 = set_edges (mkNode lf p es) es1 ->
               forall p2,
                 p2 = (if negb b && (length es1 =? 1) && negb (isLeaf p1)
                       then mergeChild p1 else p1) ->
                 tg = true ->
                 forallb (fun e => compressed (e_node e)) (edges p2) = true /\
                 (b = false -> compressed p2 = true)).
    { intros p1 -> p2 -> Htg.
      destruct (negb b && (length es1 =? 1)
                && negb (isLeaf (set_edges (mkNode lf p es) es1))) eqn:Hm.
      - apply andb_true_iff in Hm. destruct Hm as [Hm _].
        apply andb_true_iff in Hm. destruct Hm as [_ Hm].
        assert (Hc : compressed (mergeChild (set_edges (mkNode lf p es) es1))
                     = true) by (apply compressed_mergeChild; assumption).
        split; [apply compressed_inv in Hc; apply Hc|auto].
      - unfold set_edges in *; cbn [edges leaf prefix] in *.
        split; [exact Hes1|]. intros ->. specialize (Hroot eq_refl).
        apply compressed_intro; cbn [edges]; [|exact Hes1].
        unfold isLeaf in *; cbn [leaf] in *. cbn [negb andb] in Hm.
        destruct lf as [lf|]; [reflexivity|]. cbn [orb negb] in *.
        rewrite andb_true_r in Hm. apply Nat.eqb_neq in Hm.
        apply Nat.leb_le in Hroot. apply Nat.leb_le. lia. }
    destruct tg.
    + cbv zeta in H. injection H as <- <- _ _.
      erewrite delEdge_found in * by eassumption.
      rewrite Hrem, Hset in *.
      unfold es1 in Hfin. rewrite andb_true_r in Hfin.
      destruct (Hfin _ eq_refl _ eq_refl eq_refl) as [F1 F2].
      split; [exact F1|]. intros Hb _. exact (F2 Hb).
    + injection H as <- <- _ _. rewrite Hset.
      unfold es1 in Hes1, Hlen. rewrite andb_false_r in Hes1, Hlen.
      unfold set_edges; cbn [edges leaf prefix].
      split; [exact Hes1|]. intros -> _. specialize (Hroot eq_refl).
      apply compressed_intro; cbn [edges]; [|exact Hes1].
      rewrite length_middle in *. rewrite Hes, length_middle in Hroot.
      exact Hroot.
Qed.

(** Without [DeletePrefix], invariant 3 holds of every tree: [Insert] and
    [Delete] restore it. *)
Lemma Insert_Delete_invariant3 (t : Tree) :
  reachable_Insert_Delete t -> invariant3 t = true.
Proof.
  unfold invariant3.
  induction 1 as [|t k v t' r _ IH Hins|t k _ IH].
  - reflexivity.
  - unfold Insert in Hins.
    destruct (insert (root t) k v k (size t)) as [[[n' sz'] res]|] eqn:D;
      [|discriminate].
    injection Hins as <- _. cbn [root].
    apply (insert_compressed _ _ _ _ _ D IH).
  - unfold Delete.
    destruct (delete true (root t) k) as [[[[n' g] tg] v]|] eqn:D;
      cbn [fst root]; [|exact IH].
    apply (delete_compressed _ _ D IH). discriminate.
Qed.

(** C1.  The trees that [Insert] and [DeletePrefix] build are evaluated
    here: after [Insert("a")], [Insert("b")] the invariant holds; after
    [DeletePrefix("a")] the node under [a] is still attached to the root,
    without a stored entry and without children, while [b] is still
    stored; a further [Insert("ab")] gives that node exactly one child and
    no stored entry. *)
Theorem DeletePrefix_leaves_empty_node (v1 v2 v3 : V) :
  exists t2 t3 t4,
    insert_all [(str "a", v1); (str "b", v2)] (New V) = Some t2 /\
    invariant3 t2 = true /\
    DeletePrefix t2 (str "a") = (t3, 1%Z) /\
    getEdge (edges (root t3)) "a"%char = Some (mkNode None (str "a") []) /\
    Get t3 (str "b") = (Some v2, true) /\
    invariant3 t3 = false /\
    Insert t3 (str "ab") v3 = Some (t4, (None, false)) /\
    getEdge (edges (root t4)) "a"%char =
      Some (mkNode None (str "a")
              [mkEdge "b"%char
                 (mkNode (Some (mkLeaf (str "ab") v3)) (str "b") [])]) /\
    invariant3 t4 = false.
Proof.
  do 3 eexists.
  split; [vm_compute; reflexivity|].
  split; [vm_compute; reflexivity|].
  split; [vm_compute; reflexivity|].
  split; [vm_compute; reflexivity|].
  split; [vm_compute; reflexivity|].
  split; [vm_compute; reflexivity|].
  split; [vm_compute; reflexivity|].
  split; vm_compute; reflexivity.
Qed.

End Facts.

(** * Further properties of the code *)

(** ** The string helper and the edge table *)

(** X1.  [longestPrefix(k1, k2)] is the length of the longest common
    prefix: it exceeds neither length, the two strings agree on that many
    bytes, and where both go on, their next bytes differ. *)
Theorem longestPrefix_is_common_prefix (k1 k2 : gostring) :
  longestPrefix k1 k2 <= length k1 /\
  longestPrefix k1 k2 <= length k2 /\
  firstn (longestPrefix k1 k2) k1 = firstn (longestPrefix k1 k2) k2 /\
  (forall c d r1 r2,
     skipn (longestPrefix k1 k2) k1 = c :: r1 ->
     skipn (longestPrefix k1 k2) k2 = d :: r2 -> c <> d).
Proof.
  split; [apply longestPrefix_le|]. split; [apply longestPrefix_le|].
  split; [apply longestPrefix_firstn|].
  intros c d r1 r2 H1 H2. eapply longestPrefix_differ; eauto.
Qed.

Section EdgeTableUse.
Variable N : Type.
Local Abbreviation edge := (edge_of N).

(** X2.  On a table whose labels are sorted and unique, the binary search
    of [getEdge] finds an edge exactly when the table holds it, and
    returns [nil] exactly when no edge carries the label. *)
Theorem getEdge_finds_edges (es : list edge) (c : ascii) :
  labels_sorted es ->
  (forall n, getEdge es c = Some n <-> In (mkEdge c n) es) /\
  (getEdge es c = None <-> forall e, In e es -> label e <> c).
Proof.
  intros Hs. split.
  - intros n. apply getEdge_sorted. exact Hs.
  - apply getEdge_sorted_None. exact Hs.
Qed.

(** X3.  [addEdge] of an edge whose label is not in a sorted table gives a
    sorted table with one more edge, in which [getEdge] finds the new
    edge under its label and answers as before under every other. *)
Theorem addEdge_keeps_table (es : list edge) (e : edge) :
  labels_sorted es ->
  getEdge es (label e) = None ->
  labels_sorted (addEdge es e) /\
  length (addEdge es e) = S (length es) /\
  getEdge (addEdge es e) (label e) = Some (e_node e) /\
  (forall c, c <> label e -> getEdge (addEdge es e) c = getEdge es c).
Proof.
  intros Hs Hnone. destruct e as [l nd]. cbn [label e_node] in *.
  split; [|split; [|split]].
  - apply addEdge_sorted; auto. apply (getEdge_sorted_None l Hs). exact Hnone.
  - apply addEdge_length.
  - apply getEdge_addEdge_same; assumption.
  - intros c Hc. apply getEdge_addEdge_other; assumption.
Qed.

(** X4.  [delEdge] on a sorted table leaves a sorted table without the
    label and with every other edge as it was; if the label is absent
    the table is returned as it is. *)
Theorem delEdge_removes_label (es : list edge) (c : ascii) :
  labels_sorted es ->
  labels_sorted (delEdge es c) /\
  getEdge (delEdge es c) c = None /\
  (forall c', c' <> c -> getEdge (delEdge es c) c' = getEdge es c') /\
  (getEdge es c = None -> delEdge es c = es) /\
  (forall n, getEdge es c = Some n -> S (length (delEdge es c)) = length es).
Proof.
  intros Hs.
  destruct (getEdge es c) as [n|] eqn:E.
  - destruct (getEdge_found _ _ E) as [l1 [l2 [Hes [_ Hrem]]]].
    rewrite (delEdge_found _ _ E), Hrem. rewrite Hes in Hs.
    split; [eapply labels_sorted_remove; exact Hs|].
    split; [eapply getEdge_remove_same; exact Hs|].
    split; [|split; [discriminate|]].
    + intros c' Hc'. rewrite Hes. eapply getEdge_remove_other; eauto.
    + intros _ _. rewrite Hes, !length_app. simpl. lia.
  - assert (Hdel : delEdge es c = es).
    { unfold delEdge. unfold getEdge in E.
      destruct (nth_error es (search_idx es c)) as [e|]; auto.
      destruct (Ascii.eqb (label e) c); [discriminate|reflexivity]. }
    rewrite Hdel. repeat split; auto. discriminate.
Qed.

(** X5.  [updateEdge] panics exactly when [getEdge] finds no edge under
    the label; otherwise the table keeps its labels and its length,
    [getEdge] finds the new node under the label and answers as before
    under every other. *)
Theorem updateEdge_replaces_node (es : list edge) (c : ascii) (nd : N) :
  labels_sorted es ->
  (updateEdge es c nd = None <-> getEdge es c = None) /\
  (forall es', updateEdge es c nd = Some es' ->
     labels_sorted es' /\
     map (@label N) es' = map (@label N) es /\
     getEdge es' c = Some nd /\
     (forall c', c' <> c -> getEdge es' c' = getEdge es c')).
Proof.
  intros Hs.
  destruct (getEdge es c) as [n|] eqn:E.
  - rewrite (updateEdge_found _ _ nd E).
    destruct (getEdge_found _ _ E) as [l1 [l2 [Hes [Hset _]]]].
    rewrite Hset. split; [split; discriminate|].
    intros es' H; injection H as <-. rewrite Hes in Hs.
    split; [eapply labels_sorted_replace; [|exact Hs]; reflexivity|].
    split; [rewrite Hes, !map_app; reflexivity|].
    split; [eapply getEdge_replace_same; exact Hs|].
    intros c' Hc'. rewrite Hes. eapply getEdge_replace_other; eauto.
  - assert (Hup : updateEdge es c nd = None).
    { unfold updateEdge. unfold getEdge in E.
      destruct (nth_error es (search_idx es c)) as [e|]; auto.
      destruct (Ascii.eqb (label e) c); [discriminate|reflexivity]. }
    rewrite Hup. split; [split; reflexivity|discriminate].
Qed.

End EdgeTableUse.

Section MoreFacts.
Context {V : Type}.
Local Abbreviation node := (node V).
Local Abbreviation Tree := (Tree V).
Local Abbreviation edge := (edge_of node).

Ltac child_hyp IH E IHn :=
  pose proof (@Forall_getEdge _ _ _ _ _ IH E) as IHn;
  cbn beta iota delta [e_node label] in IHn.

(** ** Insert *)

(** X6.  On every tree, well formed or not, [Insert] returns without
    reaching the panic of [updateEdge]; it returns what [Get] returned
    for the key before the call, leaves the counter alone if the key was
    stored and increments it otherwise, and the number of stored entries
    moves with it. *)
Theorem Insert_returns_previous (t : Tree) (k : gostring) (v : V) :
  exists t',
    Insert t k v = Some (t', Get t k) /\
    size t' = (if snd (Get t k) then size t else int_wrap (size t + 1)) /\
    count_stored (root t') =
      count_stored (root t) + (if snd (Get t k) then 0 else 1).
Proof.
  unfold Insert, Get.
  destruct (insert_result (root t) k v k (size t)) as [n' [Hins [_ Hc]]].
  rewrite Hins. eexists; split; [reflexivity|]. cbn [root size]. auto.
Qed.

(** X7.  On a tree built by the public operations, [Insert(k, v)] changes
    what [Get] answers for [k] only: every other key is answered as
    before. *)
Theorem Insert_leaves_other_keys (t t' : Tree) (k : gostring) (v : V)
  (r : option V * bool) :
  reachable t ->
  Insert t k v = Some (t', r) ->
  forall k', k' <> k -> Get t' k' = Get t k'.
Proof.
  intros Hr Hins k' Hne. apply reachable_wf in Hr.
  destruct (Insert_spec k v Hr) as [t'' [Hins' [_ [_ [_ Hget]]]]].
  rewrite Hins in Hins'. injection Hins' as <- _.
  rewrite Hget. destruct (gostring_eq_dec k' k); [contradiction|reflexivity].
Qed.

(** ** Invariants *)

(** X8.  The new tree satisfies the invariants [wf_tree] (labels sorted
    and unique in every table, every label the first byte of its child's
    prefix, every stored key the concatenation of the prefixes on the way
    to its node), and [Insert], [Delete] and [DeletePrefix] each take a
    tree that satisfies them to one that does. *)
Theorem mutations_keep_invariants (t : Tree) :
  wf_tree t ->
  (forall k v t' r, Insert t k v = Some (t', r) -> wf_tree t') /\
  (forall k, wf_tree (fst (Delete t k))) /\
  (forall p, wf_tree (fst (DeletePrefix t p))).
Proof.
  intros Hw. split; [|split].
  - intros k v t' r Hins.
    destruct (Insert_spec k v Hw) as [t'' [Hins' [Hw' _]]].
    rewrite Hins in Hins'. injection Hins' as <- _. exact Hw'.
  - intros k. unfold Delete, wf_tree in *.
    destruct (delete true (root t) k) as [[[[n' g] tg] v]|] eqn:D;
      cbn [fst root]; [|exact Hw].
    destruct (delete_wf _ _ Hw D) as [q [_ [Hw' Hq]]].
    rewrite (Hq eq_refl) in Hw'. exact Hw'.
  - intros p. unfold DeletePrefix, wf_tree in *.
    destruct (deletePrefix true (root t) p) as [[[n' cl] k]|] eqn:D;
      cbn [fst root]; [|exact Hw].
    destruct (deletePrefix_wf _ _ Hw D) as [q [_ [Hw' Hq]]].
    rewrite (Hq eq_refl) in Hw'. exact Hw'.
Qed.

(** X9.  [Insert] and [Delete] keep invariant 3: if every node other than
    the root has a stored entry or at least two children, the same holds
    after either call. *)
Theorem Insert_Delete_keep_invariant3 (t : Tree) :
  invariant3 t = true ->
  (forall k v t' r, Insert t k v = Some (t', r) -> invariant3 t' = true) /\
  (forall k, invariant3 (fst (Delete t k)) = true).
Proof.
  unfold invariant3. intros H. split.
  - intros k v t' r Hins. unfold Insert in Hins.
    destruct (insert (root t) k v k (size t)) as [[[n' sz'] res]|] eqn:D;
      [|discriminate].
    injection Hins as <- _. cbn [root].
    apply (insert_compressed _ _ _ _ _ D H).
  - intros k. unfold Delete.
    destruct (delete true (root t) k) as [[[[n' g] tg] v]|] eqn:D;
      cbn [fst root]; [|exact H].
    apply (delete_compressed _ _ D H). discriminate.
Qed.

(** ** Delete *)

Lemma get_cons_look (n : node) (c : ascii) (r : gostring) :
  get n (c :: r) =
  match getEdge (edges n) c with
  | Some n' => look n' (c :: r)
  | None => (None, false)
  end.
Proof. rewrite get_cons. reflexivity. Qed.

Lemma look_app (n : node) (x : gostring) :
  look n (prefix n ++ x) = get n x.
Proof. unfold look. rewrite HasPrefix_app, skipn_length_app. reflexivity. Qed.

Lemma look_None (n : node) (x : gostring) :
  HasPrefix x (prefix n) = false -> look n x = (None, false).
Proof. unfold look. intros ->. reflexivity. Qed.

(** A string is below an edge either not at all or as the prefix of the
    child followed by a rest. *)
Lemma look_cases (n : node) (x : gostring) :
  (HasPrefix x (prefix n) = false /\ look n x = (None, false)) \/
  (exists y, x = prefix n ++ y /\ look n x = get n y).
Proof.
  destruct (HasPrefix x (prefix n)) eqn:H.
  - right. apply HasPrefix_true in H. destruct H as [y ->].
    exists y. split; [reflexivity|apply look_app].
  - left. split; [reflexivity|apply look_None; exact H].
Qed.

Lemma get_no_leaf_no_edges (p x : gostring) :
  get (mkNode (@None (LeafNode V)) p []) x = (None, false).
Proof.
  destruct x; [rewrite get_nil|rewrite get_cons]; cbn [leaf edges];
    rewrite ?getEdge_nil; reflexivity.
Qed.

(** Merging a node without a stored entry into its only child does not
    change what is found below the edge to it. *)
Lemma look_mergeChild (path : gostring) (n : node) :
  wf_at path n -> leaf n = None -> (length (edges n) =? 1) = true ->
  forall x, look (mergeChild n) x = look n x.
Proof.
  intros Hw Hlf Hlen x. apply wf_at_inv in Hw. destruct Hw as [Hs [_ [Hl _]]].
  destruct n as [lf p es]. cbn [leaf edges prefix] in *. subst lf.
  destruct es as [|[c ch] [|e' es]]; try discriminate.
  destruct (Hl _ (or_introl eq_refl)) as [rest Hp]. cbn [e_node label] in Hp.
  unfold mergeChild; cbn [edges prefix e_node].
  destruct (look_cases (mkNode None p [mkEdge c ch]) x) as [[H1 ->]|[y [-> ->]]];
    cbn [prefix] in *.
  - apply look_None. cbn [prefix].
    destruct (HasPrefix x (p ++ prefix ch)) eqn:H2; auto.
    rewrite (HasPrefix_trans x (p ++ prefix ch) p H2 (HasPrefix_app _ _)) in H1.
    discriminate.
  - unfold look; cbn [prefix]. rewrite HasPrefix_app_app.
    replace (skipn (length (p ++ prefix ch)) (p ++ y))
      with (skipn (length (prefix ch)) y).
    2:{ rewrite length_app, skipn_app.
        rewrite (@skipn_all2 _ (length p + length (prefix ch)) p) by lia.
        replace (length p + length (prefix ch) - length p)
          with (length (prefix ch)) by lia.
        reflexivity. }
    assert (Hch : forall z, get (mkNode (leaf ch) (p ++ prefix ch) (edges ch)) z
                            = get ch z).
    { intros z. destruct ch as [lf' p' es']. cbn [leaf edges].
      destruct z; [rewrite !get_nil|rewrite !get_cons]; reflexivity. }
    rewrite Hch.
    destruct y as [|d y'].
    + rewrite get_nil; cbn [leaf]. rewrite Hp. reflexivity.
    + rewrite get_cons; cbn [edges].
      destruct (Ascii.eqb_spec d c) as [->|Hd].
      * replace (getEdge [mkEdge c ch] c) with (Some ch); [reflexivity|].
        symmetry. apply getEdge_sorted; [exact Hs|left; reflexivity].
      * replace (getEdge [mkEdge c ch] d) with (@None node).
        -- rewrite Hp, HasPrefix_cons_neq by assumption. reflexivity.
        -- symmetry. apply getEdge_sorted_None; [exact Hs|].
           intros z [<-|[]]; cbn [label]; congruence.
Qed.

(** A change of the lookups below a node, seen through the edge to it. *)
Lemma look_of_get_key (n n1 : node) (s : gostring) :
  prefix n1 = prefix n ->
  (forall y, get n1 y =
             if gostring_eq_dec y s then (None, false) else get n y) ->
  forall x, look n1 x =
            if gostring_eq_dec x (prefix n ++ s) then (None, false)
            else look n x.
Proof.
  intros Hp Hg x. unfold look. rewrite Hp.
  destruct (HasPrefix x (prefix n)) eqn:H.
  - apply HasPrefix_true in H. destruct H as [y ->].
    rewrite skipn_length_app, Hg.
    destruct (gostring_eq_dec y s) as [Hy|Hy];
      destruct (gostring_eq_dec (prefix n ++ y) (prefix n ++ s)) as [Hq|Hq];
      auto; exfalso.
    + apply Hq. rewrite Hy. reflexivity.
    + apply Hy. apply app_inv_head in Hq. exact Hq.
  - destruct (gostring_eq_dec x (prefix n ++ s)); reflexivity.
Qed.

(** Where [Get] finds the key, [Delete] reaches the code under
    [DELETE:]. *)
Lemma delete_present (n : node) :
  forall b s v,
    get n s = (Some v, true) ->
    exists n' gone target, delete b n s = Some (n', gone, target, v).
Proof.
  induction n as [lf p es IH] using node_ind'; intros b [|c r] v.
  - rewrite get_nil, delete_nil; cbn [leaf].
    destruct lf as [lf|]; [|discriminate].
    intros H; injection H as <-. eauto.
  - rewrite get_cons, delete_cons; cbn [edges].
    destruct (getEdge es c) as [n0|] eqn:E; [|discriminate].
    child_hyp IH E IHn.
    destruct (HasPrefix (c :: r) (prefix n0)); [|discriminate].
    intros H. destruct (IHn false _ _ H) as [n'' [g [tg ->]]].
    destruct tg; cbv zeta; eauto.
Qed.

(** What [Delete] does to the lookups below a node: below the root
    ([b = true]) in terms of [get], below any other node in terms of the
    lookups through the edge to it. *)
Lemma delete_spec (n : node) :
  forall path b s n' gone target v,
    wf_at path n ->
    delete b n s = Some (n', gone, target, v) ->
    get n s = (Some v, true) /\
    (gone = true -> s = [] /\ edges n = []) /\
    (b = true -> forall x,
       get n' x = if gostring_eq_dec x s then (None, false) else get n x) /\
    (b = false -> gone = false -> forall x,
       look n' x =
       if gostring_eq_dec x (prefix n ++ s) then (None, false) else look n x).
Proof.
  induction n as [lf p es IH] using node_ind';
    intros path b [|c r] n' gone target v Hw.
  - rewrite delete_nil, get_nil; cbn [leaf edges].
    destruct lf as [lf|]; [|discriminate].
    intros H; injection H as <- <- _ <-.
    set (n1 := set_leaf (mkNode (Some lf) p es) None).
    assert (Hn1 : forall x, get n1 x =
                  if gostring_eq_dec x [] then (None, false)
                  else get (mkNode (Some lf) p es) x).
    { intros [|d x]; [rewrite !get_nil|rewrite !get_cons];
        unfold n1, set_leaf; cbn [leaf edges prefix].
      - destruct (gostring_eq_dec [] []); [reflexivity|contradiction].
      - destruct (gostring_eq_dec (d :: x) []); [discriminate|reflexivity]. }
    assert (Hw1 : wf_at path n1).
    { apply wf_at_inv in Hw. destruct Hw as [Hs [Hk [Hl Hc]]].
      constructor; auto. discriminate. }
    assert (Hlook1 : forall x, look n1 x =
                     if gostring_eq_dec x (p ++ []) then (None, false)
                     else look (mkNode (Some lf) p es) x).
    { apply (@look_of_get_key (mkNode (Some lf) p es) n1 []);
        [reflexivity|exact Hn1]. }
    split; [reflexivity|]. split; [|split].
    + intros Hg. apply Nat.eqb_eq in Hg. split; [reflexivity|].
      destruct es; [reflexivity|discriminate].
    + intros ->. cbn [negb andb]. exact Hn1.
    + intros -> Hg. cbn [negb andb prefix].
      destruct (length es =? 1) eqn:Hlen; [|exact Hlook1].
      intros x. rewrite (look_mergeChild Hw1 eq_refl Hlen). apply Hlook1.
  - rewrite delete_cons, get_cons; cbn [edges].
    pose proof (wf_at_inv Hw) as [Hs [Hk [Hl Hc]]]. cbn [edges leaf] in *.
    destruct (getEdge es c) as [n0|] eqn:E; [|discriminate].
    child_hyp IH E IHn.
    destruct (getEdge_found _ _ E) as [l1 [l2 [Hes [Hset Hrem]]]].
    assert (Hin : In (mkEdge c n0) es) by (eapply getEdge_In; eauto).
    destruct (Hl _ Hin) as [rest Hp0]. cbn [e_node label] in Hp0.
    specialize (Hc _ Hin). cbn [e_node] in Hc.
    destruct (HasPrefix (c :: r) (prefix n0)) eqn:Hhp; [|discriminate].
    pose proof (HasPrefix_skipn _ _ Hhp) as Hs0.
    set (s0 := skipn (length (prefix n0)) (c :: r)) in *.
    destruct (delete false n0 s0) as [[[[n'' g] tg] v']|] eqn:D;
      [|discriminate].
    destruct (IHn _ _ _ _ _ _ _ Hc D) as [Hget [Hgone [_ Hlook]]].
    specialize (Hlook eq_refl).
    destruct (delete_wf _ _ Hc D) as [q0 [Hq0 [Hw0 _]]].
    set (es1 := if g then l1 ++ l2 else l1 ++ mkEdge c n'' :: l2).
    intros H.
    assert (Hshape : exists p2,
               Some (p2, false, false, v') = Some (n', gone, target, v) /\
               (p2 = set_edges (mkNode lf p es) es1 \/
                (b = false /\
                 leaf (set_edges (mkNode lf p es) es1) = None /\
                 (length es1 =? 1) = true /\
                 p2 = mergeChild (set_edges (mkNode lf p es) es1)))).
    { destruct tg.
      - cbv zeta in H. erewrite delEdge_found in H by eassumption.
        rewrite Hrem, Hset in H. fold es1 in H.
        destruct (negb b && (length es1 =? 1)
                  && negb (isLeaf (set_edges (mkNode lf p es) es1))) eqn:Hm.
        + apply andb_true_iff in Hm. destruct Hm as [Hm Hlf].
          apply andb_true_iff in Hm. destruct Hm as [Hb Hlen].
          apply negb_true_iff in Hlf, Hb.
          eexists. split; [exact H|]. right.
          repeat split; auto.
          unfold isLeaf in Hlf.
          destruct (leaf (set_edges (mkNode lf p es) es1)); [discriminate|].
          reflexivity.
        + eexists. split; [exact H|]. left; reflexivity.
      - rewrite Hset in H.
        assert (g = false) as Hg.
        { destruct g; [|reflexivity].
          pose proof (@delete_gone_target _ n0 false s0 n'' false v' D).
          discriminate. }
        unfold es1. rewrite Hg.
        eexists. split; [exact H|]. left; reflexivity. }
    clear H. destruct Hshape as [p2 [Heq Hp2]].
    injection Heq as <- <- _ <-.
    assert (HG : forall x,
               get (set_edges (mkNode lf p es) es1) x =
               if gostring_eq_dec x (c :: r) then (None, false)
               else get (mkNode lf p es) x).
    { intros [|d x]; [rewrite !get_nil|rewrite !get_cons_look];
        unfold set_edges; cbn [leaf edges prefix].
      - destruct (gostring_eq_dec [] (c :: r)); [discriminate|reflexivity].
      - rewrite Hes in Hs.
        destruct (Ascii.eqb_spec d c) as [->|Hd].
        + rewrite E. unfold es1. destruct g.
          * rewrite (@getEdge_remove_same _ l1 l2 c n0 Hs).
            destruct (Hgone eq_refl) as [Hs0nil Hedges].
            destruct (gostring_eq_dec (c :: x) (c :: r)); [reflexivity|].
            destruct (look_cases n0 (c :: x)) as [[_ ->]|[y [Hy ->]]];
              [reflexivity|].
            destruct y as [|d' y']; [|rewrite get_cons, Hedges, getEdge_nil;
                                      reflexivity].
            exfalso. apply n. rewrite Hy, Hs0, Hs0nil. reflexivity.
          * rewrite (@getEdge_replace_same _ l1 l2 c n0 n'' Hs).
            rewrite (Hlook eq_refl), <- Hs0. reflexivity.
        + unfold es1. rewrite Hes.
          destruct (gostring_eq_dec (d :: x) (c :: r)); [congruence|].
          destruct g.
          * rewrite (@getEdge_remove_other _ l1 l2 c d n0 Hs Hd). reflexivity.
          * rewrite (@getEdge_replace_other _ l1 l2 c d n0 n'' Hs Hd).
            reflexivity. }
    assert (Hw1 : wf_at path (set_edges (mkNode lf p es) es1)).
    { unfold set_edges, es1; cbn [leaf prefix]. subst es. destruct g.
      - eapply wf_at_remove; exact Hw.
      - eapply wf_at_replace; [exact Hw| |].
        + rewrite Hq0, Hp0. cbn [app]. eauto.
        + rewrite Hq0, app_assoc. exact Hw0. }
    assert (HL : forall x,
               look (set_edges (mkNode lf p es) es1) x =
               if gostring_eq_dec x (p ++ c :: r) then (None, false)
               else look (mkNode lf p es) x).
    { apply (@look_of_get_key (mkNode lf p es)
               (set_edges (mkNode lf p es) es1) (c :: r));
        [reflexivity|exact HG]. }
    split; [exact Hget|].
    split; [discriminate|]. split.
    + intros ->. destruct Hp2 as [->|[Hb _]]; [exact HG|discriminate].
    + intros _ _. cbn [prefix].
      destruct Hp2 as [->|[_ [Hlf [Hlen ->]]]]; [exact HL|].
      intros x. rewrite (look_mergeChild Hw1 Hlf Hlen). apply HL.
Qed.

(** X10.  On a tree built by the public operations, [Delete] of a stored
    key returns the stored value with [true] and decrements the counter;
    afterwards [Get] no longer finds the key and answers for every other
    key as before. *)
Theorem Delete_removes_key (t : Tree) (k : gostring) (v : V) :
  reachable t ->
  Get t k = (Some v, true) ->
  exists t',
    Delete t k = (t', (Some v, true)) /\
    size t' = int_wrap (size t - 1) /\
    S (count_stored (root t')) = count_stored (root t) /\
    Get t' k = (None, false) /\
    forall k', k' <> k -> Get t' k' = Get t k'.
Proof.
  intros Hr Hget. apply reachable_wf in Hr. unfold Get, Delete, wf_tree in *.
  destruct (delete_present (root t) true k Hget) as [n' [g [tg D]]].
  rewrite D. eexists; split; [reflexivity|]. cbn [size root].
  destruct (delete_spec _ _ Hr D) as [_ [_ [Hroot _]]].
  specialize (Hroot eq_refl).
  destruct (@delete_count _ _ _ _ _ _ _ _ D) as [Hc _].
  split; [reflexivity|]. split; [lia|]. split.
  - rewrite Hroot. destruct (gostring_eq_dec k k); [reflexivity|contradiction].
  - intros k' Hne. rewrite Hroot.
    destruct (gostring_eq_dec k' k); [contradiction|reflexivity].
Qed.

(** ** DeletePrefix *)

Lemma look_of_get_prefix (n n1 : node) (s : gostring) :
  prefix n1 = prefix n ->
  (forall y, get n1 y = if HasPrefix y s then (None, false) else get n y) ->
  forall x, look n1 x =
            if HasPrefix x (prefix n ++ s) then (None, false) else look n x.
Proof.
  intros Hp Hg x. unfold look. rewrite Hp.
  destruct (HasPrefix x (prefix n)) eqn:H.
  - apply HasPrefix_true in H. destruct H as [y ->].
    rewrite skipn_length_app, Hg, HasPrefix_app_app. reflexivity.
  - destruct (HasPrefix x (prefix n ++ s)) eqn:H2; [reflexivity|reflexivity].
Qed.

(** What is found in a node, and below the edge to it, once [deletePrefix]
    has run on the node: nothing under the prefix, and the same as before
    elsewhere. *)
Lemma deletePrefix_spec (n : node) :
  forall path b pre n' cl k,
    wf_at path n ->
    deletePrefix b n pre = Some (n', cl, k) ->
    (b = true -> forall x,
        get n' x = if HasPrefix x pre then (None, false) else get n x) /\
    (forall x,
        look n' x = if HasPrefix x (prefix n ++ pre) then (None, false)
                    else look n x).
Proof.
  induction n as [lf q0 es IH] using node_ind';
    intros path b [|c r] n' cl k Hw.
  - rewrite deletePrefix_nil. intros H; injection H as <- _ _.
    cbn [prefix]. split.
    + intros _ x. rewrite get_no_leaf_no_edges. reflexivity.
    + intros x. rewrite app_nil_r. unfold look; cbn [prefix].
      destruct (HasPrefix x q0); [apply get_no_leaf_no_edges|reflexivity].
  - rewrite deletePrefix_cons; cbn [edges].
    pose proof (wf_at_inv Hw) as [Hs [Hk [Hl Hc]]]. cbn [edges leaf] in *.
    destruct (getEdge es c) as [n0|] eqn:E; [|discriminate].
    child_hyp IH E IHn.
    destruct (getEdge_found _ _ E) as [l1 [l2 [Hes [Hset _]]]].
    assert (Hin : In (mkEdge c n0) es) by (eapply getEdge_In; eauto).
    destruct (Hl _ Hin) as [rest Hp0]. cbn [e_node label] in Hp0.
    specialize (Hc _ Hin). cbn [e_node] in Hc.
    destruct (negb (HasPrefix (prefix n0) (c :: r))
              && negb (HasPrefix (c :: r) (prefix n0))) eqn:Hcmp;
      [discriminate|].
    cbv zeta.
    match goal with
    | |- context [deletePrefix false n0 ?x] =>
        remember x as pre' eqn:Hpre';
        destruct (deletePrefix false n0 pre') as [[[n'' cl'] k']|] eqn:D;
          [|discriminate]
    end.
    destruct (IHn _ _ _ _ _ _ Hc D) as [_ Hlook].
    destruct (deletePrefix_wf _ _ Hc D) as [q1 [Hq1 [Hw1 _]]].
    rewrite Hset. unfold set_edges; cbn [leaf prefix edges].
    assert (Hrep : wf_at path (mkNode lf q0 (l1 ++ mkEdge c n'' :: l2))).
    { subst es. eapply wf_at_replace; [exact Hw| |].
      - rewrite Hq1, Hp0. cbn [app]. eauto.
      - rewrite Hq1, app_assoc. exact Hw1. }
    assert (Hbelow : forall x,
               look n'' (c :: x) =
               if HasPrefix (c :: x) (c :: r) then (None, false)
               else look n0 (c :: x)).
    { intros x. rewrite Hlook.
      destruct (HasPrefix (c :: r) (prefix n0)) eqn:H1.
      - rewrite deletePrefix_rest_consume in Hpre' by assumption.
        rewrite Hpre', <- (HasPrefix_skipn _ _ H1). reflexivity.
      - destruct (HasPrefix (prefix n0) (c :: r)) eqn:H2; [|discriminate].
        rewrite deletePrefix_rest_inside in Hpre' by assumption.
        rewrite Hpre', app_nil_r.
        destruct (HasPrefix (c :: x) (prefix n0)) eqn:H3.
        + rewrite (HasPrefix_trans _ _ _ H3 H2). reflexivity.
        + rewrite (look_None _ _ H3).
          destruct (HasPrefix (c :: x) (c :: r)); reflexivity. }
    assert (HG : forall x,
               get (mkNode lf q0 (l1 ++ mkEdge c n'' :: l2)) x =
               if HasPrefix x (c :: r) then (None, false)
               else get (mkNode lf q0 es) x).
    { intros [|d x]; [rewrite !get_nil; reflexivity|].
      rewrite !get_cons_look; cbn [edges].
      rewrite Hes in Hs.
      destruct (Ascii.eqb_spec d c) as [->|Hd].
      - rewrite E, (@getEdge_replace_same _ l1 l2 c n0 n'' Hs). apply Hbelow.
      - rewrite (@getEdge_replace_other _ l1 l2 c d n0 n'' Hs Hd), <- Hes.
        rewrite HasPrefix_cons_neq by assumption. reflexivity. }
    assert (HL : forall x,
               look (mkNode lf q0 (l1 ++ mkEdge c n'' :: l2)) x =
               if HasPrefix x (q0 ++ c :: r) then (None, false)
               else look (mkNode lf q0 es) x).
    { apply (@look_of_get_prefix (mkNode lf q0 es)
               (mkNode lf q0 (l1 ++ mkEdge c n'' :: l2)) (c :: r));
        [reflexivity|exact HG]. }
    match goal with
    | |- context [if ?cond then _ else _] => destruct cond eqn:Hm
    end.
    + apply andb_true_iff in Hm. destruct Hm as [Hm Hlf].
      apply andb_true_iff in Hm. destruct Hm as [Hm Hlen].
      apply andb_true_iff in Hm. destruct Hm as [_ Hb].
      apply negb_true_iff in Hb, Hlf.
      intros H; injection H as <- _ _. split; [intros ->; discriminate|].
      intros x. cbn [prefix].
      assert (Hnl : leaf (mkNode lf q0 (l1 ++ mkEdge c n'' :: l2)) = None).
      { unfold isLeaf in Hlf; cbn [leaf] in *.
        destruct lf; [discriminate|reflexivity]. }
      rewrite (look_mergeChild Hrep Hnl Hlen). apply HL.
    + intros H; injection H as <- _ _. split; [intros _; exact HG|exact HL].
Qed.


Lemma locate_nil (n : node) : locate n [] = Exact n.
Proof. destruct n; reflexivity. Qed.



Lemma count_stored_entries (n : node) :
  count_stored n = length (entries n).
Proof.
  induction n as [lf p es IH] using node_ind'.
  cbn [count_stored entries leaf edges isLeaf]. rewrite length_app.
  f_equal.
  - unfold isLeaf; cbn [leaf]. destruct lf; reflexivity.
  - induction IH as [|e es He _ IHes]; [reflexivity|].
    cbn [map list_sum fold_right flat_map]. rewrite length_app, <- He.
    f_equal. exact IHes.
Qed.

(** X11.  On a tree built by the public operations, after
    [DeletePrefix(p)] no key that starts with [p] is found and every other
    key is found as before; the number returned is the number of stored
    keys that start with [p], those that [WalkPrefix(p)] visits, and the
    counter of the tree is decreased by it. *)
Theorem DeletePrefix_removes_prefix (t : Tree) (p : gostring) :
  reachable t ->
  (forall x, Get (fst (DeletePrefix t p)) x =
             if HasPrefix x p then (None, false) else Get t x) /\
  snd (DeletePrefix t p) =
    int_wrap (Z.of_nat (length (WalkPrefix t p record []))) /\
  Len (fst (DeletePrefix t p)) = int_wrap (Len t - snd (DeletePrefix t p)).
Proof.
  intros Hr. pose proof (reachable_size Hr) as Hsz.
  apply reachable_wf in Hr. unfold wf_tree, Get, Len, WalkPrefix in *.
  rewrite walkPrefix_entries, run_visits_record. cbn [app fst].
  unfold DeletePrefix, entries_under.
  destruct (locate (root t) p) as [|m|m] eqn:Hloc.
  - rewrite (deletePrefix_miss _ true _ Hloc). cbn [fst snd length].
    split; [|split; [reflexivity|]].
    + intros x. destruct (HasPrefix x p) eqn:Hx; [|reflexivity].
      destruct (get_shape (root t) x) as [[v Hv]|Hn]; [|exact Hn].
      exfalso.
      assert (Hin : In (x, v) (entries_under (root t) p)).
      { apply (entries_under_get p x v Hr). exists x. auto. }
      unfold entries_under in Hin. rewrite Hloc in Hin. exact Hin.
    + rewrite Hsz at 2. rewrite int_wrap_sub, Z.sub_0_r. exact Hsz.
  - destruct (deletePrefix_count (root t) true p (or_introl Hloc))
      as [n' [cl D]].
    rewrite D. cbn [fst snd root size].
    destruct (deletePrefix_spec _ _ Hr D) as [Hg _].
    split; [exact (Hg eq_refl)|]. rewrite count_stored_entries. auto.
  - destruct (deletePrefix_count (root t) true p (or_intror Hloc))
      as [n' [cl D]].
    rewrite D. cbn [fst snd root size].
    destruct (deletePrefix_spec _ _ Hr D) as [Hg _].
    split; [exact (Hg eq_refl)|]. rewrite count_stored_entries. auto.
Qed.

(** ** Walk *)

(** X12.  On a tree built by the public operations, [Walk] calls a visitor
    that lets the walk run once for each stored key, with its value, in
    ascending order of the keys; any visitor sees these calls in this
    order up to the first one at which it stops the walk; and [Len()] is
    the number of these calls, as a Go [int]. *)
Theorem Walk_visits (t : Tree) :
  reachable t ->
  let L := Walk t record [] in
  (forall k v, In (k, v) L <-> Get t k = (Some v, true)) /\
  StronglySorted key_lt L /\
  NoDup (map fst L) /\
  (forall (S : Type) (fn : WalkFn S) (s : S),
     Walk t fn s = fst (run_visits fn L s)) /\
  Len t = int_wrap (Z.of_nat (length L)).
Proof.
  intros Hr. pose proof (reachable_size Hr) as Hsz.
  apply reachable_wf in Hr. unfold wf_tree, Get, Len, Walk in *.
  cbv zeta. rewrite recursiveWalk_entries, run_visits_record. cbn [app fst].
  assert (Hs : StronglySorted key_lt (entries (root t)))
    by (eapply entries_sorted; exact Hr).
  split; [|split; [exact Hs|split; [|split]]].
  - intros k v. rewrite (entries_get k v Hr). cbn [app]. split.
    + intros [x [-> H]]. exact H.
    + intros H. exists k. auto.
  - apply sorted_keys_NoDup. exact Hs.
  - intros S fn s. rewrite recursiveWalk_entries. reflexivity.
  - rewrite <- count_stored_entries. exact Hsz.
Qed.

(** ** ToMap and NewFromMap *)

Lemma run_visits_map_set (a : gostring -> gostring)
  (L : list (gostring * V)) :
  NoDup (map (fun kv => a (fst kv)) L) ->
  snd (run_visits (fun k v out => (map_set out (a k) v, false)) L map_empty)
  = false /\
  forall k' v,
    fst (run_visits (fun k v out => (map_set out (a k) v, false)) L
           map_empty) k' = Some v
    <-> exists k, a k = k' /\ In (k, v) L.
Proof.
  induction L as [|[k0 v0] L IH] using rev_ind; intros Hnd.
  - cbn [run_visits fst snd]. split; [reflexivity|]. intros k' v.
    unfold map_empty. split; [discriminate|intros [k [_ []]]].
  - rewrite map_app in Hnd. cbn [map fst] in Hnd.
    apply NoDup_remove in Hnd. rewrite app_nil_r in Hnd.
    destruct Hnd as [Hnd Hnew]. destruct (IH Hnd) as [Hstop Hmap].
    rewrite run_visits_app.
    destruct (run_visits (fun k v out => (map_set out (a k) v, false)) L
                map_empty) as [m stop].
    cbn [fst snd] in *. subst stop. cbn [run_visits fst snd].
    split; [reflexivity|]. intros k' v. unfold map_set.
    destruct (gostring_eq_dec k' (a k0)) as [Hk|Hk].
    + split.
      * intros H; injection H as <-. exists k0. split; [auto|].
        apply in_or_app. right; left; reflexivity.
      * intros [k [Hak Hin]]. apply in_app_or in Hin.
        destruct Hin as [Hin|[Hin|[]]].
        -- exfalso. apply Hnew. rewrite <- Hk, <- Hak.
           apply (in_map (fun kv => a (fst kv)) L (k, v) Hin).
        -- injection Hin as _ <-. reflexivity.
    + rewrite Hmap. split.
      * intros [k [Hak Hin]]. exists k. split; [exact Hak|].
        apply in_or_app. left; exact Hin.
      * intros [k [Hak Hin]]. apply in_app_or in Hin.
        destruct Hin as [Hin|[Hin|[]]]; [eauto|].
        injection Hin as <- _. exfalso. apply Hk. auto.
Qed.

Lemma NoDup_map_on (A B : Type) (f : A -> B) (l : list A) :
  (forall x y, In x l -> In y l -> f x = f y -> x = y) ->
  NoDup l -> NoDup (map f l).
Proof.
  intros Hinj Hnd. induction Hnd as [|x l Hx Hnd IH]; cbn [map].
  - constructor.
  - constructor.
    + intros Hin. apply in_map_iff in Hin. destruct Hin as [y [Hy Hin]].
      assert (y = x)
        by (apply Hinj; [right; exact Hin|left; reflexivity|exact Hy]).
      subst y. contradiction.
    + apply IH. intros y z Hy Hz. apply Hinj; right; assumption.
Qed.

(** X13.  On a tree built by the public operations and a transformation
    [a] that sends no two stored keys to the same string, the map that
    [ToMap(a)] returns holds [v] under [k'] exactly when [k'] is [a(k)]
    for a stored key [k] with value [v]. *)
Theorem ToMap_holds_entries (t : Tree) (a : gostring -> gostring) :
  reachable t ->
  (forall k1 k2, snd (Get t k1) = true -> snd (Get t k2) = true ->
                 a k1 = a k2 -> k1 = k2) ->
  forall k' v,
    ToMap t a k' = Some v <-> exists k, a k = k' /\ Get t k = (Some v, true).
Proof.
  intros Hr Hinj k' v. apply reachable_wf in Hr.
  unfold wf_tree, Get, ToMap, Walk in *.
  rewrite recursiveWalk_entries.
  assert (Hin : forall k v, In (k, v) (entries (root t)) <->
                            get (root t) k = (Some v, true)).
  { intros k0 v0. rewrite (entries_get k0 v0 Hr). cbn [app]. split.
    - intros [x [-> H]]. exact H.
    - intros H. exists k0. auto. }
  assert (Hnd : NoDup (map (fun kv => a (fst kv)) (entries (root t)))).
  { apply NoDup_map_on.
    - intros [k1 v1] [k2 v2] H1 H2 Ha. cbn [fst] in Ha.
      pose proof H1 as G1. pose proof H2 as G2.
      apply Hin in G1, G2.
      assert (k1 = k2)
        by (apply Hinj; [rewrite G1|rewrite G2|]; auto).
      subst k2. rewrite G1 in G2. injection G2 as ->. reflexivity.
    - apply (NoDup_map_inv fst). apply sorted_keys_NoDup.
      eapply entries_sorted; exact Hr. }
  destruct (@run_visits_map_set a _ Hnd) as [_ Hmap]. rewrite Hmap.
  split; intros [k [Hk H]]; exists k; (split; [exact Hk|]); apply Hin; exact H.
Qed.

(** X14.  [NewFromMap] does not panic, whatever the order in which the
    map is ranged over: for every enumeration of a map, the tree built
    finds exactly the pairs of the map, and [Len()] is their number, as a
    Go [int]. *)
Theorem NewFromMap_holds_map (l : list (gostring * V)) :
  NoDup (map fst l) ->
  exists t,
    NewFromMap l = Some t /\
    (forall k v, Get t k = (Some v, true) <-> In (k, v) l) /\
    Len t = int_wrap (Z.of_nat (length l)).
Proof.
  intros Hnd. unfold NewFromMap, Len.
  destruct (insert_all_New l) as [t [Hall [_ [_ [Hsz _]]]]].
  exists t. split; [exact Hall|]. split.
  - clear Hsz. revert t Hall.
    induction l as [|[k0 v0] l IH] using rev_ind; intros t Hall k v.
    + injection Hall as <-. unfold Get, New; cbn [root].
      rewrite get_no_leaf_no_edges. split; [discriminate|intros []].
    + rewrite map_app in Hnd. cbn [map fst] in Hnd.
      apply NoDup_remove in Hnd. rewrite app_nil_r in Hnd.
      destruct Hnd as [Hnd Hnew].
      rewrite insert_all_app in Hall.
      destruct (insert_all_New l) as [t0 [Hall0 [Hw0 _]]].
      rewrite Hall0 in Hall. cbn [insert_all] in Hall.
      destruct (Insert_spec k0 v0 Hw0) as [t1 [Hins [_ [_ [_ Hget]]]]].
      rewrite Hins in Hall. injection Hall as <-.
      rewrite Hget. specialize (IH Hnd t0 Hall0 k v).
      destruct (gostring_eq_dec k k0) as [Hk|Hk].
      * split.
        -- intros H; injection H as <-. apply in_or_app. right; left.
           rewrite Hk. reflexivity.
        -- intros Hin. apply in_app_or in Hin.
           destruct Hin as [Hin|[Hin|[]]].
           ++ exfalso. apply Hnew. rewrite <- Hk.
              apply (in_map fst l (k, v) Hin).
           ++ injection Hin as _ <-. reflexivity.
      * rewrite IH. split.
        -- intros Hin. apply in_or_app. left; exact Hin.
        -- intros Hin. apply in_app_or in Hin.
           destruct Hin as [Hin|[Hin|[]]]; [exact Hin|].
           injection Hin as <- _. contradiction.
  - rewrite Hsz. unfold distinct_keys.
    rewrite (nodup_fixed_point gostring_eq_dec Hnd), length_map.
    reflexivity.
Qed.

(** ** WalkPath and LongestPrefix *)

Lemma path_entries_nil (n : node) :
  path_entries n [] =
  match leaf n with Some lf => [(Key lf, Val lf)] | None => [] end.
Proof. destruct n; cbn [path_entries]. apply app_nil_r. Qed.

Lemma path_entries_cons (n : node) (c : ascii) (r : gostring) :
  path_entries n (c :: r) =
  match leaf n with Some lf => [(Key lf, Val lf)] | None => [] end
  ++ match getEdge (edges n) c with
     | Some n' =>
         if HasPrefix (c :: r) (prefix n')
         then path_entries n' (skipn (length (prefix n')) (c :: r))
         else []
     | None => []
     end.
Proof.
  destruct n; cbn [path_entries leaf edges]. f_equal.
  apply with_edge_getEdge.
Qed.

Lemma walkPath_nil (S : Type) (n : node) (fn : WalkFn S) (s : S) :
  walkPath n [] fn s =
  fst match leaf n with
      | Some lf => fn (Key lf) (Val lf) s
      | None => (s, false)
      end.
Proof.
  destruct n as [lf p es]; cbn [walkPath leaf].
  destruct lf as [lf|]; [|reflexivity].
  destruct (fn (Key lf) (Val lf) s) as [s1 [|]]; reflexivity.
Qed.

Lemma walkPath_cons (S : Type) (n : node) (c : ascii) (r : gostring)
  (fn : WalkFn S) (s : S) :
  walkPath n (c :: r) fn s =
  let (s1, stop) :=
    match leaf n with
    | Some lf => fn (Key lf) (Val lf) s
    | None => (s, false)
    end in
  if stop then s1
  else match getEdge (edges n) c with
       | Some n' =>
           if HasPrefix (c :: r) (prefix n')
           then walkPath n' (skipn (length (prefix n')) (c :: r)) fn s1
           else s1
       | None => s1
       end.
Proof.
  destruct n as [lf p es]; cbn [walkPath leaf edges].
  destruct (match lf with
            | Some lf0 => fn (Key lf0) (Val lf0) s
            | None => (s, false)
            end) as [s1 [|]]; [reflexivity|].
  apply with_edge_getEdge.
Qed.

(** [WalkPath] visits the entries met by the descent. *)
Lemma walkPath_entries (S : Type) (fn : WalkFn S) (n : node) :
  forall search s,
    walkPath n search fn s = fst (run_visits fn (path_entries n search) s).
Proof.
  induction n as [lf p es IH] using node_ind'; intros [|c r] s.
  - rewrite walkPath_nil, path_entries_nil; cbn [leaf].
    destruct lf as [lf|]; [|reflexivity]. cbn [run_visits].
    destruct (fn (Key lf) (Val lf) s) as [s1 [|]]; reflexivity.
  - rewrite walkPath_cons, path_entries_cons; cbn [leaf edges].
    assert (Hdown : forall s1,
               match getEdge es c with
               | Some n' =>
                   if HasPrefix (c :: r) (prefix n')
                   then walkPath n' (skipn (length (prefix n')) (c :: r))
                          fn s1
                   else s1
               | None => s1
               end =
               fst (run_visits fn
                      match getEdge es c with
                      | Some n' =>
                          if HasPrefix (c :: r) (prefix n')
                          then path_entries n'
                                 (skipn (length (prefix n')) (c :: r))
                          else []
                      | None => []
                      end s1)).
    { intros s1. destruct (getEdge es c) as [n0|] eqn:E; [|reflexivity].
      child_hyp IH E IHn.
      destruct (HasPrefix (c :: r) (prefix n0)); [apply IHn|reflexivity]. }
    destruct lf as [lf|]; cbn [app run_visits].
    + destruct (fn (Key lf) (Val lf) s) as [s1 [|]]; [reflexivity|].
      apply Hdown.
    + apply Hdown.
Qed.

Lemma HasPrefix_nil_l (x : gostring) : HasPrefix [] x = true -> x = [].
Proof. destruct x; [reflexivity|discriminate]. Qed.

(** The entries met by the descent along [search] in a well-formed
    subtree are the keys found below it that are prefixes of [search]. *)
Lemma path_entries_get (n : node) :
  forall path search k v,
    wf_at path n ->
    (In (k, v) (path_entries n search) <->
     exists x, k = path ++ x /\ get n x = (Some v, true)
               /\ HasPrefix search x = true).
Proof.
  induction n as [lf p es IH] using node_ind'; intros path search k v Hw.
  pose proof (wf_at_inv Hw) as [Hs [Hk [Hl Hc]]]. cbn [edges leaf] in *.
  assert (Hleaf : In (k, v)
                    match lf with
                    | Some lf0 => [(Key lf0, Val lf0)]
                    | None => []
                    end <->
                  k = path /\ get (mkNode lf p es) [] = (Some v, true)).
  { rewrite get_nil; cbn [leaf]. destruct lf as [lf|]; split.
    - intros [Heq|[]]. injection Heq as <- <-. rewrite (Hk lf eq_refl). auto.
    - intros [-> Hg]. injection Hg as <-. left.
      rewrite (Hk lf eq_refl). reflexivity.
    - intros [].
    - intros [_ Hg]. discriminate. }
  destruct search as [|c r].
  - rewrite path_entries_nil; cbn [leaf]. rewrite Hleaf. split.
    + intros [-> Hg]. exists []. rewrite app_nil_r. auto.
    + intros [x [-> [Hg Hx]]]. apply HasPrefix_nil_l in Hx. subst x.
      rewrite app_nil_r. auto.
  - rewrite path_entries_cons; cbn [leaf edges].
    rewrite in_app_iff, Hleaf. split.
    + intros [[-> Hg]|Hin].
      * exists []. rewrite app_nil_r. auto.
      * destruct (getEdge es c) as [n0|] eqn:E; [|destruct Hin].
        child_hyp IH E IHn.
        assert (Hin0 : In (mkEdge c n0) es) by (eapply getEdge_In; eauto).
        specialize (Hc _ Hin0). cbn [e_node] in Hc.
        destruct (HasPrefix (c :: r) (prefix n0)) eqn:H1; [|destruct Hin].
        apply (IHn (path ++ prefix n0) _ k v Hc) in Hin.
        destruct Hin as [x [-> [Hg Hx]]].
        exists (prefix n0 ++ x). rewrite app_assoc.
        split; [reflexivity|]. split.
        -- pose proof (@get_child _ (mkNode lf p es) (mkEdge c n0) x path
                          Hw Hin0) as Hch.
           cbn [e_node] in Hch. rewrite Hch. exact Hg.
        -- rewrite (HasPrefix_skipn _ _ H1) at 1.
           rewrite HasPrefix_app_app. exact Hx.
    + intros [[|d x] [-> [Hg Hx]]].
      * left. rewrite app_nil_r. auto.
      * right.
        assert (d = c).
        { cbn [HasPrefix] in Hx.
          destruct (Ascii.eqb_spec c d); [auto|discriminate]. }
        subst d. rewrite get_cons in Hg; cbn [edges] in Hg.
        destruct (getEdge es c) as [n0|] eqn:E; [|discriminate].
        child_hyp IH E IHn.
        assert (Hin0 : In (mkEdge c n0) es) by (eapply getEdge_In; eauto).
        specialize (Hc _ Hin0). cbn [e_node] in Hc.
        destruct (HasPrefix (c :: x) (prefix n0)) eqn:H0; [|discriminate].
        rewrite (HasPrefix_trans _ _ _ Hx H0).
        apply (IHn (path ++ prefix n0) _ _ v Hc).
        exists (skipn (length (prefix n0)) (c :: x)).
        rewrite <- app_assoc, <- (HasPrefix_skipn _ _ H0).
        split; [reflexivity|]. split; [exact Hg|].
        pose proof (HasPrefix_trans _ _ _ Hx H0) as H1.
        rewrite (HasPrefix_skipn _ _ H1), (HasPrefix_skipn _ _ H0) in Hx.
        rewrite HasPrefix_app_app in Hx. exact Hx.
Qed.

(** The keys met by the descent get longer at each step. *)
Lemma path_entries_sorted (n : node) :
  forall path search,
    wf_at path n -> StronglySorted shorter (path_entries n search).
Proof.
  induction n as [lf p es IH] using node_ind'; intros path search Hw.
  pose proof (wf_at_inv Hw) as [Hs [Hk [Hl Hc]]]. cbn [edges leaf] in *.
  destruct search as [|c r].
  - rewrite path_entries_nil; cbn [leaf].
    destruct lf; repeat constructor.
  - rewrite path_entries_cons; cbn [leaf edges].
    destruct (getEdge es c) as [n0|] eqn:E;
      [|rewrite app_nil_r; destruct lf; repeat constructor].
    child_hyp IH E IHn.
    assert (Hin0 : In (mkEdge c n0) es) by (eapply getEdge_In; eauto).
    destruct (Hl _ Hin0) as [rest Hp0]. cbn [e_node label] in Hp0.
    specialize (Hc _ Hin0). cbn [e_node] in Hc.
    destruct (HasPrefix (c :: r) (prefix n0));
      [|rewrite app_nil_r; destruct lf; repeat constructor].
    destruct lf as [lf|]; cbn [app]; [|eapply IHn; exact Hc].
    constructor; [eapply IHn; exact Hc|].
    apply Forall_forall. intros [k v] Hin.
    apply (path_entries_get _ k v Hc) in Hin. destruct Hin as [x [-> _]].
    unfold shorter; cbn [fst]. rewrite (Hk lf eq_refl), Hp0.
    rewrite !length_app. cbn [length]. lia.
Qed.

(** X15.  On a tree built by the public operations, [WalkPath(path)] calls
    a visitor that lets the walk run once for each stored key that is a
    prefix of [path], with its value, and for no other key, the shorter
    keys first; any visitor sees these calls in this order up to the first
    one at which it stops the walk. *)
Theorem WalkPath_visits (t : Tree) (path : gostring) :
  reachable t ->
  let L := WalkPath t path record [] in
  (forall k v, In (k, v) L <->
               Get t k = (Some v, true) /\ HasPrefix path k = true) /\
  StronglySorted shorter L /\
  (forall (S : Type) (fn : WalkFn S) (s : S),
     WalkPath t path fn s = fst (run_visits fn L s)).
Proof.
  intros Hr. apply reachable_wf in Hr. unfold wf_tree, WalkPath, Get in *.
  cbv zeta. rewrite walkPath_entries, run_visits_record. cbn [app fst].
  split; [|split].
  - intros k v. rewrite (path_entries_get path k v Hr). cbn [app]. split.
    + intros [x [-> H]]. exact H.
    + intros H. exists k. auto.
  - eapply path_entries_sorted; exact Hr.
  - intros S fn s. apply walkPath_entries.
Qed.

(** The node that the loop of [longestPrefix] remembers is the one of the
    last entry met by the descent. *)
Lemma lpm_path_entries (n : node) :
  forall search last,
    match rev (path_entries n search) with
    | (k, v) :: _ =>
        exists m lf, lpm n search last = Some m /\ leaf m = Some lf /\
                     Key lf = k /\ Val lf = v
    | [] => lpm n search last = last
    end.
Proof.
  induction n as [lf p es IH] using node_ind'; intros search last.
  assert (Hbase :
            match rev match lf with
                      | Some lf0 => [(Key lf0, Val lf0)]
                      | None => []
                      end with
            | (k, v) :: _ =>
                exists m lf0,
                  (if isLeaf (mkNode lf p es) then Some (mkNode lf p es)
                   else last) = Some m /\
                  leaf m = Some lf0 /\ Key lf0 = k /\ Val lf0 = v
            | [] => (if isLeaf (mkNode lf p es) then Some (mkNode lf p es)
                     else last) = last
            end).
  { unfold isLeaf; cbn [leaf]. destruct lf as [lf|]; cbn [rev app].
    - exists (mkNode (Some lf) p es), lf. auto.
    - reflexivity. }
  destruct search as [|c r].
  - rewrite path_entries_nil, lpm_nil; cbn [leaf]. exact Hbase.
  - rewrite path_entries_cons, lpm_cons; cbn [leaf edges]. cbv zeta.
    destruct (getEdge es c) as [n0|] eqn:E; [|rewrite app_nil_r; exact Hbase].
    child_hyp IH E IHn.
    destruct (HasPrefix (c :: r) (prefix n0));
      [|rewrite app_nil_r; exact Hbase].
    rewrite rev_app_distr.
    specialize (IHn (skipn (length (prefix n0)) (c :: r))
                  (if isLeaf (mkNode lf p es) then Some (mkNode lf p es)
                   else last)).
    destruct (rev (path_entries n0 (skipn (length (prefix n0)) (c :: r))))
      as [|[k v] tl].
    + cbn [app]. rewrite IHn. exact Hbase.
    + cbn [app]. exact IHn.
Qed.

Lemma sorted_last (A : Type) (R : A -> A -> Prop) (l : list A) (x : A) :
  StronglySorted R (l ++ [x]) -> Forall (fun y => R y x) l.
Proof.
  induction l as [|a l IH]; cbn [app]; intros H; [constructor|].
  inversion H as [|? ? Hs Ha]; subst. constructor.
  - rewrite Forall_forall in Ha. apply Ha. apply in_or_app.
    right; left; reflexivity.
  - apply IH. exact Hs.
Qed.

(** X16.  On a tree built by the public operations, [LongestPrefix(s)]
    returns a stored key that is a prefix of [s], with its value, such
    that no stored prefix of [s] is longer; it returns the empty string,
    [nil] and [false] exactly when no stored key is a prefix of [s]. *)
Theorem LongestPrefix_is_longest (t : Tree) (s : gostring) :
  reachable t ->
  match LongestPrefix t s with
  | (k, Some v, true) =>
      Get t k = (Some v, true) /\ HasPrefix s k = true /\
      forall k', snd (Get t k') = true -> HasPrefix s k' = true ->
                 length k' <= length k
  | (k, None, false) =>
      k = [] /\
      forall k', snd (Get t k') = true -> HasPrefix s k' = false
  | _ => False
  end.
Proof.
  intros Hr. apply reachable_wf in Hr.
  unfold wf_tree, LongestPrefix, Tree_longestPrefix, Get in *.
  assert (Hin : forall k v, In (k, v) (path_entries (root t) s) <->
                  get (root t) k = (Some v, true) /\ HasPrefix s k = true).
  { intros k v. rewrite (path_entries_get s k v Hr). cbn [app]. split.
    - intros [x [-> H]]. exact H.
    - intros H. exists k. auto. }
  pose proof (path_entries_sorted s Hr) as Hsorted.
  pose proof (lpm_path_entries (root t) s None) as Hl.
  rewrite <- (rev_involutive (path_entries (root t) s)) in Hin, Hsorted.
  destruct (rev (path_entries (root t) s)) as [|[k v] tl].
  - rewrite Hl. cbn [fst]. split; [reflexivity|].
    intros k' Hk'. destruct (HasPrefix s k') eqn:Hp; [|reflexivity].
    destruct (get_shape (root t) k') as [[v' Hv]|Hn];
      [|rewrite Hn in Hk'; discriminate].
    exfalso. apply (proj2 (Hin k' v')). auto.
  - destruct Hl as [m [lf [-> [-> [<- <-]]]]]. cbn [fst rev] in *.
    destruct (proj1 (Hin (Key lf) (Val lf))) as [Hg Hp];
      [apply in_or_app; right; left; reflexivity|].
    split; [exact Hg|]. split; [exact Hp|].
    intros k' Hk' Hp'.
    destruct (get_shape (root t) k') as [[v' Hv]|Hn];
      [|rewrite Hn in Hk'; discriminate].
    assert (Hin' : In (k', v') (rev tl ++ [(Key lf, Val lf)]))
      by (apply Hin; auto).
    apply sorted_last in Hsorted. rewrite Forall_forall in Hsorted.
    apply in_app_or in Hin'. destruct Hin' as [Hin'|[Heq|[]]].
    + apply Hsorted in Hin'. unfold shorter in Hin'. cbn [fst] in Hin'. lia.
    + injection Heq as <- _. lia.
Qed.

(** ** The node of the longest prefix match *)

(** The node that the loop of [longestPrefix] remembers carries a stored
    entry and is found at the end of the descent along its key. *)
Lemma lpm_locate (n : node) :
  forall path s last m,
    wf_at path n ->
    lpm n s last = Some m ->
    last = Some m \/
    exists q lf, leaf m = Some lf /\ Key lf = path ++ q /\
                 locate n q = Exact m.
Proof.
  induction n as [lf p es IH] using node_ind'; intros path s last m Hw.
  pose proof (wf_at_inv Hw) as [Hs [Hk [Hl Hc]]]. cbn [edges leaf] in *.
  assert (Hlast : (if isLeaf (mkNode lf p es) then Some (mkNode lf p es)
                   else last) = Some m ->
                  last = Some m \/
                  exists q lf0, leaf m = Some lf0 /\ Key lf0 = path ++ q /\
                                locate (mkNode lf p es) q = Exact m).
  { unfold isLeaf; cbn [leaf]. destruct lf as [lf|]; [|auto].
    intros H; injection H as <-. right. exists [], lf. cbn [leaf].
    rewrite app_nil_r, locate_nil. auto. }
  destruct s as [|c r].
  - rewrite lpm_nil. exact Hlast.
  - rewrite lpm_cons; cbn [edges]; cbv zeta.
    destruct (getEdge es c) as [n0|] eqn:E; [|exact Hlast].
    destruct (HasPrefix (c :: r) (prefix n0)) eqn:H1; [|exact Hlast].
    child_hyp IH E IHn.
    assert (Hin : In (mkEdge c n0) es) by (eapply getEdge_In; eauto).
    destruct (Hl _ Hin) as [rest Hp0]. cbn [e_node label] in Hp0.
    specialize (Hc _ Hin). cbn [e_node] in Hc.
    intros H. destruct (IHn _ _ _ _ Hc H) as [Hl'|[q [lf0 [L [Hkey Hloc]]]]].
    + apply Hlast. exact Hl'.
    + right. exists (prefix n0 ++ q), lf0.
      split; [exact L|]. split; [rewrite app_assoc; exact Hkey|].
      assert (Hx : prefix n0 ++ q = c :: (rest ++ q))
        by (rewrite Hp0; reflexivity).
      rewrite Hx, locate_cons; cbn [edges]. rewrite E, <- Hx.
      rewrite HasPrefix_app, skipn_length_app. exact Hloc.
Qed.

(** On a well-formed tree, the node at the end of the longest stored
    prefix of [s] is the node that the method [longestPrefix] returns for
    [s], with that key and its value. *)
Lemma longest_stored_prefix_node (t : Tree) (s key : gostring) (n : node) :
  wf_tree t ->
  snd (Get t key) = true ->
  HasPrefix s key = true ->
  (forall k', snd (Get t k') = true -> HasPrefix s k' = true ->
              length k' <= length key) ->
  locate (root t) key = Exact n ->
  exists lf, leaf n = Some lf /\ Key lf = key /\
             Tree_longestPrefix t s = (key, Some (Val lf), true, Some n).
Proof.
  intros Hw Hst Hp Hmax Hloc. unfold wf_tree, Get, Tree_longestPrefix in *.
  assert (Hin : forall k v, In (k, v) (path_entries (root t) s) <->
                  get (root t) k = (Some v, true) /\ HasPrefix s k = true).
  { intros k v. rewrite (path_entries_get s k v Hw). cbn [app]. split.
    - intros [x [-> H]]. exact H.
    - intros H. exists k. auto. }
  pose proof (path_entries_sorted s Hw) as Hsorted.
  pose proof (lpm_path_entries (root t) s None) as Hl.
  destruct (get_shape (root t) key) as [[v0 Hv0]|Hn];
    [|rewrite Hn in Hst; discriminate].
  assert (Hkey : In (key, v0) (path_entries (root t) s)) by (apply Hin; auto).
  rewrite <- (rev_involutive (path_entries (root t) s)) in Hin, Hsorted, Hkey.
  destruct (rev (path_entries (root t) s)) as [|[k v] tl]; [destruct Hkey|].
  destruct Hl as [m [lf [Hlpm [L [<- <-]]]]]. cbn [rev] in *.
  destruct (proj1 (Hin (Key lf) (Val lf))) as [Hg Hpk];
    [apply in_or_app; right; left; reflexivity|].
  assert (Heq : Key lf = key).
  { apply in_app_or in Hkey. destruct Hkey as [Hkey|[Hkey|[]]].
    - exfalso. apply sorted_last in Hsorted.
      rewrite Forall_forall in Hsorted. apply Hsorted in Hkey.
      unfold shorter in Hkey. cbn [fst] in Hkey.
      assert (length (Key lf) <= length key)
        by (apply Hmax; [rewrite Hg; reflexivity|exact Hpk]).
      lia.
    - injection Hkey as -> _. reflexivity. }
  rewrite Hlpm, L.
  destruct (lpm_locate _ _ Hw Hlpm) as [Hnone|[q [lf' [L' [Hq Hloc']]]]];
    [discriminate|].
  rewrite L in L'. injection L' as <-. cbn [app] in Hq.
  rewrite <- Hq, Heq, Hloc in Hloc'. injection Hloc' as <-.
  exists lf. rewrite Heq. auto.
Qed.

(** C6.  On a tree over the binary alphabet built by the public
    operations and a query [s] whose longest-prefix-match node [n] exists
    ([n] is the node at the end of the longest stored key that is a prefix
    of [s]), [FirstNonIncludedPrefix(s)] returns [n]'s key with [true] when
    [n] has no child, [n]'s key followed by the complement of the label of
    its single child with [true] when [n] has exactly one child, and
    [("", false)] when [n] has two children.  Concretely, after inserting
    [00] and [000] the query [00] returns [("001", true)], and after
    inserting [001] as well it returns [("", false)]. *)
Theorem FirstNonIncludedPrefix_binary :
  (forall (t : Tree) (s key : gostring) (n : node),
     reachable t ->
     binary_alphabet t = true ->
     snd (Get t key) = true ->
     HasPrefix s key = true ->
     (forall k', snd (Get t k') = true -> HasPrefix s k' = true ->
                 length k' <= length key) ->
     locate (root t) key = Exact n ->
     (length (edges n) = 0 -> FirstNonIncludedPrefix t s = (key, true)) /\
     (forall e, edges n = [e] ->
        FirstNonIncludedPrefix t s = (key ++ [complement (label e)], true)) /\
     (length (edges n) = 2 -> FirstNonIncludedPrefix t s = ([], false))) /\
  (forall v1 v2 v3 : V,
     exists t2 t3,
       insert_all [(str "00", v1); (str "000", v2)] (New V) = Some t2 /\
       FirstNonIncludedPrefix t2 (str "00") = (str "001", true) /\
       Insert t2 (str "001") v3 = Some (t3, (None, false)) /\
       FirstNonIncludedPrefix t3 (str "00") = ([], false)).
Proof.
  split.
  - intros t s key n Hr Hbin Hst Hp Hmax Hloc. apply reachable_wf in Hr.
    destruct (@longest_stored_prefix_node t s key n Hr Hst Hp Hmax Hloc)
      as [lf [L [<- H]]].
    pose proof (Tree_longestPrefix_found _ _ H) as [Hin _].
    unfold FirstNonIncludedPrefix. rewrite H, L.
    repeat split.
    + destruct (edges n); [reflexivity|discriminate].
    + intros e He. rewrite He.
      assert (Hl : label e = "0"%char \/ label e = "1"%char).
      { apply (binary_node_label n).
        - apply (binary_node_In_tree Hin Hbin).
        - rewrite He. left; reflexivity. }
      destruct Hl as [-> | ->]; reflexivity.
    + destruct (edges n) as [|e1 [|e2 [|e3 es]]]; try discriminate. reflexivity.
  - intros v1 v2 v3. eexists; eexists.
    split; [vm_compute; reflexivity|].
    split; [vm_compute; reflexivity|].
    split; vm_compute; reflexivity.
Qed.

(** C7 (amended).  [FirstNonIncludedPrefix] makes no check of the
    alphabet.  On a tree built by the public operations, whenever the
    longest-prefix-match node of the query exists (the node at the end of
    the longest stored key that is a prefix of the query) and has exactly
    one child, under any label other than [1], the result is that node's
    key followed by [1], with [true]. *)
Theorem FirstNonIncludedPrefix_any_alphabet (t : Tree) (s key : gostring)
  (n : node) (e : edge) :
  reachable t ->
  snd (Get t key) = true ->
  HasPrefix s key = true ->
  (forall k', snd (Get t k') = true -> HasPrefix s k' = true ->
              length k' <= length key) ->
  locate (root t) key = Exact n ->
  edges n = [e] ->
  label e <> "1"%char ->
  FirstNonIncludedPrefix t s = (key ++ str "1", true).
Proof.
  intros Hr Hst Hp Hmax Hloc He Hl. apply reachable_wf in Hr.
  destruct (@longest_stored_prefix_node t s key n Hr Hst Hp Hmax Hloc)
    as [lf [L [<- H]]].
  unfold FirstNonIncludedPrefix. rewrite H, L, He.
  unfold invert_binary_label.
  destruct (Ascii.eqb_spec (label e) "1"%char); [contradiction|reflexivity].
Qed.

(** ** Minimum and Maximum *)

Lemma minimum_eq (n : node) :
  minimum n =
  match leaf n with
  | Some lf => (Key lf, Some (Val lf), true)
  | None =>
      match edges n with
      | e :: _ => minimum (e_node e)
      | [] => ([], None, false)
      end
  end.
Proof. destruct n; reflexivity. Qed.

Lemma at_last_rev (N R : Type) (k : N -> R) (d : R) (es : list (edge_of N)) :
  at_last k d es =
  match rev es with e :: _ => k (e_node e) | [] => d end.
Proof.
  induction es as [|e es IH]; [reflexivity|].
  cbn [at_last rev]. destruct es as [|e' es]; [reflexivity|].
  rewrite IH. cbn [rev].
  destruct (rev es) as [|x tl]; reflexivity.
Qed.

Lemma maximum_eq (n : node) :
  maximum n =
  match rev (edges n) with
  | e :: _ => maximum (e_node e)
  | [] =>
      match leaf n with
      | Some lf => (Key lf, Some (Val lf), true)
      | None => ([], None, false)
      end
  end.
Proof. destruct n; cbn [maximum edges leaf]. apply at_last_rev. Qed.

(** A node that satisfies invariant 3 has a stored entry in its subtree. *)
Lemma compressed_entries (n : node) :
  compressed n = true -> entries n <> [].
Proof.
  induction n as [lf p es IH] using node_ind'. intros Hc.
  apply compressed_inv in Hc. destruct Hc as [H1 H2].
  cbn [edges entries leaf] in *. unfold isLeaf in H1; cbn [leaf] in H1.
  destruct lf as [lf|]; [discriminate|]. cbn [orb app] in *.
  destruct es as [|e es]; [discriminate|].
  cbn [flat_map forallb] in *. apply andb_true_iff in H2.
  inversion IH as [|? ? He _]; subst.
  intros Happ. apply app_eq_nil in Happ. destruct Happ as [Happ _].
  apply He in Happ; [exact Happ|apply H2].
Qed.

Lemma minimum_entries (n : node) :
  forallb (fun e => compressed (e_node e)) (edges n) = true ->
  minimum n =
  match entries n with
  | (k, v) :: _ => (k, Some v, true)
  | [] => ([], None, false)
  end.
Proof.
  induction n as [lf p es IH] using node_ind'. intros Hc.
  rewrite minimum_eq. cbn [edges entries leaf] in *.
  destruct lf as [lf|]; [reflexivity|]. cbn [app].
  destruct es as [|e es]; [reflexivity|].
  cbn [flat_map forallb] in *. apply andb_true_iff in Hc.
  destruct Hc as [He _]. inversion IH as [|? ? IHe _]; subst.
  rewrite IHe by (apply compressed_inv; exact He).
  pose proof (compressed_entries _ He) as Hne.
  destruct (entries (e_node e)) as [|[k v] tl]; [contradiction|reflexivity].
Qed.

Lemma maximum_entries (n : node) :
  forallb (fun e => compressed (e_node e)) (edges n) = true ->
  maximum n =
  match rev (entries n) with
  | (k, v) :: _ => (k, Some v, true)
  | [] => ([], None, false)
  end.
Proof.
  induction n as [lf p es IH] using node_ind'. intros Hc.
  rewrite maximum_eq. cbn [edges entries leaf] in *.
  rewrite rev_app_distr.
  destruct es as [|e es] using rev_ind.
  - cbn [rev flat_map app]. destruct lf; reflexivity.
  - clear IHes. rewrite rev_app_distr. cbn [rev app].
    rewrite flat_map_app, rev_app_distr. cbn [flat_map].
    rewrite app_nil_r.
    rewrite forallb_app in Hc. apply andb_true_iff in Hc.
    destruct Hc as [_ He]. cbn [forallb] in He. rewrite andb_true_r in He.
    apply Forall_app in IH. destruct IH as [_ IH].
    inversion IH as [|? ? IHe _]; subst.
    rewrite IHe by (apply compressed_inv; exact He).
    pose proof (compressed_entries _ He) as Hne.
    destruct (rev (entries (e_node e))) as [|[k v] tl] eqn:Hrev.
    + exfalso. apply Hne. rewrite <- (rev_involutive (entries (e_node e))).
      rewrite Hrev. reflexivity.
    + reflexivity.
Qed.

(** X17.  On a tree built by the public operations in which every node
    other than the root has a stored entry or at least two children (as
    [Insert] and [Delete] keep it), [Minimum] returns the smallest stored
    key with its value, and the empty string, [nil] and [false] exactly
    when the tree stores nothing. *)
Theorem Minimum_is_smallest (t : Tree) :
  reachable t -> invariant3 t = true ->
  match Minimum t with
  | (k, Some v, true) =>
      Get t k = (Some v, true) /\
      forall k', snd (Get t k') = true ->
                 k' = k \/ gostring_ltb k k' = true
  | (k, None, false) => k = [] /\ forall k', Get t k' = (None, false)
  | _ => False
  end.
Proof.
  intros Hr Hinv. apply reachable_wf in Hr.
  unfold wf_tree, Minimum, Get, invariant3 in *.
  rewrite (minimum_entries _ Hinv).
  assert (Hin : forall k v, In (k, v) (entries (root t)) <->
                            get (root t) k = (Some v, true)).
  { intros k0 v0. rewrite (entries_get k0 v0 Hr). cbn [app]. split.
    - intros [x [-> H]]. exact H.
    - intros H. exists k0. auto. }
  pose proof (entries_sorted Hr) as Hs.
  destruct (entries (root t)) as [|[k v] tl].
  - split; [reflexivity|]. intros k'.
    destruct (get_shape (root t) k') as [[v' Hv]|Hn]; [|exact Hn].
    exfalso. apply (proj2 (Hin k' v')). exact Hv.
  - split; [apply Hin; left; reflexivity|].
    intros k' Hk'.
    destruct (get_shape (root t) k') as [[v' Hv]|Hn];
      [|rewrite Hn in Hk'; discriminate].
    apply Hin in Hv. destruct Hv as [Heq|Hv].
    + injection Heq as <- _. left; reflexivity.
    + right. inversion Hs as [|? ? _ Hall]; subst.
      rewrite Forall_forall in Hall. apply (Hall _ Hv).
Qed.

(** X18.  Under the same conditions [Maximum] returns the greatest stored
    key with its value, and the empty string, [nil] and [false] exactly
    when the tree stores nothing. *)
Theorem Maximum_is_greatest (t : Tree) :
  reachable t -> invariant3 t = true ->
  match Maximum t with
  | (k, Some v, true) =>
      Get t k = (Some v, true) /\
      forall k', snd (Get t k') = true ->
                 k' = k \/ gostring_ltb k' k = true
  | (k, None, false) => k = [] /\ forall k', Get t k' = (None, false)
  | _ => False
  end.
Proof.
  intros Hr Hinv. apply reachable_wf in Hr.
  unfold wf_tree, Maximum, Get, invariant3 in *.
  rewrite (maximum_entries _ Hinv).
  assert (Hin : forall k v, In (k, v) (entries (root t)) <->
                            get (root t) k = (Some v, true)).
  { intros k0 v0. rewrite (entries_get k0 v0 Hr). cbn [app]. split.
    - intros [x [-> H]]. exact H.
    - intros H. exists k0. auto. }
  pose proof (entries_sorted Hr) as Hs.
  rewrite <- (rev_involutive (entries (root t))) in Hin, Hs.
  destruct (rev (entries (root t))) as [|[k v] tl]; cbn [rev] in *.
  - split; [reflexivity|]. intros k'.
    destruct (get_shape (root t) k') as [[v' Hv]|Hn]; [|exact Hn].
    exfalso. apply (proj2 (Hin k' v')). exact Hv.
  - split; [apply Hin; apply in_or_app; right; left; reflexivity|].
    intros k' Hk'.
    destruct (get_shape (root t) k') as [[v' Hv]|Hn];
      [|rewrite Hn in Hk'; discriminate].
    apply Hin in Hv. apply in_app_or in Hv. destruct Hv as [Hv|[Heq|[]]].
    + right. apply sorted_last in Hs. rewrite Forall_forall in Hs.
      apply (Hs _ Hv).
    + injection Heq as <- _. left; reflexivity.
Qed.

(** ** FirstNonIncludedPrefix *)

(** A node of a well-formed tree sits at the end of a path, and what is
    found below that path is what the node finds. *)
Lemma In_tree_wf (m n : node) :
  In_tree m n ->
  forall path, wf_at path n ->
    exists q, wf_at (path ++ q) m /\ forall x, get n (q ++ x) = get m x.
Proof.
  induction 1 as [n|m n e He Hin IH]; intros path Hw.
  - exists []. rewrite app_nil_r. auto.
  - pose proof (wf_at_inv Hw) as [_ [_ [_ Hc]]].
    destruct (IH _ (Hc e He)) as [q [Hq Hg]].
    exists (prefix (e_node e) ++ q). rewrite app_assoc.
    split; [exact Hq|]. intros x. rewrite <- app_assoc.
    rewrite (get_child e (q ++ x) Hw He). apply Hg.
Qed.

Lemma invert_binary_label_differs (c : ascii) :
  exists d, invert_binary_label c = [d] /\ d <> c.
Proof.
  unfold invert_binary_label.
  destruct (Ascii.eqb_spec c "1"%char) as [->|Hc].
  - exists "0"%char. split; [reflexivity|discriminate].
  - exists "1"%char. split; [reflexivity|]. intros H. apply Hc. auto.
Qed.

(** X19.  On a tree built by the public operations, over any alphabet, a
    prefix [r] that [FirstNonIncludedPrefix(s)] returns with [true] covers
    no stored key other than [r] itself, and it is the longest stored
    prefix of [s], as [LongestPrefix(s)] returns it, followed by at most
    one symbol. *)
Theorem FirstNonIncludedPrefix_is_free (t : Tree) (s r : gostring) :
  reachable t ->
  FirstNonIncludedPrefix t s = (r, true) ->
  (forall k, snd (Get t k) = true -> HasPrefix k r = true -> k = r) /\
  exists key v,
    LongestPrefix t s = (key, Some v, true) /\
    HasPrefix r key = true /\ length r <= S (length key).
Proof.
  intros Hr. apply reachable_wf in Hr.
  unfold wf_tree, FirstNonIncludedPrefix, LongestPrefix, Get in *.
  destruct (Tree_longestPrefix t s) as [[[key val] pres] on] eqn:E.
  destruct pres; [|discriminate]. destruct on as [n|]; [|discriminate].
  pose proof (Tree_longestPrefix_found _ _ E) as [Hin [lf [L [-> ->]]]].
  rewrite L. destruct (In_tree_wf Hin Hr) as [q [Hq Hg]]. cbn [app] in Hq.
  pose proof (wf_at_inv Hq) as [Hs [Hk _]].
  pose proof (Hk lf L) as Hkey.
  destruct (edges n) as [|e [|e' es]] eqn:He; [| |discriminate];
    intros H; injection H as <-.
  - split.
    + intros k Hst Hp. rewrite Hkey in *.
      apply HasPrefix_true in Hp. destruct Hp as [x ->].
      rewrite Hg in Hst. destruct x as [|d x]; [apply app_nil_r|].
      rewrite get_cons, He, getEdge_nil in Hst. discriminate.
    + exists (Key lf), (Val lf). cbn [fst].
      split; [reflexivity|]. split; [apply HasPrefix_refl|lia].
  - destruct (invert_binary_label_differs (label e)) as [d [-> Hd]]. split.
    + intros k Hst Hp. exfalso. rewrite Hkey in *.
      apply HasPrefix_true in Hp. destruct Hp as [x ->].
      rewrite <- app_assoc, Hg in Hst. cbn [app] in Hst.
      rewrite get_cons, He in Hst.
      assert (Hnone : getEdge [e] d = None).
      { apply getEdge_sorted_None; [exact Hs|].
        intros e0 [<-|[]]. auto. }
      rewrite Hnone in Hst. discriminate.
    + exists (Key lf), (Val lf). cbn [fst].
      split; [reflexivity|]. split; [apply HasPrefix_app|].
      rewrite length_app. cbn [length]. lia.
Qed.

(** ** Insert followed by Delete *)

(** X20.  On a tree built by the public operations, inserting a key that
    is not stored and deleting it again gives a tree that answers every
    [Get] as the tree before, with the same [Len()]. *)
Theorem Insert_then_Delete_restores (t t1 : Tree) (k : gostring) (v : V)
  (r : option V * bool) :
  reachable t ->
  Get t k = (None, false) ->
  Insert t k v = Some (t1, r) ->
  Delete t1 k = (fst (Delete t1 k), (Some v, true)) /\
  (forall x, Get (fst (Delete t1 k)) x = Get t x) /\
  Len (fst (Delete t1 k)) = Len t.
Proof.
  intros Hr Hnone Hins. pose proof (reachable_size Hr) as Hsz.
  apply reachable_wf in Hr.
  destruct (Insert_spec k v Hr) as [t' [Hins' [Hw1 [Hsz1 [_ Hget]]]]].
  rewrite Hins in Hins'. injection Hins' as <- _.
  rewrite Hnone in Hsz1. cbn [snd] in Hsz1.
  unfold Get, Delete, Len, wf_tree in *.
  assert (Hk : get (root t1) k = (Some v, true)).
  { rewrite Hget. destruct (gostring_eq_dec k k); [reflexivity|contradiction]. }
  destruct (delete_present (root t1) true k Hk) as [n' [g [tg D]]].
  rewrite D. cbn [fst root size].
  destruct (delete_spec _ _ Hw1 D) as [_ [_ [Hroot _]]].
  specialize (Hroot eq_refl).
  split; [reflexivity|]. split.
  - intros x. rewrite Hroot, Hget.
    destruct (gostring_eq_dec x k) as [->|]; [symmetry; exact Hnone|].
    reflexivity.
  - rewrite Hsz1, int_wrap_sub.
    replace (size t + 1 - 1)%Z with (size t - 0)%Z by lia.
    rewrite Hsz, int_wrap_sub, Z.sub_0_r. reflexivity.
Qed.

End MoreFacts.

(** * Concrete trees *)

(** The tree holding [100010], [1000101] and [1000100]: the visitor of the
    post-order walk is called once per key; [100010] receives the two keys
    that extend it and each of these receives no child. *)
Lemma Walk_post_example :
  exists t : Tree nat,
    insert_all [(str "100010", 1); (str "1000101", 2); (str "1000100", 3)]
      (New nat) = Some t /\
    Walk_post t record_post []
    = [(mkLeaf (str "1000100") 3, []);
       (mkLeaf (str "1000101") 2, []);
       (mkLeaf (str "100010") 1,
        [mkLeaf (str "1000100") 3; mkLeaf (str "1000101") 2])].
Proof. eexists. split; vm_compute; reflexivity. Qed.


(** The tree holding [a] and [ab]. *)
Definition tree_a_ab : Tree nat :=
  mkTree
    (mkNode None []
       [mkEdge "a"%char
          (mkNode (Some (mkLeaf (str "a") 1)) (str "a")
             [mkEdge "b"%char
                (mkNode (Some (mkLeaf (str "ab") 2)) (str "b") [])])])
    2.


(** The tree holding [00] and [000]. *)
Definition tree_00_000 : Tree nat :=
  mkTree
    (mkNode None []
       [mkEdge "0"%char
          (mkNode (Some (mkLeaf (str "00") 1)) (str "00")
             [mkEdge "0"%char
                (mkNode (Some (mkLeaf (str "000") 2)) (str "0") [])])])
    2.

Lemma tree_a_ab_built :
  insert_all [(str "a", 1); (str "ab", 2)] (New nat) = Some tree_a_ab.
Proof. vm_compute. reflexivity. Qed.


Lemma tree_00_000_built :
  insert_all [(str "00", 1); (str "000", 2)] (New nat) = Some tree_00_000.
Proof. vm_compute. reflexivity. Qed.

Lemma tree_a_ab_reachable : reachable tree_a_ab.
Proof.
  apply (@insert_all_reachable nat [(str "a", 1); (str "ab", 2)]
           (New nat) tree_a_ab (@reach_New nat)).
  exact tree_a_ab_built.
Qed.

Lemma tree_00_000_reachable : reachable tree_00_000.
Proof.
  apply (@insert_all_reachable nat [(str "00", 1); (str "000", 2)]
           (New nat) tree_00_000 (@reach_New nat)).
  exact tree_00_000_built.
Qed.

Lemma Delete_absent_unchanged_witness :
  snd (Get tree_a_ab (str "b")) = false /\
  Delete tree_a_ab (str "b") = (tree_a_ab, (None, false)).
Proof.
  split; [reflexivity|].
  apply (@Delete_absent_unchanged nat tree_a_ab (str "b")). reflexivity.
Defined.

Lemma Insert_empty_key_witness :
  exists t',
    Insert (New nat) [] 7 = Some (t', (None, false)) /\
    leaf (root t') = Some (mkLeaf [] 7) /\
    Len t' = (Len (New nat) + 1)%Z /\
    Get t' [] = (Some 7, true).
Proof.
  apply (@Insert_empty_key nat (New nat) 7).
  - reflexivity.
  - unfold int_min, int_max, Len; simpl. lia.
Defined.

(** In the tree holding [00] and [000], the longest stored prefix of the
    query [001] is [00], whose node has the single child [0]. *)
Lemma tree_00_000_longest (k' : gostring) :
  snd (Get tree_00_000 k') = true ->
  HasPrefix (str "001") k' = true ->
  length k' <= length (str "00").
Proof.
  intros Hst Hp. apply HasPrefix_true in Hp. destruct Hp as [r Hr].
  change (length (str "00")) with 2.
  destruct k' as [|a [|b [|c k']]]; cbn [length]; try lia.
  exfalso. simpl in Hr. injection Hr as <- <- <- Hr.
  destruct k'; [vm_compute in Hst; discriminate|discriminate].
Qed.

Lemma FirstNonIncludedPrefix_binary_witness :
  FirstNonIncludedPrefix tree_00_000 (str "001") = (str "001", true).
Proof.
  apply (proj1 (proj2 (proj1 (@FirstNonIncludedPrefix_binary nat)
                 tree_00_000 (str "001") (str "00")
                 (mkNode (Some (mkLeaf (str "00") 1)) (str "00")
                    [mkEdge "0"%char
                       (mkNode (Some (mkLeaf (str "000") 2)) (str "0") [])])
                 tree_00_000_reachable eq_refl eq_refl eq_refl
                 tree_00_000_longest eq_refl))
           (mkEdge "0"%char (mkNode (Some (mkLeaf (str "000") 2)) (str "0") []))
           eq_refl).
Defined.

(** C7, as stated, fails: the tree holds the keys [a] and [ab], which are
    not over the binary alphabet, and the query [a] is answered
    [("a1", true)]. *)
Lemma FirstNonIncludedPrefix_nonbinary_accepted :
  binary_alphabet tree_a_ab = false /\
  FirstNonIncludedPrefix tree_a_ab (str "a") = (str "a1", true).
Proof. split; reflexivity. Qed.

(** In the tree holding [a] and [ab], the longest stored prefix of the
    query [ac] is [a], whose node has the single child [b]. *)
Lemma tree_a_ab_longest (k' : gostring) :
  snd (Get tree_a_ab k') = true ->
  HasPrefix (str "ac") k' = true ->
  length k' <= length (str "a").
Proof.
  intros Hst Hp. apply HasPrefix_true in Hp. destruct Hp as [r Hr].
  change (length (str "a")) with 1.
  destruct k' as [|a [|b k']]; cbn [length]; try lia.
  exfalso. simpl in Hr. injection Hr as <- <- Hr.
  destruct k'; [vm_compute in Hst; discriminate|discriminate].
Qed.

Lemma FirstNonIncludedPrefix_any_alphabet_witness :
  FirstNonIncludedPrefix tree_a_ab (str "ac") = (str "a" ++ str "1", true).
Proof.
  apply (@FirstNonIncludedPrefix_any_alphabet nat tree_a_ab (str "ac") (str "a")
           (mkNode (Some (mkLeaf (str "a") 1)) (str "a")
              [mkEdge "b"%char
                 (mkNode (Some (mkLeaf (str "ab") 2)) (str "b") [])])
           (mkEdge "b"%char (mkNode (Some (mkLeaf (str "ab") 2)) (str "b") []))).
  - exact tree_a_ab_reachable.
  - reflexivity.
  - reflexivity.
  - exact tree_a_ab_longest.
  - reflexivity.
  - reflexivity.
  - discriminate.
Defined.




(** The tree holding [a], [ab] and [abc], a chain of three stored
    entries. *)
Definition tree_chain : Tree nat :=
  mkTree
    (mkNode None []
       [mkEdge "a"%char
          (mkNode (Some (mkLeaf (str "a") 1)) (str "a")
             [mkEdge "b"%char
                (mkNode (Some (mkLeaf (str "ab") 2)) (str "b")
                   [mkEdge "c"%char
                      (mkNode (Some (mkLeaf (str "abc") 3)) (str "c") [])])])])
    3.

Lemma tree_chain_built :
  insert_all [(str "a", 1); (str "ab", 2); (str "abc", 3)] (New nat)
  = Some tree_chain.
Proof. vm_compute. reflexivity. Qed.

(** C3, as stated, fails: on the chain [a], [ab], [abc] the call for [a]
    receives [ab] alone, although [abc] is a stored entry of its subtree
    too. *)
Lemma Walk_post_not_whole_subtree :
  Walk_post tree_chain record_post []
  = [(mkLeaf (str "abc") 3, []);
     (mkLeaf (str "ab") 2, [mkLeaf (str "abc") 3]);
     (mkLeaf (str "a") 1, [mkLeaf (str "ab") 2])] /\
  claimed_post_calls (root tree_chain)
  = [(Some (mkLeaf (str "abc") 3), []);
     (Some (mkLeaf (str "ab") 2), [mkLeaf (str "abc") 3]);
     (Some (mkLeaf (str "a") 1), [mkLeaf (str "ab") 2; mkLeaf (str "abc") 3])] /\
  map (fun c => (Some (fst c), snd c)) (Walk_post tree_chain record_post [])
  <> claimed_post_calls (root tree_chain).
Proof.
  split; [reflexivity|]. split; [reflexivity|].
  vm_compute. discriminate.
Qed.

(** The tree holding [abc], [abd] and [b]. *)
Definition tree_abc_abd_b : Tree nat :=
  mkTree
    (mkNode None []
       [mkEdge "a"%char
          (mkNode None (str "ab")
             [mkEdge "c"%char
                (mkNode (Some (mkLeaf (str "abc") 1)) (str "c") []);
              mkEdge "d"%char
                (mkNode (Some (mkLeaf (str "abd") 2)) (str "d") [])]);
        mkEdge "b"%char (mkNode (Some (mkLeaf (str "b") 3)) (str "b") [])])
    3.

Lemma tree_abc_abd_b_reachable : reachable tree_abc_abd_b.
Proof.
  apply (@insert_all_reachable nat
           [(str "abc", 1); (str "abd", 2); (str "b", 3)]
           (New nat) tree_abc_abd_b (@reach_New nat)).
  vm_compute. reflexivity.
Qed.

Lemma Insert_then_Get_witness :
  exists t' r,
    Insert tree_abc_abd_b (str "ab") 4 = Some (t', r) /\
    Get t' (str "ab") = (Some 4, true).
Proof.
  apply (@Insert_then_Get nat tree_abc_abd_b (str "ab") 4).
  exact tree_abc_abd_b_reachable.
Defined.

Lemma WalkPrefix_visits_witness :
  let L := WalkPrefix tree_abc_abd_b (str "a") record [] in
  (forall k v, In (k, v) L <->
               Get tree_abc_abd_b k = (Some v, true) /\
               HasPrefix k (str "a") = true) /\
  NoDup (map fst L) /\
  StronglySorted key_lt L /\
  (forall (S : Type) (fn : WalkFn S) (s : S),
     WalkPrefix tree_abc_abd_b (str "a") fn s = fst (run_visits fn L s)) /\
  (locate (root tree_abc_abd_b) (str "a") = Miss ->
   L = [] /\
   forall (S : Type) (fn : WalkFn S) (s : S),
     WalkPrefix tree_abc_abd_b (str "a") fn s = s).
Proof.
  apply (@WalkPrefix_visits nat tree_abc_abd_b (str "a")).
  exact tree_abc_abd_b_reachable.
Defined.

(** The walk of the witness visits [abc] and [abd], in this order. *)
Lemma WalkPrefix_example :
  WalkPrefix tree_abc_abd_b (str "a") record []
  = [(str "abc", 1); (str "abd", 2)].
Proof. reflexivity. Qed.

Lemma Len_counts_stored_entries_witness :
  (exists t,
     insert_all [(str "a", 1); (str "ab", 2); (str "a", 3)] (New nat) = Some t /\
     Len t = 2%Z /\ count_stored (root t) = 2) /\
  size tree_abc_abd_b = 3%Z.
Proof.
  split.
  - apply (proj1 (@Len_counts_stored_entries nat)
             [(str "a", 1); (str "ab", 2); (str "a", 3)]).
    vm_compute. discriminate.
  - apply (proj2 (@Len_counts_stored_entries nat) tree_abc_abd_b).
    + exact tree_abc_abd_b_reachable.
    + vm_compute. discriminate.
Defined.

(** ** Instances of the further properties *)

(** An edge table with the labels [a] and [c]. *)
Definition table_a_c : list (edge_of nat) :=
  [mkEdge "a"%char 1; mkEdge "c"%char 2].

Lemma table_a_c_sorted : labels_sorted table_a_c.
Proof. repeat constructor. Qed.

Lemma tree_chain_reachable : reachable tree_chain.
Proof.
  apply (@insert_all_reachable nat
           [(str "a", 1); (str "ab", 2); (str "abc", 3)]
           (New nat) tree_chain (@reach_New nat)).
  exact tree_chain_built.
Qed.

Lemma getEdge_finds_edges_witness :
  (forall n, getEdge table_a_c "c"%char = Some n <->
             In (mkEdge "c"%char n) table_a_c) /\
  (getEdge table_a_c "c"%char = None <->
   forall e, In e table_a_c -> label e <> "c"%char).
Proof.
  apply (@getEdge_finds_edges nat table_a_c "c"%char).
  exact table_a_c_sorted.
Defined.

Lemma addEdge_keeps_table_witness :
  labels_sorted (addEdge table_a_c (mkEdge "b"%char 3)) /\
  length (addEdge table_a_c (mkEdge "b"%char 3)) = 3 /\
  getEdge (addEdge table_a_c (mkEdge "b"%char 3)) "b"%char = Some 3 /\
  (forall c, c <> "b"%char ->
     getEdge (addEdge table_a_c (mkEdge "b"%char 3)) c = getEdge table_a_c c).
Proof.
  apply (@addEdge_keeps_table nat table_a_c (mkEdge "b"%char 3)).
  - exact table_a_c_sorted.
  - reflexivity.
Defined.

Lemma delEdge_removes_label_witness :
  labels_sorted (delEdge table_a_c "a"%char) /\
  getEdge (delEdge table_a_c "a"%char) "a"%char = None /\
  (forall c', c' <> "a"%char ->
     getEdge (delEdge table_a_c "a"%char) c' = getEdge table_a_c c') /\
  (getEdge table_a_c "a"%char = None ->
   delEdge table_a_c "a"%char = table_a_c) /\
  (forall n, getEdge table_a_c "a"%char = Some n ->
     S (length (delEdge table_a_c "a"%char)) = length table_a_c).
Proof.
  apply (@delEdge_removes_label nat table_a_c "a"%char).
  exact table_a_c_sorted.
Defined.

Lemma updateEdge_replaces_node_witness :
  (updateEdge table_a_c "c"%char 7 = None <->
   getEdge table_a_c "c"%char = None) /\
  (forall es', updateEdge table_a_c "c"%char 7 = Some es' ->
     labels_sorted es' /\
     map (@label nat) es' = map (@label nat) table_a_c /\
     getEdge es' "c"%char = Some 7 /\
     (forall c', c' <> "c"%char -> getEdge es' c' = getEdge table_a_c c')).
Proof.
  apply (@updateEdge_replaces_node nat table_a_c "c"%char 7).
  exact table_a_c_sorted.
Defined.

(** The tree holding [a], [ab] and [b]. *)
Definition tree_a_ab_b : Tree nat :=
  mkTree
    (mkNode None []
       [mkEdge "a"%char
          (mkNode (Some (mkLeaf (str "a") 1)) (str "a")
             [mkEdge "b"%char
                (mkNode (Some (mkLeaf (str "ab") 2)) (str "b") [])]);
        mkEdge "b"%char (mkNode (Some (mkLeaf (str "b") 3)) (str "b") [])])
    3.

Lemma tree_a_ab_b_built :
  Insert tree_a_ab (str "b") 3 = Some (tree_a_ab_b, (None, false)).
Proof. vm_compute. reflexivity. Qed.

Lemma Insert_leaves_other_keys_witness :
  Insert tree_a_ab (str "b") 3 = Some (tree_a_ab_b, (None, false)) /\
  forall k', k' <> str "b" -> Get tree_a_ab_b k' = Get tree_a_ab k'.
Proof.
  split; [exact tree_a_ab_b_built|].
  apply (@Insert_leaves_other_keys nat tree_a_ab tree_a_ab_b (str "b") 3
           (None, false)).
  - exact tree_a_ab_reachable.
  - exact tree_a_ab_b_built.
Defined.

Lemma mutations_keep_invariants_witness :
  (forall k v t' r, Insert tree_abc_abd_b k v = Some (t', r) -> wf_tree t') /\
  (forall k, wf_tree (fst (Delete tree_abc_abd_b k))) /\
  (forall p, wf_tree (fst (DeletePrefix tree_abc_abd_b p))).
Proof.
  apply (@mutations_keep_invariants nat tree_abc_abd_b).
  exact (reachable_wf tree_abc_abd_b_reachable).
Defined.

Lemma Insert_Delete_keep_invariant3_witness :
  (forall k v t' r,
     Insert tree_abc_abd_b k v = Some (t', r) -> invariant3 t' = true) /\
  (forall k, invariant3 (fst (Delete tree_abc_abd_b k)) = true).
Proof.
  apply (@Insert_Delete_keep_invariant3 nat tree_abc_abd_b). reflexivity.
Defined.

Lemma Delete_removes_key_witness :
  exists t',
    Delete tree_abc_abd_b (str "abd") = (t', (Some 2, true)) /\
    size t' = int_wrap (size tree_abc_abd_b - 1) /\
    S (count_stored (root t')) = count_stored (root tree_abc_abd_b) /\
    Get t' (str "abd") = (None, false) /\
    forall k', k' <> str "abd" -> Get t' k' = Get tree_abc_abd_b k'.
Proof.
  apply (@Delete_removes_key nat tree_abc_abd_b (str "abd") 2).
  - exact tree_abc_abd_b_reachable.
  - reflexivity.
Defined.

Lemma DeletePrefix_removes_prefix_witness :
  (forall x, Get (fst (DeletePrefix tree_abc_abd_b (str "a"))) x =
             if HasPrefix x (str "a") then (None, false)
             else Get tree_abc_abd_b x) /\
  snd (DeletePrefix tree_abc_abd_b (str "a")) =
    int_wrap (Z.of_nat (length (WalkPrefix tree_abc_abd_b (str "a")
                                  record []))) /\
  Len (fst (DeletePrefix tree_abc_abd_b (str "a"))) =
    int_wrap (Len tree_abc_abd_b - snd (DeletePrefix tree_abc_abd_b (str "a"))).
Proof.
  apply (@DeletePrefix_removes_prefix nat tree_abc_abd_b (str "a")).
  exact tree_abc_abd_b_reachable.
Defined.

(** In the witness [DeletePrefix("a")] removes [abc] and [abd] and
    returns 2. *)
Lemma DeletePrefix_example :
  snd (DeletePrefix tree_abc_abd_b (str "a")) = 2%Z /\
  Len (fst (DeletePrefix tree_abc_abd_b (str "a"))) = 1%Z.
Proof. split; reflexivity. Qed.

Lemma Walk_visits_witness :
  let L := Walk tree_abc_abd_b record [] in
  (forall k v, In (k, v) L <-> Get tree_abc_abd_b k = (Some v, true)) /\
  StronglySorted key_lt L /\
  NoDup (map fst L) /\
  (forall (S : Type) (fn : WalkFn S) (s : S),
     Walk tree_abc_abd_b fn s = fst (run_visits fn L s)) /\
  Len tree_abc_abd_b = int_wrap (Z.of_nat (length L)).
Proof.
  apply (@Walk_visits nat tree_abc_abd_b).
  exact tree_abc_abd_b_reachable.
Defined.

Lemma ToMap_holds_entries_witness :
  ToMap tree_abc_abd_b (fun k => "x"%char :: k) (str "xabd") = Some 2 <->
  exists k, "x"%char :: k = str "xabd" /\
            Get tree_abc_abd_b k = (Some 2, true).
Proof.
  apply (@ToMap_holds_entries nat tree_abc_abd_b (fun k => "x"%char :: k)).
  - exact tree_abc_abd_b_reachable.
  - intros k1 k2 _ _ H. injection H as H. exact H.
Defined.

(** The map of the witness holds the value of [abd] under [xabd]. *)
Lemma ToMap_example :
  ToMap tree_abc_abd_b (fun k => "x"%char :: k) (str "xabd") = Some 2 /\
  ToMap tree_abc_abd_b (fun k => "x"%char :: k) (str "abd") = None.
Proof. split; reflexivity. Qed.

Lemma NewFromMap_holds_map_witness :
  exists t,
    NewFromMap [(str "b", 3); (str "abd", 2); (str "abc", 1)] = Some t /\
    (forall k v, Get t k = (Some v, true) <->
                 In (k, v) [(str "b", 3); (str "abd", 2); (str "abc", 1)]) /\
    Len t = int_wrap (Z.of_nat 3).
Proof.
  apply (@NewFromMap_holds_map nat
           [(str "b", 3); (str "abd", 2); (str "abc", 1)]).
  repeat constructor; cbv; intuition discriminate.
Defined.

Lemma WalkPath_visits_witness :
  let L := WalkPath tree_chain (str "abx") record [] in
  (forall k v, In (k, v) L <->
               Get tree_chain k = (Some v, true) /\
               HasPrefix (str "abx") k = true) /\
  StronglySorted shorter L /\
  (forall (S : Type) (fn : WalkFn S) (s : S),
     WalkPath tree_chain (str "abx") fn s = fst (run_visits fn L s)).
Proof.
  apply (@WalkPath_visits nat tree_chain (str "abx")).
  exact tree_chain_reachable.
Defined.

(** The walk of the witness visits [a] and [ab], in this order. *)
Lemma WalkPath_example :
  WalkPath tree_chain (str "abx") record [] = [(str "a", 1); (str "ab", 2)].
Proof. reflexivity. Qed.

Lemma LongestPrefix_is_longest_witness :
  Get tree_chain (str "ab") = (Some 2, true) /\
  HasPrefix (str "abx") (str "ab") = true /\
  forall k', snd (Get tree_chain k') = true ->
             HasPrefix (str "abx") k' = true ->
             length k' <= length (str "ab").
Proof.
  exact (@LongestPrefix_is_longest nat tree_chain (str "abx")
           tree_chain_reachable).
Defined.

Lemma Minimum_is_smallest_witness :
  Get tree_abc_abd_b (str "abc") = (Some 1, true) /\
  forall k', snd (Get tree_abc_abd_b k') = true ->
             k' = str "abc" \/ gostring_ltb (str "abc") k' = true.
Proof.
  exact (@Minimum_is_smallest nat tree_abc_abd_b
           tree_abc_abd_b_reachable eq_refl).
Defined.

Lemma Maximum_is_greatest_witness :
  Get tree_abc_abd_b (str "b") = (Some 3, true) /\
  forall k', snd (Get tree_abc_abd_b k') = true ->
             k' = str "b" \/ gostring_ltb k' (str "b") = true.
Proof.
  exact (@Maximum_is_greatest nat tree_abc_abd_b
           tree_abc_abd_b_reachable eq_refl).
Defined.

(** Without invariant 3 the conclusion about [Minimum] fails: after
    [DeletePrefix("a")] the first edge of the root leads to a node
    without entry and without children, and [Minimum] reports an empty
    tree although [b] is stored. *)
Lemma Minimum_after_DeletePrefix :
  invariant3 (fst (DeletePrefix tree_abc_abd_b (str "a"))) = false /\
  Minimum (fst (DeletePrefix tree_abc_abd_b (str "a"))) = ([], None, false) /\
  Get (fst (DeletePrefix tree_abc_abd_b (str "a"))) (str "b") = (Some 3, true).
Proof. repeat split; reflexivity. Qed.

Lemma FirstNonIncludedPrefix_is_free_witness :
  (forall k, snd (Get tree_a_ab k) = true ->
             HasPrefix k (str "a1") = true -> k = str "a1") /\
  exists key v,
    LongestPrefix tree_a_ab (str "a") = (key, Some v, true) /\
    HasPrefix (str "a1") key = true /\ length (str "a1") <= S (length key).
Proof.
  apply (@FirstNonIncludedPrefix_is_free nat tree_a_ab (str "a") (str "a1")).
  - exact tree_a_ab_reachable.
  - reflexivity.
Defined.

Lemma Insert_then_Delete_restores_witness :
  Delete tree_a_ab_b (str "b")
  = (fst (Delete tree_a_ab_b (str "b")), (Some 3, true)) /\
  (forall x, Get (fst (Delete tree_a_ab_b (str "b"))) x = Get tree_a_ab x) /\
  Len (fst (Delete tree_a_ab_b (str "b"))) = Len tree_a_ab.
Proof.
  apply (@Insert_then_Delete_restores nat tree_a_ab tree_a_ab_b (str "b") 3
           (None, false)).
  - exact tree_a_ab_reachable.
  - reflexivity.
  - exact tree_a_ab_b_built.
Defined.
